(** * zkShuffle: the shuffle state machine and its Baby Jubjub library

    A shallow embedding of [contracts/shuffle/shuffle.sol]: the library
    [CurveBabyJubJub] as functions on [Z] (a [uint256] is an integer in
    [0, 2^256), EVM opcodes and checked arithmetic written out), and the
    contract [Shuffle] as functions from a storage record to a result that is
    either a new storage or a revert. *)

From Stdlib Require Import ZArith Lia Bool List Znumtheory Zpow_facts.
From Stdlib Require Import Zmod.ZmodInv.
From Bignums Require Import BigN.
From stdpp Require Import base option list gmap.

Open Scope Z_scope.

(** ** EVM words and opcodes *)

Module EVM.

(** A [uint256] holds an integer below [2^256]. *)
Definition WORD : Z := 2 ^ 256.

Definition is_word (v : Z) : Prop := 0 <= v < WORD.

(** [mulmod(a, b, m)]: arbitrary-precision product, [0] when [m = 0]. *)
Definition mulmod (a b m : Z) : Z :=
  if m =? 0 then 0 else (a * b) mod m.

(** [addmod(a, b, m)]: arbitrary-precision sum, [0] when [m = 0]. *)
Definition addmod (a b m : Z) : Z :=
  if m =? 0 then 0 else (a + b) mod m.

(** The bigModExp precompile at address [0x05], called by [expmod] with three
    32-byte operands: [b ^ e mod m], and [0] when [m = 0]. Square and multiply
    on the bits of the exponent, so that it runs on 254-bit operands. *)
Definition expmod (b e m : Z) : Z :=
  if m =? 0 then 0 else Zpow_mod b e m.

(** [a << n] on 256-bit words: bits shifted past the top are lost. *)
Definition shl (a n : Z) : Z :=
  if 256 <=? n then 0 else Z.shiftl a n mod WORD.

(** [a >> n] on 256-bit words. *)
Definition shr (a n : Z) : Z :=
  if 256 <=? n then 0 else Z.shiftr a n.

End EVM.

(** ** The library [CurveBabyJubJub] *)

Module CurveBabyJubJub.
Import EVM.

Definition A : Z := 168700.
Definition D : Z := 168696.
Definition Q : Z :=
  21888242871839275222246405745257275088548364400416034343698204186575808495617.

(** [submod(_a, _b, _mod)]: [aNN = _a; if (_a <= _b) aNN += _mod;
    return addmod(aNN - _b, 0, _mod)]. The library only passes results of
    [mulmod(.., Q)] and [addmod(.., Q)] and the constant [1], all below [Q]:
    there [aNN] stays below [2 * Q] and [aNN - _b] is not negative, so neither
    checked operation can panic (lemma [submod_in_range]). *)
Definition submod (_a _b _mod : Z) : Z :=
  let aNN := if _a <=? _b then _a + _mod else _a in
  addmod (aNN - _b) 0 _mod.

(** [inverse(_a) = expmod(_a, Q - 2, Q)]. *)
Definition inverse (_a : Z) : Z := expmod _a (Q - 2) Q.

(** [pointAdd(_x1, _y1, _x2, _y2)]. The second early return tests [_x2] and
    [_y1], as the source does. *)
Definition pointAdd (_x1 _y1 _x2 _y2 : Z) : Z * Z :=
  if (_x1 =? 0) && (_y1 =? 0) then (_x2, _y2)
  else if (_x2 =? 0) && (_y1 =? 0) then (_x1, _y1)
  else
    let x1x2 := mulmod _x1 _x2 Q in
    let y1y2 := mulmod _y1 _y2 Q in
    let dx1x2y1y2 := mulmod D (mulmod x1x2 y1y2 Q) Q in
    let x3Num := addmod (mulmod _x1 _y2 Q) (mulmod _y1 _x2 Q) Q in
    let y3Num := submod y1y2 (mulmod A x1x2 Q) Q in
    (mulmod x3Num (inverse (addmod 1 dx1x2y1y2 Q)) Q,
     mulmod y3Num (inverse (submod 1 dx1x2y1y2 Q)) Q).

(** The loop of [pointMul]: [while (remaining != 0)], one iteration per unit
    of fuel. [None] when the fuel runs out before [remaining] reaches [0]. *)
Fixpoint pointMul_loop (fuel : nat) (remaining px py ax ay : Z) : option (Z * Z) :=
  if remaining =? 0 then Some (ax, ay)
  else
    match fuel with
    | O => None
    | S fuel' =>
        let '(ax', ay') :=
          if negb (Z.land remaining 1 =? 0) then pointAdd ax ay px py
          else (ax, ay) in
        let '(px', py') := pointAdd px py px py in
        pointMul_loop fuel' (remaining / 2) px' py' ax' ay'
    end.

(** [pointMul(_x1, _y1, _d)]: the scalar is a [uint256], so 256 halvings
    bring [remaining] to [0]. *)
Definition pointMul (_x1 _y1 _d : Z) : option (Z * Z) :=
  pointMul_loop 256 _d _x1 _y1 0 0.

(** [isOnCurve(_x, _y)]. *)
Definition isOnCurve (_x _y : Z) : bool :=
  let xSq := mulmod _x _x Q in
  let ySq := mulmod _y _y Q in
  let lhs := addmod (mulmod A xSq Q) ySq Q in
  let rhs := addmod 1 (mulmod (mulmod D xSq Q) ySq Q) Q in
  submod lhs rhs Q =? 0.

End CurveBabyJubJub.

(** ** The library [Pairing] *)

Module Pairing.

(** The prime [q] of the base field of [G1]. *)
Definition BASE_MODULUS : Z :=
  21888242871839275222246405745257275088696311157297823662689037894645226208583.

(** The prime modulus of the scalar field of [G1]. *)
Definition SCALAR_MODULUS : Z :=
  21888242871839275222246405745257275088548364400416034343698204186575808495617.

(** A [G1Point] is its two words [(X, Y)]. *)
Definition G1Point : Type := (Z * Z)%type.

Definition P1 : G1Point := (1, 2).

(** [negate(p)]; [None] is the revert [InvalidProof()]. *)
Definition negate (p : G1Point) : option G1Point :=
  if (fst p =? 0) && (snd p =? 0) then Some (0, 0)
  else if (BASE_MODULUS <=? fst p) || (BASE_MODULUS <=? snd p) then None
  else Some (fst p, BASE_MODULUS - snd p).

End Pairing.

(** ** The contract [Shuffle] *)

Module Shuffle.
Import EVM CurveBabyJubJub.

Definition address : Type := Z.

(** The ways a call reverts. The spec's error kinds name the [require]
    messages of the source:
    - [NotGameContract]: "Caller is not game contract" ([onlyGameContract]);
    - [NotOwner]: "Ownable: caller is not the owner" ([onlyOwner] of
      [Ownable]);
    - [ZeroAddressOwner]: "Ownable: new owner is the zero address"
      ([transferOwnership] of [Ownable]);
    - [InvalidState]: "Not in register phase", "Not in shuffle phase",
      "Contract must be in dealing phase to call this function";
    - [InvalidPublicKey]: "Invalid public key";
    - [NotYourTurn]: "Not your turn yet";
    - [NotRecognizedPlayer]: "not recognized player";
    - [DoubleDeal]: "detected double dealing the same card";
    - [IllFormedDelta]: "Ill-formated delta";
    - [NotOnCurve]: "Not on baby jubjub curve";
    - [IllFormedSelector]: "Ill-formated selector";
    - [ProofFailed]: the external verifier rejects the proof;
    - [CardNotFullyDecrypted]: "Card has not been fully decrypted";
    - [Panic]: checked arithmetic or an index out of bounds. *)
Inductive Error : Set :=
| NotGameContract | NotOwner | InvalidState | InvalidPublicKey | NotYourTurn
| NotRecognizedPlayer | DoubleDeal | IllFormedDelta | NotOnCurve
| IllFormedSelector | ProofFailed | CardNotFullyDecrypted | Panic
| ZeroAddressOwner.

Inductive Res (T : Type) : Type :=
| Ok (v : T)
| Revert (e : Error).
Arguments Ok {T} v.
Arguments Revert {T} e.

Definition bind {T U : Type} (m : Res T) (k : T -> Res U) : Res U :=
  match m with
  | Ok v => k v
  | Revert e => Revert e
  end.

Notation "'do' x <- m ; k" := (bind m (fun x => k))
  (at level 10, x pattern, m at level 100, k at level 200).

Definition require (b : bool) (e : Error) : Res unit :=
  if b then Ok tt else Revert e.

(** Checked [uint256] arithmetic of Solidity 0.8. *)
Definition checked_add (a b : Z) : Res Z :=
  if a + b <? WORD then Ok (a + b) else Revert Panic.

Definition checked_sub (a b : Z) : Res Z :=
  if b <=? a then Ok (a - b) else Revert Panic.

Definition checked_mul (a b : Z) : Res Z :=
  if a * b <? WORD then Ok (a * b) else Revert Panic.

(** Reading [a[i]]: a fixed array of 52 slots checks [i < 52], a dynamic
    array checks [i < a.length]. *)
Definition at52 {T : Type} (d : T) (a : list T) (i : Z) : Res T :=
  if (0 <=? i) && (i <? 52) then Ok (nth (Z.to_nat i) a d) else Revert Panic.

Definition at_dyn {T : Type} (d : T) (a : list T) (i : Z) : Res T :=
  if (0 <=? i) && (i <? Z.of_nat (length a)) then Ok (nth (Z.to_nat i) a d)
  else Revert Panic.

(** Modelled from the spec: the enum [State] is declared in [IShuffle.sol],
    which is not among the sources. The spec lists the states
    [{Uncreated, Created, Registration, Shuffle, Deal, Open, GameError,
    Complete}]; the contract names three of them [Registration],
    [ShufflingDeck] and [DealingCard]. The first member is the value of a
    game id that was never set up. *)
Inductive State : Set :=
| Uncreated | Created | Registration | ShufflingDeck | DealingCard
| Open | GameError | Complete.

#[global] Instance State_eq_dec : EqDecision State.
Proof. solve_decision. Defined.

(** Modelled from the spec: the structs [Deck], [Card], [CardDeal] and
    [PlayerInfo] are declared in [IShuffle.sol] too. Their fields and sizes
    are the ones the contract uses: 52 slots per array of a deck or of a
    deal, two selectors, growing arrays of player addresses and keys. *)
Record Deck : Type := mkDeck {
  X0 : list Z;
  X1 : list Z;
  Selector : Z * Z
}.

Module Card.
Record t : Type := mk { X0 : Z; Y0 : Z; X1 : Z; Y1 : Z }.
Definition zero : t := mk 0 0 0 0.
End Card.

Record CardDeal : Type := mkCardDeal {
  cards : list Card.t;
  record : list Z
}.

Record PlayerInfo : Type := mkPlayerInfo {
  playerAddr : list address;
  playerPk : list Z;
  aggregatedPk : Z * Z
}.

(** The storage of the contract. A [mapping] is a finite map read with the
    zero value of its value type where it was never written. *)
Record Storage : Type := mkStorage {
  owner : address;
  gameContract : address;
  numPlayers : gmap Z Z;
  decks : gmap Z Deck;
  initialDeck : Deck;
  cardDeals : gmap Z CardDeal;
  playerInfos : gmap Z PlayerInfo;
  playerIndexes : gmap Z Z;
  states : gmap Z State
}.

Definition zeroDeck : Deck := mkDeck (replicate 52 0) (replicate 52 0) (0, 0).
Definition zeroCardDeal : CardDeal :=
  mkCardDeal (replicate 52 Card.zero) (replicate 52 0).
Definition zeroPlayerInfo : PlayerInfo := mkPlayerInfo [] [] (0, 0).

Definition numPlayers_of (s : Storage) (gameId : Z) : Z :=
  default 0 (numPlayers s !! gameId).
Definition deck_of (s : Storage) (gameId : Z) : Deck :=
  default zeroDeck (decks s !! gameId).
Definition cardDeal_of (s : Storage) (gameId : Z) : CardDeal :=
  default zeroCardDeal (cardDeals s !! gameId).
Definition playerInfo_of (s : Storage) (gameId : Z) : PlayerInfo :=
  default zeroPlayerInfo (playerInfos s !! gameId).
Definition playerIndex_of (s : Storage) (gameId : Z) : Z :=
  default 0 (playerIndexes s !! gameId).
Definition state_of (s : Storage) (gameId : Z) : State :=
  default Uncreated (states s !! gameId).

Definition set_owner (s : Storage) (v : address) : Storage :=
  mkStorage v (gameContract s) (numPlayers s) (decks s) (initialDeck s)
    (cardDeals s) (playerInfos s) (playerIndexes s) (states s).
Definition set_gameContract (s : Storage) (v : address) : Storage :=
  mkStorage (owner s) v (numPlayers s) (decks s) (initialDeck s)
    (cardDeals s) (playerInfos s) (playerIndexes s) (states s).
Definition set_numPlayers (s : Storage) (gameId v : Z) : Storage :=
  mkStorage (owner s) (gameContract s) (<[gameId := v]> (numPlayers s))
    (decks s) (initialDeck s) (cardDeals s) (playerInfos s)
    (playerIndexes s) (states s).
Definition set_deck (s : Storage) (gameId : Z) (v : Deck) : Storage :=
  mkStorage (owner s) (gameContract s) (numPlayers s)
    (<[gameId := v]> (decks s)) (initialDeck s) (cardDeals s)
    (playerInfos s) (playerIndexes s) (states s).
Definition set_initialDeck (s : Storage) (v : Deck) : Storage :=
  mkStorage (owner s) (gameContract s) (numPlayers s) (decks s) v
    (cardDeals s) (playerInfos s) (playerIndexes s) (states s).
Definition set_cardDeal (s : Storage) (gameId : Z) (v : CardDeal) : Storage :=
  mkStorage (owner s) (gameContract s) (numPlayers s) (decks s)
    (initialDeck s) (<[gameId := v]> (cardDeals s)) (playerInfos s)
    (playerIndexes s) (states s).
Definition set_playerInfo (s : Storage) (gameId : Z) (v : PlayerInfo) : Storage :=
  mkStorage (owner s) (gameContract s) (numPlayers s) (decks s)
    (initialDeck s) (cardDeals s) (<[gameId := v]> (playerInfos s))
    (playerIndexes s) (states s).
Definition set_playerIndex (s : Storage) (gameId v : Z) : Storage :=
  mkStorage (owner s) (gameContract s) (numPlayers s) (decks s)
    (initialDeck s) (cardDeals s) (playerInfos s)
    (<[gameId := v]> (playerIndexes s)) (states s).
Definition set_state (s : Storage) (gameId : Z) (v : State) : Storage :=
  mkStorage (owner s) (gameContract s) (numPlayers s) (decks s)
    (initialDeck s) (cardDeals s) (playerInfos s) (playerIndexes s)
    (<[gameId := v]> (states s)).

(** The storage a fresh deployment starts from: every mapping empty, the
    deployer as owner, no game contract set. *)
Definition deployed (deployer : address) : Storage :=
  mkStorage deployer 0 ∅ ∅ zeroDeck ∅ ∅ ∅ ∅.

(** *** [initDeck] *)

(** The right-hand sides of the 52 assignments [deck.X1[i] = ...] of
    [initDeck], each with its index, in the order of the source. *)
Definition X1_assignments : list (nat * Z) := [
    (0%nat, 5299619240641551281634865583518297030282874472190772894086521144482721001553);
    (1%nat, 10031262171927540148667355526369034398030886437092045105752248699557385197826);
    (2%nat, 2763488322167937039616325905516046217694264098671987087929565332380420898366);
    (3%nat, 12252886604826192316928789929706397349846234911198931249025449955069330867144);
    (4%nat, 11480966271046430430613841218147196773252373073876138147006741179837832100836);
    (5%nat, 10483991165196995731760716870725509190315033255344071753161464961897900552628);
    (6%nat, 20092560661213339045022877747484245238324772779820628739268223482659246842641);
    (7%nat, 7582035475627193640797276505418002166691739036475590846121162698650004832581);
    (8%nat, 4705897243203718691035604313913899717760209962238015362153877735592901317263);
    (9%nat, 153240920024090527149238595127650983736082984617707450012091413752625486998);
    (10%nat, 21605515851820432880964235241069234202284600780825340516808373216881770219365);
    (11%nat, 13745444942333935831105476262872495530232646590228527111681360848540626474828);
    (12%nat, 2645068156583085050795409844793952496341966587935372213947442411891928926825);
    (13%nat, 6271573312546148160329629673815240458676221818610765478794395550121752710497);
    (14%nat, 5958787406588418500595239545974275039455545059833263445973445578199987122248);
    (15%nat, 20535751008137662458650892643857854177364093782887716696778361156345824450120);
    (16%nat, 13563836234767289570509776815239138700227815546336980653685219619269419222465);
    (17%nat, 4275129684793209100908617629232873490659349646726316579174764020734442970715);
    (18%nat, 3580683066894261344342868744595701371983032382764484483883828834921866692509);
    (19%nat, 18524760469487540272086982072248352918977679699605098074565248706868593560314);
    (20%nat, 2154427024935329939176171989152776024124432978019445096214692532430076957041);
    (21%nat, 1816241298058861911502288220962217652587610581887494755882131860274208736174);
    (22%nat, 3639172054127297921474498814936207970655189294143443965871382146718894049550);
    (23%nat, 18153584759852955321993060909315686508515263790058719796143606868729795593935);
    (24%nat, 5176949692172562547530994773011440485202239217591064534480919561343940681001);
    (25%nat, 11782448596564923920273443067279224661023825032511758933679941945201390953176);
    (26%nat, 15115414180166661582657433168409397583403678199440414913931998371087153331677);
    (27%nat, 16103312053732777198770385592612569441925896554538398460782269366791789650450);
    (28%nat, 15634573854256261552526691928934487981718036067957117047207941471691510256035);
    (29%nat, 13522014300368527857124448028007017231620180728959917395934408529470498717410);
    (30%nat, 8849597151384761754662432349647792181832839105149516511288109154560963346222);
    (31%nat, 17637772869292411350162712206160621391799277598172371975548617963057997942415);
    (32%nat, 17865442088336706777255824955874511043418354156735081989302076911109600783679);
    (33%nat, 9625567289404330771610619170659567384620399410607101202415837683782273761636);
    (34%nat, 19373814649267709158886884269995697909895888146244662021464982318704042596931);
    (35%nat, 7390138716282455928406931122298680964008854655730225979945397780138931089133);
    (36%nat, 15569307001644077118414951158570484655582938985123060674676216828593082531204);
    (37%nat, 5574029269435346901610253460831153754705524733306961972891617297155450271275);
    (38%nat, 19413618616187267723274700502268217266196958882113475472385469940329254284367);
    (39%nat, 4150841881477820062321117353525461148695942145446006780376429869296310489891);
    (40%nat, 13006218950937475527552755960714370451146844872354184015492231133933291271706);
    (41%nat, 2756817265436308373152970980469407708639447434621224209076647801443201833641);
    (42%nat, 20753332016692298037070725519498706856018536650957009186217190802393636394798);
    (43%nat, 18677353525295848510782679969108302659301585542508993181681541803916576179951);
    (44%nat, 14183023947711168902945925525637889799656706942453336661550553836881551350544);
    (45%nat, 9918129980499720075312297335985446199040718987227835782934042132813716932162);
    (46%nat, 13387158171306569181335774436711419178064369889548869994718755907103728849628);
    (47%nat, 6746289764529063117757275978151137209280572017166985325039920625187571527186);
    (48%nat, 17386594504742987867709199123940407114622143705013582123660965311449576087929);
    (49%nat, 11393356614877405198783044711998043631351342484007264997044462092350229714918);
    (50%nat, 16257260290674454725761605597495173678803471245971702030005143987297548407836);
    (51%nat, 3673082978401597800140653084819666873666278094336864183112751111018951461681)
  ].

(** [Deck memory deck] starts zeroed; the loop writes [X0], the assignments
    write [X1], and the selectors come last. *)
Definition initDeck_memory : Deck :=
  let deck := zeroDeck in
  let deck :=
    foldl (fun d i => mkDeck (<[i := 0]> (X0 d)) (X1 d) (Selector d))
      deck (seq 0 52) in
  let deck :=
    foldl (fun d iv => mkDeck (X0 d) (<[iv.1 := iv.2]> (X1 d)) (Selector d))
      deck X1_assignments in
  mkDeck (X0 deck) (X1 deck) (4503599627370495, 3075935501959818).

(** [gameId = 0] is reserved: there the deck goes to [initialDeck]. *)
Definition initDeck (s : Storage) (gameId : Z) : Storage :=
  if gameId =? 0 then set_initialDeck s initDeck_memory
  else set_deck s gameId initDeck_memory.

(** *** Loops that may revert *)

Fixpoint foldM {T U : Type} (f : T -> U -> Res T) (acc : T) (l : list U) : Res T :=
  match l with
  | [] => Ok acc
  | x :: l' => do acc' <- f acc x; foldM f acc' l'
  end.

(** Writing [a[i] = v] once the index was checked. *)
Definition set52 {T : Type} (a : list T) (i : Z) (v : T) : list T :=
  <[Z.to_nat i := v]> a.

Section Contract.

(** The two external Groth16 verifier contracts, as the spec takes them:
    opaque predicates on a packed proof (8 words) and the public signals. A
    call to [verifyProof] that rejects reverts the transaction. *)
Variable shuffleEncryptVerifier : list Z -> list Z -> bool.
Variable decryptVerifier : list Z -> list Z -> bool.

Definition onlyGameContract (s : Storage) (msg_sender : address) : Res unit :=
  require (gameContract s =? msg_sender) NotGameContract.

(** Not among the sources: [Shuffle] inherits [onlyOwner],
    [transferOwnership] and [renounceOwnership] from the contract [Ownable]
    of OpenZeppelin, which it imports (line 4) and which neither the sources
    nor the spec contain. They are modelled after the library, in the
    version whose [Ownable] has the constructor without arguments that
    [Shuffle] relies on (4.x): the deployer is the first owner, [onlyOwner]
    requires [owner() == msg.sender]. *)
Definition onlyOwner (s : Storage) (msg_sender : address) : Res unit :=
  require (owner s =? msg_sender) NotOwner.

Definition inDealingPhase (s : Storage) (gameId : Z) : Res unit :=
  require (bool_decide (state_of s gameId = DealingCard)) InvalidState.

(** [setGameSettings(numPlayers_, gameId)]. *)
Definition setGameSettings (s : Storage) (msg_sender : address)
    (numPlayers_ gameId : Z) : Res Storage :=
  do _ <- onlyGameContract s msg_sender;
  let s := set_numPlayers s gameId numPlayers_ in
  let s := set_playerIndex s gameId 0 in
  Ok (set_state s gameId Registration).

(** [setGameContract(gameContract_)]. *)
Definition setGameContract (s : Storage) (msg_sender gameContract_ : address)
    : Res Storage :=
  do _ <- onlyOwner s msg_sender;
  Ok (set_gameContract s gameContract_).

(** Not among the sources: [transferOwnership(newOwner)] of [Ownable],
    modelled after the library. [onlyOwner] comes first, then
    [require(newOwner != address(0), "Ownable: new owner is the zero
    address")]; only the owner changes. *)
Definition transferOwnership (s : Storage) (msg_sender newOwner : address)
    : Res Storage :=
  do _ <- onlyOwner s msg_sender;
  do _ <- require (negb (newOwner =? 0)) ZeroAddressOwner;
  Ok (set_owner s newOwner).

(** Not among the sources: [renounceOwnership()] of [Ownable], modelled
    after the library. The owner hands the contract over to the zero
    address. *)
Definition renounceOwnership (s : Storage) (msg_sender : address)
    : Res Storage :=
  do _ <- onlyOwner s msg_sender;
  Ok (set_owner s 0).

(** The loop of [register] that sums the keys:
    [for (i = 1; i < numPlayers[gameId]; i++)
       aggregatedPk = pointAdd(aggregatedPk, playerPk[2 * i], playerPk[2 * i + 1])]. *)
Definition aggregate_step (playerPk : list Z) (agg : Z * Z) (i : Z) : Res (Z * Z) :=
  do i2 <- checked_mul 2 i;
  do x <- at_dyn 0 playerPk i2;
  do i21 <- checked_add i2 1;
  do y <- at_dyn 0 playerPk i21;
  Ok (pointAdd agg.1 agg.2 x y).

Definition aggregate_loop (playerPk : list Z) (n : Z) (agg : Z * Z) : Res (Z * Z) :=
  foldM (aggregate_step playerPk) agg (seqZ 1 (n - 1)).

(** [register(permanentAccount, pk, gameId)]. *)
Definition register (s : Storage) (msg_sender permanentAccount : address)
    (pk : Z * Z) (gameId : Z) : Res Storage :=
  do _ <- onlyGameContract s msg_sender;
  do _ <- require (bool_decide (state_of s gameId = Registration)) InvalidState;
  do _ <- require (isOnCurve pk.1 pk.2) InvalidPublicKey;
  let info := playerInfo_of s gameId in
  let info :=
    mkPlayerInfo (playerAddr info ++ [permanentAccount])
      (playerPk info ++ [pk.1; pk.2]) (aggregatedPk info) in
  let s := set_playerInfo s gameId info in
  do idx <- checked_add (playerIndex_of s gameId) 1;
  let s := set_playerIndex s gameId idx in
  if idx =? numPlayers_of s gameId then
    let s := set_state s gameId ShufflingDeck in
    let s := set_playerIndex s gameId 0 in
    do pk0 <- at_dyn 0 (playerPk info) 0;
    do pk1 <- at_dyn 0 (playerPk info) 1;
    do agg <- aggregate_loop (playerPk info) (numPlayers_of s gameId) (pk0, pk1);
    let s :=
      set_playerInfo s gameId
        (mkPlayerInfo (playerAddr info) (playerPk info) agg) in
    Ok (initDeck s gameId)
  else Ok s.

(** [prepareShuffleData]: the 215 public signals of a shuffle. *)
Definition prepareShuffleData (s : Storage) (nonce : Z)
    (shuffledX0 shuffledX1 : list Z) (selector : Z * Z) (gameId : Z) : list Z :=
  let info := playerInfo_of s gameId in
  let deck := deck_of s gameId in
  let input := replicate 215 0 in
  let input := <[0%nat := nonce]> input in
  let input := <[1%nat := (aggregatedPk info).1]> input in
  let input := <[2%nat := (aggregatedPk info).2]> input in
  let input :=
    foldl (fun input i =>
             let input := <[(i + 3)%nat := nth i (X0 deck) 0]> input in
             let input := <[(i + 55)%nat := nth i (X1 deck) 0]> input in
             let input := <[(i + 107)%nat := nth i shuffledX0 0]> input in
             <[(i + 159)%nat := nth i shuffledX1 0]> input)
      input (seq 0 52) in
  let input := <[211%nat := (Selector deck).1]> input in
  let input := <[212%nat := (Selector deck).2]> input in
  let input := <[213%nat := selector.1]> input in
  <[214%nat := selector.2]> input.

(** [updateDeck]: slot by slot, then the selectors. *)
Definition updateDeck (s : Storage) (shuffledX0 shuffledX1 : list Z)
    (selector : Z * Z) (gameId : Z) : Storage :=
  let deck :=
    foldl (fun d i =>
             mkDeck (<[i := nth i shuffledX0 0]> (X0 d))
                    (<[i := nth i shuffledX1 0]> (X1 d)) (Selector d))
      (deck_of s gameId) (seq 0 52) in
  set_deck s gameId (mkDeck (X0 deck) (X1 deck) selector).

(** [shuffle(permanentAccount, proof, nonce, shuffledX0, shuffledX1,
    selector, gameId)]. *)
Definition shuffle (s : Storage) (msg_sender permanentAccount : address)
    (proof : list Z) (nonce : Z) (shuffledX0 shuffledX1 : list Z)
    (selector : Z * Z) (gameId : Z) : Res Storage :=
  do _ <- onlyGameContract s msg_sender;
  do _ <- require (bool_decide (state_of s gameId = ShufflingDeck)) InvalidState;
  do turn <- at_dyn 0 (playerAddr (playerInfo_of s gameId)) (playerIndex_of s gameId);
  do _ <- require (permanentAccount =? turn) NotYourTurn;
  do _ <- require
            (shuffleEncryptVerifier proof
               (prepareShuffleData s nonce shuffledX0 shuffledX1 selector gameId))
            ProofFailed;
  let s := updateDeck s shuffledX0 shuffledX1 selector gameId in
  do idx <- checked_add (playerIndex_of s gameId) 1;
  let s := set_playerIndex s gameId idx in
  if idx =? numPlayers_of s gameId then
    let s := set_state s gameId DealingCard in
    Ok (set_playerIndex s gameId 0)
  else Ok s.

(** [decompressEC(x, delta, selector)]. *)
Definition decompressEC (x delta selector : Z) : Res Z :=
  do _ <- require
            (delta <=?
             10944121435919637611123202872628637544274182200208017171849102093287904247808)
            IllFormedDelta;
  do _ <- require (isOnCurve x delta) NotOnCurve;
  do _ <- require ((selector =? 0) || (selector =? 1)) IllFormedSelector;
  if selector =? 1 then Ok delta else checked_sub Q delta.

(** [decompressCard(cardIdx, delta, gameId)]. *)
Definition decompressCard (s : Storage) (cardIdx : Z) (delta : Z * Z)
    (gameId : Z) : Res (Z * Z) :=
  let deck := deck_of s gameId in
  let flag0 := shr (Z.land (Selector deck).1 (shl 1 cardIdx)) cardIdx in
  let flag1 := shr (Z.land (Selector deck).2 (shl 1 cardIdx)) cardIdx in
  do x0 <- at52 0 (X0 deck) cardIdx;
  do y0 <- decompressEC x0 delta.1 flag0;
  do x1 <- at52 0 (X1 deck) cardIdx;
  do y1 <- decompressEC x1 delta.2 flag1;
  Ok (y0, y1).

(** [deal], up to the call of the verifier: the guards, the first
    decompression of the card into [cardDeals], and the eight public signals
    read back from storage. *)
Definition deal_before_verifier (s : Storage) (msg_sender permanentAccount : address)
    (cardIdx curPlayerIdx : Z) (decryptedCard initDelta : Z * Z) (gameId : Z)
    : Res (list Z * Storage) :=
  do _ <- inDealingPhase s gameId;
  do _ <- onlyGameContract s msg_sender;
  let info := playerInfo_of s gameId in
  do player <- at_dyn 0 (playerAddr info) curPlayerIdx;
  do _ <- require (player =? permanentAccount) NotRecognizedPlayer;
  do rec <- at52 0 (record (cardDeal_of s gameId)) cardIdx;
  do _ <- require (Z.land rec (shl 1 curPlayerIdx) =? 0) DoubleDeal;
  do s <-
    (if rec =? 0 then
       do Y <- decompressCard s cardIdx initDelta gameId;
       do x0 <- at52 0 (X0 (deck_of s gameId)) cardIdx;
       do x1 <- at52 0 (X1 (deck_of s gameId)) cardIdx;
       let cd := cardDeal_of s gameId in
       Ok (set_cardDeal s gameId
             (mkCardDeal (set52 (cards cd) cardIdx (Card.mk x0 Y.1 x1 Y.2))
                (record cd)))
     else Ok s);
  do card <- at52 Card.zero (cards (cardDeal_of s gameId)) cardIdx;
  do j2 <- checked_mul 2 curPlayerIdx;
  do pkx <- at_dyn 0 (playerPk info) j2;
  do j21 <- checked_add j2 1;
  do pky <- at_dyn 0 (playerPk info) j21;
  Ok ([decryptedCard.1; decryptedCard.2; Card.X0 card; Card.Y0 card;
       Card.X1 card; Card.Y1 card; pkx; pky], s).

(** [deal], after the verifier accepted: the share replaces [(X1, Y1)] of
    the card and the player's bit is set in [record]. *)
Definition deal_after_verifier (s : Storage) (cardIdx curPlayerIdx : Z)
    (decryptedCard : Z * Z) (gameId : Z) : Res Storage :=
  let cd := cardDeal_of s gameId in
  do card <- at52 Card.zero (cards cd) cardIdx;
  do rec <- at52 0 (record cd) cardIdx;
  let card := Card.mk (Card.X0 card) (Card.Y0 card) decryptedCard.1 decryptedCard.2 in
  Ok (set_cardDeal s gameId
        (mkCardDeal (set52 (cards cd) cardIdx card)
           (set52 (record cd) cardIdx (Z.lor rec (shl 1 curPlayerIdx))))).

(** [deal(permanentAccount, cardIdx, curPlayerIdx, proof, decryptedCard,
    initDelta, gameId)]. *)
Definition deal (s : Storage) (msg_sender permanentAccount : address)
    (cardIdx curPlayerIdx : Z) (proof : list Z) (decryptedCard initDelta : Z * Z)
    (gameId : Z) : Res Storage :=
  do r <- deal_before_verifier s msg_sender permanentAccount cardIdx
            curPlayerIdx decryptedCard initDelta gameId;
  do _ <- require (decryptVerifier proof r.1) ProofFailed;
  deal_after_verifier r.2 cardIdx curPlayerIdx decryptedCard gameId.

Definition INVALID_CARD_INDEX : Z := 999999.

(** The loop of [search]: [for (i = 0; i < 52; i++)
    if (initialDeck.X1[i] == X1) return i], here from [i] with [n] slots to go. *)
Fixpoint search_loop (deckX1 : list Z) (X1 : Z) (i n : nat) : Z :=
  match n with
  | O => INVALID_CARD_INDEX
  | S n' =>
      if nth i deckX1 0 =? X1 then Z.of_nat i
      else search_loop deckX1 X1 (S i) n'
  end.

(** [search(cardIndex, gameId)]. *)
Definition search (s : Storage) (cardIndex gameId : Z) : Res Z :=
  let cd := cardDeal_of s gameId in
  do rec <- at52 0 (record cd) cardIndex;
  do full <- checked_sub (shl 1 (numPlayers_of s gameId)) 1;
  do _ <- require (rec =? full) CardNotFullyDecrypted;
  do card <- at52 Card.zero (cards cd) cardIndex;
  Ok (search_loop (X1 (initialDeck s)) (Card.X1 card) 0 52).

(** *** The views *)

(** [queryAggregatedPk(gameId)]. Its only [require] is
    [states[gameId] != State.Registration]; [None] is the revert
    "aggregated pk is not ready". *)
Definition queryAggregatedPk (s : Storage) (gameId : Z) : option (Z * Z) :=
  if bool_decide (state_of s gameId <> Registration)
  then Some (aggregatedPk (playerInfo_of s gameId))
  else None.

(** [queryDeck(gameId)]; [None] is the revert "deck is not ready". *)
Definition queryDeck (s : Storage) (gameId : Z) : option Deck :=
  if bool_decide (state_of s gameId <> Registration)
  then Some (deck_of s gameId)
  else None.

(** [queryCardFromDeck(index, gameId)]: the four words
    [X0[index], X1[index], Selector[0], Selector[1]]. *)
Definition queryCardFromDeck (s : Storage) (index gameId : Z) : Res (list Z) :=
  do _ <- inDealingPhase s gameId;
  let deck := deck_of s gameId in
  do x0 <- at52 0 (X0 deck) index;
  do x1 <- at52 0 (X1 deck) index;
  Ok [x0; x1; (Selector deck).1; (Selector deck).2].

(** [queryCardInDeal(index, gameId)]: the four words [X0, Y0, X1, Y1] of
    [cardDeals[gameId].cards[index]]. *)
Definition queryCardInDeal (s : Storage) (index gameId : Z) : Res (list Z) :=
  do _ <- inDealingPhase s gameId;
  do card <- at52 Card.zero (cards (cardDeal_of s gameId)) index;
  Ok [Card.X0 card; Card.Y0 card; Card.X1 card; Card.Y1 card].

(** A transaction is atomic: when the call reverts, every write it made is
    undone and the storage is the one before the call. *)
Definition transact (call : Storage -> Res Storage) (s : Storage)
    : Storage * option Error :=
  match call s with
  | Ok s' => (s', None)
  | Revert e => (s, Some e)
  end.

End Contract.

(** *** The calls of the contract as labelled steps *)

(** The external functions that write the storage: those of [shuffle.sol],
    and [transferOwnership] and [renounceOwnership], which [Shuffle] inherits
    from [Ownable]. *)
Inductive Call : Type :=
| CallSetGameSettings (numPlayers_ gameId : Z)
| CallSetGameContract (gameContract_ : address)
| CallTransferOwnership (newOwner : address)
| CallRenounceOwnership
| CallRegister (permanentAccount : address) (pk : Z * Z) (gameId : Z)
| CallShuffle (permanentAccount : address) (proof : list Z) (nonce : Z)
    (shuffledX0 shuffledX1 : list Z) (selector : Z * Z) (gameId : Z)
| CallDeal (permanentAccount : address) (cardIdx curPlayerIdx : Z)
    (proof : list Z) (decryptedCard initDelta : Z * Z) (gameId : Z).

Section Steps.

Variable shuffleEncryptVerifier : list Z -> list Z -> bool.
Variable decryptVerifier : list Z -> list Z -> bool.

Definition exec (msg_sender : address) (c : Call) (s : Storage) : Res Storage :=
  match c with
  | CallSetGameSettings n gameId => setGameSettings s msg_sender n gameId
  | CallSetGameContract g => setGameContract s msg_sender g
  | CallTransferOwnership o => transferOwnership s msg_sender o
  | CallRenounceOwnership => renounceOwnership s msg_sender
  | CallRegister a pk gameId => register s msg_sender a pk gameId
  | CallShuffle a proof nonce x0 x1 sel gameId =>
      shuffle shuffleEncryptVerifier s msg_sender a proof nonce x0 x1 sel gameId
  | CallDeal a cardIdx j proof share delta gameId =>
      deal decryptVerifier s msg_sender a cardIdx j proof share delta gameId
  end.

(** One transaction: the storage after it and the error it reverted with. *)
Definition step (msg_sender : address) (c : Call) (s : Storage)
    : Storage * option Error :=
  transact (exec msg_sender c) s.

(** The storages a deployment can be in: the fresh one, and every storage a
    transaction leaves behind, whoever sends it and whatever it carries. *)
Inductive reachable (deployer : address) : Storage -> Prop :=
| reachable_deployed : reachable deployer (deployed deployer)
| reachable_step s msg_sender c :
    reachable deployer s -> reachable deployer (step msg_sender c s).1.

End Steps.

(** What the theorems on [shuffle], [deal] and [register] assume of a storage:
    the arrays of a deck and of a deal have their 52 slots, every registered
    player has an address and a key, and while a game is shuffling its turn
    index names a registered player. *)
Definition well_formed_game (s : Storage) (gameId : Z) : Prop :=
  length (X0 (deck_of s gameId)) = 52%nat /\
  length (X1 (deck_of s gameId)) = 52%nat /\
  length (cards (cardDeal_of s gameId)) = 52%nat /\
  length (record (cardDeal_of s gameId)) = 52%nat /\
  length (playerPk (playerInfo_of s gameId))
    = (2 * length (playerAddr (playerInfo_of s gameId)))%nat /\
  (state_of s gameId = Registration ->
     0 <= playerIndex_of s gameId
       <= Z.of_nat (length (playerAddr (playerInfo_of s gameId)))) /\
  (state_of s gameId = ShufflingDeck ->
     0 <= playerIndex_of s gameId < numPlayers_of s gameId /\
     numPlayers_of s gameId
       <= Z.of_nat (length (playerAddr (playerInfo_of s gameId)))).

End Shuffle.

(** ** Words of the specification *)

Module Spec.
Import EVM CurveBabyJubJub Shuffle.

(** [point_add(P1, P2)] on points. *)
Definition point_add (P1 P2 : Z * Z) : Z * Z := pointAdd P1.1 P1.2 P2.1 P2.2.

(** The public keys of the registered players, in order of registration:
    [playerPk] holds them flat, [x] then [y]. *)
Fixpoint keys (playerPk : list Z) : list (Z * Z) :=
  match playerPk with
  | x :: y :: rest => (x, y) :: keys rest
  | _ => []
  end.

(** The sum of the keys by [point_add], folded from the left, starting from
    the identity [(0, 0)]. *)
Definition sum_keys (ks : list (Z * Z)) : Z * Z := foldl point_add (0, 0) ks.

(** The fixed initial deck of 52 cards. *)
Definition X1_table : list Z := X1_assignments.*2.

Definition initial_deck : Deck :=
  mkDeck (replicate 52 0) X1_table (4503599627370495, 3075935501959818).

(** The binary digits of a scalar, least significant first. *)
Fixpoint digits_pos (p : positive) : list bool :=
  match p with
  | xH => [true]
  | xO p' => false :: digits_pos p'
  | xI p' => true :: digits_pos p'
  end.

Definition digits (s : Z) : list bool :=
  match s with
  | Zpos p => digits_pos p
  | _ => []
  end.

(** Double-and-add from the least significant digit: the accumulator takes
    the current multiple of the point at every digit that is set, and the
    point doubles at every digit. *)
Fixpoint double_and_add (ds : list bool) (P acc : Z * Z) : Z * Z :=
  match ds with
  | [] => acc
  | d :: ds' =>
      double_and_add ds' (point_add P P) (if d then point_add acc P else acc)
  end.

(** The spec's [neg]. The source has no negation of a point; on a twisted
    Edwards curve the opposite of [(x, y)] is [(-x, y)], and [-x] is taken in
    [[0, Q)] here. *)
Definition neg (P : Z * Z) : Z * Z := ((Q - P.1) mod Q, P.2).

End Spec.

(** ** Words of the further properties *)

Module Games.
Import EVM CurveBabyJubJub Shuffle Spec.

(** Congruence modulo [Q]. *)
Definition cong (a b : Z) : Prop := a mod Q = b mod Q.

(** A square root of [A] modulo [Q]. *)
Definition sqrtA : Z :=
  7214280148105020021932206872019688659210616427216992810330019057549499971851.

(** The game a call is about. *)
Definition game_of (c : Call) : option Z :=
  match c with
  | CallSetGameSettings _ gameId => Some gameId
  | CallRegister _ _ gameId => Some gameId
  | CallShuffle _ _ _ _ _ _ gameId => Some gameId
  | CallDeal _ _ _ _ _ _ gameId => Some gameId
  | CallSetGameContract _ | CallTransferOwnership _
  | CallRenounceOwnership => None
  end.

(** All the contract holds of one game. *)
Definition game_view (s : Storage) (gameId : Z)
    : State * Z * Z * Deck * CardDeal * PlayerInfo :=
  (state_of s gameId, playerIndex_of s gameId, numPlayers_of s gameId,
   deck_of s gameId, cardDeal_of s gameId, playerInfo_of s gameId).

(** Every key of a game is a point of the curve, and so is the aggregated
    key of a game that is shuffling or dealing. *)
Definition valid_keys (s : Storage) (gameId : Z) : Prop :=
  let info := playerInfo_of s gameId in
  (forall i : nat, (2 * i + 1 < length (playerPk info))%nat ->
     isOnCurve (nth (2 * i) (playerPk info) 0)
               (nth (2 * i + 1) (playerPk info) 0) = true) /\
  (state_of s gameId = ShufflingDeck \/ state_of s gameId = DealingCard ->
     isOnCurve (aggregatedPk info).1 (aggregatedPk info).2 = true).

(** The errors each call can revert with. *)
Definition errors_of (c : Call) : list Error :=
  match c with
  | CallSetGameSettings _ _ => [NotGameContract]
  | CallSetGameContract _ | CallRenounceOwnership => [NotOwner]
  | CallTransferOwnership _ => [NotOwner; ZeroAddressOwner]
  | CallRegister _ _ _ =>
      [NotGameContract; InvalidState; InvalidPublicKey; Panic]
  | CallShuffle _ _ _ _ _ _ _ =>
      [NotGameContract; InvalidState; Panic; NotYourTurn; ProofFailed]
  | CallDeal _ _ _ _ _ _ _ =>
      [InvalidState; NotGameContract; Panic; NotRecognizedPlayer; DoubleDeal;
       IllFormedDelta; NotOnCurve; ProofFailed]
  end.

(** The public signals of a shuffle, as one list. *)
Definition shuffle_signals (nonce : Z) (agg : Z * Z) (deck : Deck)
    (shuffledX0 shuffledX1 : list Z) (selector : Z * Z) : list Z :=
  [nonce; agg.1; agg.2]
  ++ X0 deck ++ X1 deck ++ shuffledX0 ++ shuffledX1
  ++ [(Selector deck).1; (Selector deck).2; selector.1; selector.2].

(** A sequence of calls by one sender, up to the first that reverts. *)
Definition run_calls
    (shuffleEncryptVerifier decryptVerifier : list Z -> list Z -> bool)
    (msg_sender : address) (calls : list Call) (s : Storage) : Res Storage :=
  foldM (fun s c => exec shuffleEncryptVerifier decryptVerifier msg_sender c s)
    s calls.

(** The keys of a list of registrations, flat as [playerPk] holds them. *)
Definition flat_keys (regs : list (address * (Z * Z))) : list Z :=
  flat_map (fun r => [r.2.1; r.2.2]) regs.

(** One submission of a shuffle. *)
Record Submission : Type := mkSubmission {
  sub_account : address;
  sub_proof : list Z;
  sub_nonce : Z;
  sub_X0 : list Z;
  sub_X1 : list Z;
  sub_selector : Z * Z
}.

Definition sub_deck (sub : Submission) : Deck :=
  mkDeck (sub_X0 sub) (sub_X1 sub) (sub_selector sub).

Definition shuffle_call (gameId : Z) (sub : Submission) : Call :=
  CallShuffle (sub_account sub) (sub_proof sub) (sub_nonce sub) (sub_X0 sub)
    (sub_X1 sub) (sub_selector sub) gameId.

(** Every submission has 52 slots and a proof the verifier accepts against
    the deck before it: the deck in storage for the first, the deck of the
    submission before for the others. *)
Fixpoint proved_in_chain (verifier : list Z -> list Z -> bool) (agg : Z * Z)
    (deck : Deck) (subs : list Submission) : Prop :=
  match subs with
  | [] => True
  | sub :: subs' =>
      length (sub_X0 sub) = 52%nat /\ length (sub_X1 sub) = 52%nat /\
      verifier (sub_proof sub)
        (shuffle_signals (sub_nonce sub) agg deck (sub_X0 sub) (sub_X1 sub)
           (sub_selector sub)) = true /\
      proved_in_chain verifier agg (sub_deck sub) subs'
  end.

(** One submission of a deal. *)
Record DealSubmission : Type := mkDealSubmission {
  deal_account : address;
  deal_proof : list Z;
  deal_share : Z * Z;
  deal_delta : Z * Z
}.

(** The deals of one card by the players [k], [k + 1], ... in turn. *)
Fixpoint deal_calls (gameId cardIdx : Z) (k : nat) (ds : list DealSubmission)
    : list Call :=
  match ds with
  | [] => []
  | d :: ds' =>
      CallDeal (deal_account d) cardIdx (Z.of_nat k) (deal_proof d) (deal_share d)
        (deal_delta d) gameId
      :: deal_calls gameId cardIdx (S k) ds'
  end.

(** Every deal has a proof the verifier accepts against the card as the
    deal before left it: [(x0, y0)] from the first decompression, the share
    of the deal before as [(X1, Y1)], and the key of the player. *)
Fixpoint deals_proved (verifier : list Z -> list Z -> bool) (x0 y0 : Z)
    (prev : Z * Z) (pks : list Z) (k : nat) (ds : list DealSubmission) : Prop :=
  match ds with
  | [] => True
  | d :: ds' =>
      verifier (deal_proof d)
        [(deal_share d).1; (deal_share d).2; x0; y0; prev.1; prev.2;
         nth (2 * k) pks 0; nth (2 * k + 1) pks 0] = true /\
      deals_proved verifier x0 y0 (deal_share d) pks (S k) ds'
  end.

End Games.

(** ** Primality certificates *)

(** The inverse of the library is a Fermat inverse, so its correctness rests
    on [Q] being prime. [Q] has 254 bits: its primality is checked from
    Pocklington certificates, whose modular powers run on machine words. *)
Module Primality.

(** [a ^ m mod n] by square and multiply on [bigN]. *)
Fixpoint fpow (a : bigN) (m : positive) (n : bigN) : bigN :=
  match m with
  | xH => BigN.modulo a n
  | xO m' =>
      let z := fpow a m' n in
      BigN.modulo (BigN.mul z z) n
  | xI m' =>
      let z := fpow a m' n in
      BigN.modulo (BigN.mul (BigN.modulo (BigN.mul z z) n) a) n
  end.

Definition modpow (a e n : Z) : Z :=
  match e with
  | Zpos m => BigN.to_Z (fpow (BigN.of_N (Z.to_N a)) m (BigN.of_N (Z.to_N n)))
  | _ => 1 mod n
  end.

(** No [m] in [[d, d + k)] divides [n]. *)
Fixpoint no_divisor (n d : Z) (k : nat) : bool :=
  match k with
  | O => true
  | S k' => negb (n mod d =? 0) && no_divisor n (d + 1) k'
  end.

(** Trial division by [2, ..., k + 1], enough when [n < (k + 2)^2]. *)
Definition trial_prime (n : Z) (k : nat) : bool :=
  (1 <? n) && (n <? (Z.of_nat k + 2) * (Z.of_nat k + 2)) && no_divisor n 2 k.

Fixpoint prod_powers (fs : list (Z * Z)) : Z :=
  match fs with
  | [] => 1
  | qe :: fs' => qe.1 ^ qe.2 * prod_powers fs'
  end.

Fixpoint coprime_powers (fs : list (Z * Z)) : bool :=
  match fs with
  | [] => true
  | qe :: fs' =>
      (Z.gcd (qe.1 ^ qe.2) (prod_powers fs') =? 1) && coprime_powers fs'
  end.

Definition pock_factor_ok (N a : Z) (qe : Z * Z) : bool :=
  (0 <? qe.2) && ((N - 1) mod (qe.1 ^ qe.2) =? 0)
  && (Z.gcd (modpow a ((N - 1) / qe.1) N - 1) N =? 1).

(** Pocklington's test of [N] with the witness [a] and the prime powers
    [fs] of a factor [F] of [N - 1] with [N < F * F]. *)
Definition pock_check (N a : Z) (fs : list (Z * Z)) : bool :=
  (1 <? N) && (0 <=? a) && (modpow a (N - 1) N =? 1)
  && forallb (pock_factor_ok N a) fs
  && coprime_powers fs
  && (0 <? prod_powers fs) && (N <? prod_powers fs * prod_powers fs).

End Primality.

(** ** A game played on concrete values *)

Module Scenario.
Import EVM CurveBabyJubJub Shuffle.

(** Two verifiers to run the contract with: one accepts every proof, one
    rejects every proof. *)
Definition accept (proof signals : list Z) : bool := true.
Definition reject (proof signals : list Z) : bool := false.

Definition run (verifier : list Z -> list Z -> bool)
    (calls : list (address * Call)) (s : Storage) : Storage :=
  foldl (fun s c => (step verifier verifier c.1 c.2 s).1) s calls.

(** Account 1 deploys and names account 2 the game contract, which opens
    game 1 for two players; account 10 registers with the key [(0, 1)]. No
    proof is involved so far, whatever the verifiers. *)
Definition in_registration : Storage :=
  run reject
    [(1, CallSetGameContract 2); (2, CallSetGameSettings 2 1);
     (2, CallRegister 10 (0, 1) 1)]
    (deployed 1).

(** Account 11 registers with the key [(0, 1)]: the game turns to shuffling. *)
Definition in_shuffle : Storage :=
  run reject [(2, CallRegister 11 (0, 1) 1)] in_registration.

Definition shuffled : list Z := replicate 52 0.

(** Both players shuffle: the game turns to dealing. *)
Definition in_deal : Storage :=
  run accept
    [(2, CallShuffle 10 [] 0 shuffled shuffled (0, 0) 1);
     (2, CallShuffle 11 [] 0 shuffled shuffled (0, 0) 1)]
    in_shuffle.

(** Both players deal card 0. *)
Definition dealt : Storage :=
  run accept
    [(2, CallDeal 10 0 0 [] (5, 6) (1, 1) 1);
     (2, CallDeal 11 0 1 [] (7, 8) (0, 0) 1)]
    in_deal.

(** The generator [Base8] of the subgroup the keys live in. *)
Definition Base8 : Z * Z :=
  (5299619240641551281634865583518297030282874472190772894086521144482721001553,
   16950150798460657717958625567821834550301663161624707787222815936182638968203).

(** Account 1 deploys and names account 2 the game contract. *)
Definition fresh : Storage := run reject [(1, CallSetGameContract 2)] (deployed 1).

(** Game 3 is opened for no player at all. *)
Definition no_players : Storage := run reject [(2, CallSetGameSettings 0 3)] fresh.

(** Player 0 deals card 0 of game 1. *)
Definition dealt_once : Storage :=
  run accept [(2, CallDeal 10 0 0 [] (5, 6) (1, 1) 1)] in_deal.

(** Game 0, for one player, who registers, shuffles and deals card 0 with a
    share whose [X] is entry 3 of the literal table. *)
Definition game_0_dealt : Storage :=
  run accept
    [(2, CallSetGameSettings 1 0);
     (2, CallRegister 10 (0, 1) 0);
     (2, CallShuffle 10 [] 0 shuffled shuffled (0, 0) 0);
     (2, CallDeal 10 0 0 []
           (12252886604826192316928789929706397349846234911198931249025449955069330867144, 0)
           (1, 1) 0)]
    fresh.

(** The calls of one game of one player, who registers, shuffles and deals
    card 0; the share of the deal is [Base8], whose [x] is entry 0 of the
    literal table. *)
Definition one_player_game (gameId : Z) : list (address * Call) :=
  [(2, CallSetGameSettings 1 gameId);
   (2, CallRegister 10 (0, 1) gameId);
   (2, CallShuffle 10 [] 0 shuffled shuffled (0, 0) gameId);
   (2, CallDeal 10 0 0 [] Base8 (1, 1) gameId)].

(** Game 1 played on the fresh deployment: game 0 was never registered. *)
Definition game_1_dealt : Storage := run accept (one_player_game 1) fresh.

(** Game 1 played after a registration of game 0 has closed. *)
Definition game_1_after_game_0 : Storage :=
  run accept
    ((2, CallSetGameSettings 1 0) :: (2, CallRegister 10 (0, 1) 0)
     :: one_player_game 1)
    fresh.

End Scenario.

(** * Properties *)

Import EVM CurveBabyJubJub Shuffle Spec Primality.

(** ** Reverts and guards *)

Lemma bind_Ok {T U : Type} (m : Res T) (k : T -> Res U) (u : U) :
  bind m k = Ok u -> exists v, m = Ok v /\ k v = Ok u.
Proof. destruct m as [v|e]; simpl; [eauto | discriminate]. Qed.

Lemma transact_revert (call : Storage -> Res Storage) (s : Storage) (e : Error) :
  call s = Revert e -> transact call s = (s, Some e).
Proof. unfold transact. intros ->. reflexivity. Qed.

Lemma at52_in_range {T : Type} (d : T) (a : list T) (i : Z) :
  0 <= i < 52 -> at52 d a i = Ok (nth (Z.to_nat i) a d).
Proof.
  intros Hi. unfold at52.
  destruct (Z.leb_spec 0 i); [|lia]. destruct (Z.ltb_spec i 52); [|lia].
  reflexivity.
Qed.

Lemma at_dyn_in_range {T : Type} (d : T) (a : list T) (i : Z) :
  0 <= i < Z.of_nat (length a) -> at_dyn d a i = Ok (nth (Z.to_nat i) a d).
Proof.
  intros Hi. unfold at_dyn.
  destruct (Z.leb_spec 0 i); [|lia].
  destruct (Z.ltb_spec i (Z.of_nat (length a))); [|lia].
  reflexivity.
Qed.

(** ** C10: the identity of the library is not a valid public key *)

(** C10. For every point [(x, y)], [pointMul(x, y, 0)] returns [(0, 0)];
    [isOnCurve(0, 0)] is false; so [register] rejects the key [(0, 0)] that
    [pointAdd] and [pointMul] use as identity with [InvalidPublicKey], in
    every game that is open for registration, and the storage is untouched. *)
Theorem identity_point_is_rejected_by_register :
  (forall x y : Z, pointMul x y 0 = Some (0, 0)) /\
  isOnCurve 0 0 = false /\
  (forall (s : Storage) (permanentAccount : address) (gameId : Z),
      state_of s gameId = Registration ->
      register s (gameContract s) permanentAccount (0, 0) gameId
        = Revert InvalidPublicKey /\
      transact (fun s => register s (gameContract s) permanentAccount (0, 0) gameId) s
        = (s, Some InvalidPublicKey)).
Proof.
  split; [reflexivity|]. split; [vm_compute; reflexivity|].
  intros s acct gid Hst.
  assert (Hreg : register s (gameContract s) acct (0, 0) gid = Revert InvalidPublicKey).
  { unfold register, onlyGameContract. rewrite Z.eqb_refl. simpl.
    rewrite Hst. reflexivity. }
  split; [exact Hreg|]. apply transact_revert. exact Hreg.
Qed.

(** ** C8: decompression of a point *)

(** C8. [decompressEC(x, delta, sel)] fails with [IllFormedDelta] when
    [delta > (Q - 1) / 2]; fails when [(x, delta)] is not on the curve, with
    [NotOnCurve] if [delta] passed the check before; fails with
    [IllFormedSelector] when the two checks before pass and [sel] is neither
    0 nor 1; and otherwise returns [delta] for [sel = 1] and [Q - delta] for
    [sel = 0]. *)
Theorem decompressEC_spec (x delta sel : Z) :
  (delta > (Q - 1) / 2 -> decompressEC x delta sel = Revert IllFormedDelta) /\
  (isOnCurve x delta = false ->
     (exists e, decompressEC x delta sel = Revert e) /\
     (delta <= (Q - 1) / 2 -> decompressEC x delta sel = Revert NotOnCurve)) /\
  (0 <= delta <= (Q - 1) / 2 -> isOnCurve x delta = true ->
     (sel <> 0 -> sel <> 1 -> decompressEC x delta sel = Revert IllFormedSelector) /\
     (sel = 1 -> decompressEC x delta sel = Ok delta) /\
     (sel = 0 -> decompressEC x delta sel = Ok (Q - delta))).
Proof.
  change ((Q - 1) / 2) with
    10944121435919637611123202872628637544274182200208017171849102093287904247808.
  unfold decompressEC.
  split; [|split].
  - intros Hd. destruct (Z.leb_spec delta
      10944121435919637611123202872628637544274182200208017171849102093287904247808);
      [lia | reflexivity].
  - intros Hc. split.
    + destruct (_ <=? _); cbn [require bind]; [|eauto]. rewrite Hc. eauto.
    + intros Hd. apply Z.leb_le in Hd. rewrite Hd, Hc. reflexivity.
  - intros [Hd0 Hd] Hc. pose proof Hd as Hle. apply Z.leb_le in Hle.
    rewrite Hle, Hc. cbn [require bind]. repeat split.
    + intros Hs0 Hs1.
      destruct (Z.eqb_spec sel 0); [lia|]. destruct (Z.eqb_spec sel 1); [lia|].
      reflexivity.
    + intros ->. reflexivity.
    + intros ->. cbn [Z.eqb orb require bind]. unfold checked_sub.
      destruct (Z.leb_spec delta Q); [reflexivity|]. unfold Q in *. lia.
Qed.

(** ** C1: a rejected proof changes nothing *)

(** C1. A [shuffle] or [deal] submission that reaches the external verifier
    and whose proof the verifier rejects fails with [ProofFailed], and the
    storage after the transaction is the storage before it: state, turn index,
    deck and deal records of every game are what they were. *)
Theorem rejected_proof_changes_nothing
    (shuffleEncryptVerifier decryptVerifier : list Z -> list Z -> bool) :
  (forall (s : Storage) (permanentAccount : address) (proof : list Z) (nonce : Z)
          (shuffledX0 shuffledX1 : list Z) (selector : Z * Z) (gameId : Z),
      state_of s gameId = ShufflingDeck ->
      at_dyn 0 (playerAddr (playerInfo_of s gameId)) (playerIndex_of s gameId)
        = Ok permanentAccount ->
      shuffleEncryptVerifier proof
        (prepareShuffleData s nonce shuffledX0 shuffledX1 selector gameId) = false ->
      step shuffleEncryptVerifier decryptVerifier (gameContract s)
        (CallShuffle permanentAccount proof nonce shuffledX0 shuffledX1 selector gameId) s
        = (s, Some ProofFailed)) /\
  (forall (s : Storage) (msg_sender permanentAccount : address)
          (cardIdx curPlayerIdx : Z) (proof : list Z) (decryptedCard initDelta : Z * Z)
          (gameId : Z) (signals : list Z) (s1 : Storage),
      deal_before_verifier s msg_sender permanentAccount cardIdx curPlayerIdx
        decryptedCard initDelta gameId = Ok (signals, s1) ->
      decryptVerifier proof signals = false ->
      step shuffleEncryptVerifier decryptVerifier msg_sender
        (CallDeal permanentAccount cardIdx curPlayerIdx proof decryptedCard
           initDelta gameId) s
        = (s, Some ProofFailed)).
Proof.
  split.
  - intros s acct proof nonce x0 x1 sel gid Hst Hturn Hrej.
    apply transact_revert. simpl. unfold shuffle, onlyGameContract.
    rewrite Z.eqb_refl, Hst, Hturn. simpl.
    rewrite Z.eqb_refl, Hrej. reflexivity.
  - intros s sender acct i j proof share delta gid signals s1 Hpre Hrej.
    apply transact_revert. simpl. unfold deal.
    rewrite Hpre. simpl. rewrite Hrej. reflexivity.
Qed.

(** ** C7: looking a dealt card up *)

Lemma search_loop_none (deckX1 : list Z) (v : Z) (n i : nat) :
  (forall k, (i <= k < i + n)%nat -> nth k deckX1 0 <> v) ->
  search_loop deckX1 v i n = INVALID_CARD_INDEX.
Proof.
  revert i. induction n as [|n IH]; intros i Hno; simpl; [reflexivity|].
  destruct (Z.eqb_spec (nth i deckX1 0) v) as [E|_].
  - exfalso. apply (Hno i); [lia | exact E].
  - apply IH. intros k Hk. apply Hno. lia.
Qed.

Lemma search_loop_least (deckX1 : list Z) (v : Z) (n i k : nat) :
  (i <= k < i + n)%nat ->
  nth k deckX1 0 = v ->
  (forall j, (i <= j < k)%nat -> nth j deckX1 0 <> v) ->
  search_loop deckX1 v i n = Z.of_nat k.
Proof.
  revert i. induction n as [|n IH]; intros i Hk Hv Hleast; simpl; [lia|].
  destruct (Z.eqb_spec (nth i deckX1 0) v) as [E|NE].
  - destruct (Nat.eq_dec i k) as [->|Hne]; [reflexivity|].
    exfalso. apply (Hleast i); [lia | exact E].
  - apply IH; [|exact Hv|].
    + assert (i <> k) by (intros ->; contradiction). lia.
    + intros j Hj. apply Hleast. lia.
Qed.

Lemma shl_1_small (n : Z) : 0 <= n < 256 -> shl 1 n = Z.shiftl 1 n.
Proof.
  intros Hn. unfold shl. destruct (Z.leb_spec 256 n); [lia|].
  rewrite Z.shiftl_1_l. apply Z.mod_small. split; [apply Z.pow_nonneg; lia|].
  unfold WORD. apply Z.pow_lt_mono_r; lia.
Qed.

(** What [search] does, in terms of the storage variable [initialDeck] it
    reads. For a card index below 52 in a game of fewer than 256 players:
    [search] fails with [CardNotFullyDecrypted] unless [record[cardIndex]] is
    [(1 << numPlayers) - 1]; when it is, [search] returns the least [i] below
    52 with [initialDeck.X1[i]] equal to the [X1] of the card, and
    [INVALID_CARD_INDEX = 999999] when no slot matches. Whether [initialDeck]
    holds the initial deck is another matter: see
    [search_misses_the_initial_deck]. *)
Theorem search_spec (s : Storage) (cardIndex gameId : Z) :
  0 <= cardIndex < 52 ->
  0 <= numPlayers_of s gameId < 256 ->
  let rec := nth (Z.to_nat cardIndex) (record (cardDeal_of s gameId)) 0 in
  let cardX1 :=
    Card.X1 (nth (Z.to_nat cardIndex) (cards (cardDeal_of s gameId)) Card.zero) in
  let deckX1 := X1 (initialDeck s) in
  (rec <> Z.shiftl 1 (numPlayers_of s gameId) - 1 ->
     search s cardIndex gameId = Revert CardNotFullyDecrypted) /\
  (rec = Z.shiftl 1 (numPlayers_of s gameId) - 1 ->
     (forall i : nat, (i < 52)%nat -> nth i deckX1 0 = cardX1 ->
        (forall j : nat, (j < i)%nat -> nth j deckX1 0 <> cardX1) ->
        search s cardIndex gameId = Ok (Z.of_nat i)) /\
     ((forall i : nat, (i < 52)%nat -> nth i deckX1 0 <> cardX1) ->
        search s cardIndex gameId = Ok 999999)).
Proof.
  intros Hi Hn rec cardX1 deckX1.
  assert (Hpow : 0 < Z.shiftl 1 (numPlayers_of s gameId)).
  { rewrite Z.shiftl_1_l. apply Z.pow_pos_nonneg; lia. }
  assert (Hpre : search s cardIndex gameId =
                 (do _ <- require (rec =? Z.shiftl 1 (numPlayers_of s gameId) - 1)
                            CardNotFullyDecrypted;
                  Ok (search_loop deckX1 cardX1 0 52))).
  { unfold search. rewrite !at52_in_range by exact Hi. simpl.
    rewrite shl_1_small by exact Hn. unfold checked_sub.
    destruct (Z.leb_spec 1 (Z.shiftl 1 (numPlayers_of s gameId))); [|lia].
    reflexivity. }
  rewrite Hpre. split.
  - intros Hne. destruct (Z.eqb_spec rec (Z.shiftl 1 (numPlayers_of s gameId) - 1));
      [contradiction | reflexivity].
  - intros Heq. rewrite (proj2 (Z.eqb_eq _ _) Heq). unfold require, bind. split.
    + intros i Hi52 Hv Hleast. f_equal.
      apply search_loop_least; [lia | exact Hv | intros j Hj; apply Hleast; lia].
    + intros Hno. f_equal.
      apply search_loop_none. intros k Hk. apply Hno. lia.
Qed.

(** ** Reading the storage after a write *)

#[global] Arguments prepareShuffleData : simpl never.
#[global] Arguments updateDeck : simpl never.
#[global] Arguments initDeck_memory : simpl never.
#[global] Arguments search_loop : simpl never.

Lemma foldl_deck_X0 (f g : nat -> Z) (l : list nat) (d : Deck) :
  X0 (foldl (fun d i => mkDeck (<[i := f i]> (X0 d)) (<[i := g i]> (X1 d)) (Selector d)) d l)
  = foldl (fun a i => <[i := f i]> a) (X0 d) l.
Proof. revert d. induction l as [|i l IH]; intros d; simpl; [reflexivity|]. rewrite IH. reflexivity. Qed.

Lemma foldl_deck_X1 (f g : nat -> Z) (l : list nat) (d : Deck) :
  X1 (foldl (fun d i => mkDeck (<[i := f i]> (X0 d)) (<[i := g i]> (X1 d)) (Selector d)) d l)
  = foldl (fun a i => <[i := g i]> a) (X1 d) l.
Proof. revert d. induction l as [|i l IH]; intros d; simpl; [reflexivity|]. rewrite IH. reflexivity. Qed.

(** Copying [src] slot by slot over an array of the same length yields [src]. *)
Lemma foldl_copy_prefix (src a : list Z) (n : nat) :
  length a = length src -> (n <= length src)%nat ->
  foldl (fun a i => <[i := nth i src 0]> a) a (seq 0 n) = take n src ++ drop n a.
Proof.
  intros Hlen. induction n as [|n IH]; intros Hn.
  - simpl. rewrite drop_0. reflexivity.
  - rewrite seq_S, foldl_app, IH by lia. simpl.
    assert (Hn' : (n < length src)%nat) by lia.
    destruct (lookup_lt_is_Some_2 src n Hn') as [x Hx].
    rewrite (take_S_r _ _ _ Hx).
    rewrite (nth_lookup_Some _ _ 0 _ Hx).
    assert (Hna : (n < length a)%nat) by lia.
    destruct (lookup_lt_is_Some_2 a n Hna) as [y Hy].
    rewrite (drop_S _ _ _ Hy).
    rewrite insert_app_r_alt by (rewrite length_take; lia).
    rewrite length_take, Nat.min_l by lia. rewrite Nat.sub_diag. simpl.
    rewrite <- app_assoc. reflexivity.
Qed.

Lemma foldl_copy_all (src a : list Z) :
  length src = 52%nat -> length a = 52%nat ->
  foldl (fun a i => <[i := nth i src 0]> a) a (seq 0 52) = src.
Proof.
  intros Hs Ha. rewrite foldl_copy_prefix by lia.
  rewrite take_ge, drop_ge by lia. apply app_nil_r.
Qed.

Lemma updateDeck_deck (s : Storage) (x0 x1 : list Z) (sel : Z * Z) (gameId : Z) :
  length x0 = 52%nat -> length x1 = 52%nat ->
  length (X0 (deck_of s gameId)) = 52%nat ->
  length (X1 (deck_of s gameId)) = 52%nat ->
  deck_of (updateDeck s x0 x1 sel gameId) gameId = mkDeck x0 x1 sel.
Proof.
  intros H0 H1 Hd0 Hd1. unfold updateDeck.
  rewrite (foldl_deck_X0 (fun i => nth i x0 0) (fun i => nth i x1 0)).
  rewrite (foldl_deck_X1 (fun i => nth i x0 0) (fun i => nth i x1 0)).
  rewrite !foldl_copy_all by assumption.
  unfold deck_of, set_deck. simpl. rewrite lookup_insert_eq. reflexivity.
Qed.


Lemma require_Ok_inv (b : bool) (e : Error) (u : unit) : require b e = Ok u -> b = true.
Proof. destruct b; [reflexivity | discriminate]. Qed.

Lemma checked_add_Ok (a b v : Z) : checked_add a b = Ok v -> v = a + b /\ a + b < WORD.
Proof.
  unfold checked_add. destruct (Z.ltb_spec (a + b) WORD); [|discriminate].
  intros [= <-]. split; [reflexivity | assumption].
Qed.

(** Inversion of a successful sequence of binds. *)
Ltac inv_bind H :=
  repeat match type of H with
    | bind _ _ = Ok _ =>
        let v := fresh "v" in
        let Hv := fresh "Hv" in
        apply bind_Ok in H; destruct H as (v & Hv & H)
    end.

(** ** C3: a shuffle turn *)

(** What a successful [shuffle] went through and what it wrote. *)
Lemma shuffle_Ok_inv (shuffleEncryptVerifier : list Z -> list Z -> bool)
    (s s' : Storage) (msg_sender permanentAccount : address) (proof : list Z)
    (nonce : Z) (shuffledX0 shuffledX1 : list Z) (selector : Z * Z) (gameId : Z) :
  shuffle shuffleEncryptVerifier s msg_sender permanentAccount proof nonce
    shuffledX0 shuffledX1 selector gameId = Ok s' ->
  gameContract s = msg_sender /\
  state_of s gameId = ShufflingDeck /\
  at_dyn 0 (playerAddr (playerInfo_of s gameId)) (playerIndex_of s gameId)
    = Ok permanentAccount /\
  shuffleEncryptVerifier proof
    (prepareShuffleData s nonce shuffledX0 shuffledX1 selector gameId) = true /\
  let s1 := updateDeck s shuffledX0 shuffledX1 selector gameId in
  let idx := playerIndex_of s gameId + 1 in
  s' = if idx =? numPlayers_of s gameId
       then set_playerIndex (set_state (set_playerIndex s1 gameId idx) gameId DealingCard) gameId 0
       else set_playerIndex s1 gameId idx.
Proof.
  unfold shuffle, onlyGameContract. intros H. inv_bind H.
  apply require_Ok_inv in Hv, Hv0, Hv2, Hv3.
  apply Z.eqb_eq in Hv, Hv2. apply bool_decide_eq_true_1 in Hv0. subst v1.
  apply checked_add_Ok in Hv4 as [-> _].
  assert (Hidx : playerIndex_of (updateDeck s shuffledX0 shuffledX1 selector gameId) gameId
                 = playerIndex_of s gameId) by reflexivity.
  assert (Hn : forall t, numPlayers_of (set_playerIndex (updateDeck s shuffledX0 shuffledX1 selector gameId) gameId t) gameId
                 = numPlayers_of s gameId) by reflexivity.
  rewrite Hidx, Hn in H.
  repeat split; try assumption.
  cbv zeta. destruct (_ =? _); injection H as <-; rewrite ?Hidx; reflexivity.
Qed.

Lemma playerIndex_of_set (s : Storage) (gameId v : Z) :
  playerIndex_of (set_playerIndex s gameId v) gameId = v.
Proof. unfold playerIndex_of, set_playerIndex. simpl. rewrite lookup_insert_eq. reflexivity. Qed.

Lemma state_of_set (s : Storage) (gameId : Z) (v : State) :
  state_of (set_state s gameId v) gameId = v.
Proof. unfold state_of, set_state. simpl. rewrite lookup_insert_eq. reflexivity. Qed.

(** C3. [shuffle] succeeds only when the game is in state [ShufflingDeck] and
    the submitting account is [playerAddr[playerIndexes[gameId]]]; called by
    the game contract it fails with [InvalidState] in any other state and with
    [NotYourTurn] for any other account. On success the deck holds the
    submitted [X0], [X1] and selectors and the turn index is one more, except
    that when it reaches [numPlayers] the state becomes [DealingCard] and the
    turn index 0. *)
Theorem shuffle_spec (shuffleEncryptVerifier : list Z -> list Z -> bool)
    (s : Storage) (msg_sender permanentAccount : address) (proof : list Z)
    (nonce : Z) (shuffledX0 shuffledX1 : list Z) (selector : Z * Z) (gameId : Z) :
  length shuffledX0 = 52%nat -> length shuffledX1 = 52%nat ->
  length (X0 (deck_of s gameId)) = 52%nat ->
  length (X1 (deck_of s gameId)) = 52%nat ->
  let call :=
    shuffle shuffleEncryptVerifier s msg_sender permanentAccount proof nonce
      shuffledX0 shuffledX1 selector gameId in
  let players := playerAddr (playerInfo_of s gameId) in
  let turn := playerIndex_of s gameId in
  (forall s', call = Ok s' ->
     state_of s gameId = ShufflingDeck /\ at_dyn 0 players turn = Ok permanentAccount) /\
  (msg_sender = gameContract s -> state_of s gameId <> ShufflingDeck ->
     call = Revert InvalidState) /\
  (msg_sender = gameContract s -> state_of s gameId = ShufflingDeck ->
     forall p, at_dyn 0 players turn = Ok p -> p <> permanentAccount ->
     call = Revert NotYourTurn) /\
  (forall s', call = Ok s' ->
     deck_of s' gameId = mkDeck shuffledX0 shuffledX1 selector /\
     (turn + 1 <> numPlayers_of s gameId ->
        playerIndex_of s' gameId = turn + 1 /\ state_of s' gameId = ShufflingDeck) /\
     (turn + 1 = numPlayers_of s gameId ->
        playerIndex_of s' gameId = 0 /\ state_of s' gameId = DealingCard)).
Proof.
  intros Hx0 Hx1 Hd0 Hd1 call players turn.
  pose proof (updateDeck_deck s shuffledX0 shuffledX1 selector gameId Hx0 Hx1 Hd0 Hd1)
    as Hupd.
  subst call. split; [|split; [|split]].
  - intros s' H. apply shuffle_Ok_inv in H as (_ & Hst & Hturn & _). auto.
  - intros -> NE. unfold shuffle, onlyGameContract. rewrite Z.eqb_refl.
    cbn [bind require]. rewrite bool_decide_eq_false_2 by exact NE. reflexivity.
  - intros -> E p Hp Hne. unfold shuffle, onlyGameContract. rewrite Z.eqb_refl.
    cbn [bind require]. rewrite bool_decide_eq_true_2 by exact E.
    cbn [bind require]. fold players turn. rewrite Hp. cbn [bind require].
    destruct (Z.eqb_spec permanentAccount p) as [->|]; [contradiction | reflexivity].
  - intros s' H. apply shuffle_Ok_inv in H as (_ & Hst & _ & _ & Hs').
    cbv zeta in Hs'. fold turn in Hs'.
    destruct (Z.eqb_spec (turn + 1) (numPlayers_of s gameId)) as [E|NE]; subst s'.
    + split; [exact Hupd|]. split; [intros; contradiction|]. intros _.
      split; [apply playerIndex_of_set|]. apply state_of_set.
    + split; [exact Hupd|]. split; [|intros; contradiction]. intros _.
      split; [apply playerIndex_of_set|]. exact Hst.
Qed.

(** ** C4: dealing a card *)

Lemma land_pow2_testbit (r j : Z) :
  0 <= j -> (Z.land r (2 ^ j) =? 0) = negb (Z.testbit r j).
Proof.
  intros Hj. destruct (Z.testbit r j) eqn:Hb; simpl.
  - apply Z.eqb_neq. intros H0.
    assert (Hc : Z.testbit (Z.land r (2 ^ j)) j = true).
    { rewrite Z.land_spec, Hb, Z.pow2_bits_true by lia. reflexivity. }
    rewrite H0, Z.bits_0 in Hc. discriminate.
  - apply Z.eqb_eq. apply Z.bits_inj'. intros n Hn.
    rewrite Z.land_spec, Z.bits_0.
    destruct (Z.eq_dec n j) as [->|Hne].
    + rewrite Hb. reflexivity.
    + rewrite Z.pow2_bits_false by lia. apply andb_false_r.
Qed.

Lemma shl_1_pow2 (j : Z) : 0 <= j < 256 -> shl 1 j = 2 ^ j.
Proof. intros Hj. rewrite shl_1_small by exact Hj. apply Z.shiftl_1_l. Qed.

Lemma at52_Ok_inv {T : Type} (d : T) (a : list T) (i : Z) (v : T) :
  at52 d a i = Ok v -> 0 <= i < 52 /\ v = nth (Z.to_nat i) a d.
Proof.
  unfold at52. destruct (Z.leb_spec 0 i); [|discriminate].
  destruct (Z.ltb_spec i 52); [|discriminate]. simpl.
  intros [= <-]. split; [lia | reflexivity].
Qed.

Lemma cardDeal_of_set (s : Storage) (gameId : Z) (v : CardDeal) :
  cardDeal_of (set_cardDeal s gameId v) gameId = v.
Proof. unfold cardDeal_of, set_cardDeal. simpl. rewrite lookup_insert_eq. reflexivity. Qed.

Lemma nth_set52 {T : Type} (d : T) (a : list T) (i : Z) (v : T) :
  0 <= i < Z.of_nat (length a) -> nth (Z.to_nat i) (set52 a i v) d = v.
Proof.
  intros Hi. unfold set52. apply nth_lookup_Some.
  apply list_lookup_insert_eq. lia.
Qed.

(** What [deal] has checked and written when it calls the verifier. *)
Lemma deal_before_verifier_Ok_inv (s s1 : Storage) (msg_sender permanentAccount : address)
    (cardIdx curPlayerIdx : Z) (decryptedCard initDelta : Z * Z) (gameId : Z)
    (signals : list Z) :
  deal_before_verifier s msg_sender permanentAccount cardIdx curPlayerIdx
    decryptedCard initDelta gameId = Ok (signals, s1) ->
  0 <= cardIdx < 52 /\
  Z.land (nth (Z.to_nat cardIdx) (record (cardDeal_of s gameId)) 0)
    (shl 1 curPlayerIdx) = 0 /\
  record (cardDeal_of s1 gameId) = record (cardDeal_of s gameId) /\
  length (cards (cardDeal_of s1 gameId)) = length (cards (cardDeal_of s gameId)) /\
  playerIndex_of s1 gameId = playerIndex_of s gameId.
Proof.
  unfold deal_before_verifier, inDealingPhase, onlyGameContract. intros H.
  inv_bind H. injection H as _ <-.
  apply at52_Ok_inv in Hv3 as [Hi ->].
  apply require_Ok_inv, Z.eqb_eq in Hv4.
  split; [exact Hi|]. split; [exact Hv4|].
  destruct (_ =? 0) in Hv5.
  - inv_bind Hv5. injection Hv5 as <-. rewrite cardDeal_of_set. simpl.
    unfold set52. rewrite length_insert. auto.
  - injection Hv5 as <-. auto.
Qed.

Lemma bind_not_err {T U : Type} (m : Res T) (k : T -> Res U) (e : Error) :
  m <> Revert e -> (forall v, k v <> Revert e) -> bind m k <> Revert e.
Proof.
  intros Hm Hk. destruct m as [v|e']; simpl; [apply Hk|].
  intros [= ->]. apply Hm. reflexivity.
Qed.

Lemma decompressEC_not_DoubleDeal (x delta sel : Z) :
  decompressEC x delta sel <> Revert DoubleDeal.
Proof.
  unfold decompressEC, require, checked_sub.
  repeat (match goal with |- context [if ?b then _ else _] => destruct b end;
          cbn [bind]); discriminate.
Qed.

Ltac not_DoubleDeal :=
  repeat first
    [ apply decompressEC_not_DoubleDeal
    | apply bind_not_err; [|intros ?]
    | match goal with |- (if ?b then _ else _) <> _ => destruct b end
    | progress unfold require, at52, at_dyn, checked_add, checked_mul, checked_sub,
        decompressCard, deal_after_verifier
    | discriminate ].

(** C4, as the code has it. In a game in state [DealingCard], for the account
    registered as player [j] (below 256, the width of a record) and a card
    below 52: [deal] fails with [DoubleDeal] if and only if bit [j] of
    [record[i]] is set; a successful deal sets bit [j] of [record[i]] and
    replaces [(X1, Y1)] of the card with the submitted share; the turn index
    [playerIndexes[gameId]] is left as it was. *)
Theorem deal_spec (decryptVerifier : list Z -> list Z -> bool)
    (s : Storage) (permanentAccount : address) (cardIdx curPlayerIdx : Z)
    (proof : list Z) (decryptedCard initDelta : Z * Z) (gameId : Z) :
  state_of s gameId = DealingCard ->
  at_dyn 0 (playerAddr (playerInfo_of s gameId)) curPlayerIdx = Ok permanentAccount ->
  0 <= cardIdx < 52 ->
  0 <= curPlayerIdx < 256 ->
  length (record (cardDeal_of s gameId)) = 52%nat ->
  length (cards (cardDeal_of s gameId)) = 52%nat ->
  let call :=
    deal decryptVerifier s (gameContract s) permanentAccount cardIdx curPlayerIdx
      proof decryptedCard initDelta gameId in
  let rec := nth (Z.to_nat cardIdx) (record (cardDeal_of s gameId)) 0 in
  (call = Revert DoubleDeal <-> Z.testbit rec curPlayerIdx = true) /\
  (forall s', call = Ok s' ->
     let rec' := nth (Z.to_nat cardIdx) (record (cardDeal_of s' gameId)) 0 in
     let card' := nth (Z.to_nat cardIdx) (cards (cardDeal_of s' gameId)) Card.zero in
     rec' = Z.lor rec (2 ^ curPlayerIdx) /\
     Z.testbit rec' curPlayerIdx = true /\
     Card.X1 card' = decryptedCard.1 /\
     Card.Y1 card' = decryptedCard.2 /\
     playerIndex_of s' gameId = playerIndex_of s gameId).
Proof.
  intros Hst Hplayer Hi Hj Hrec Hcards call rec. subst call. split.
  - unfold deal, deal_before_verifier, inDealingPhase, onlyGameContract.
    rewrite bool_decide_eq_true_2 by exact Hst. rewrite Z.eqb_refl, Hplayer.
    cbn [bind require]. rewrite Z.eqb_refl, at52_in_range by exact Hi.
    cbn [bind require]. fold rec.
    rewrite shl_1_pow2, land_pow2_testbit by lia.
    destruct (Z.testbit rec curPlayerIdx); cbn [negb bind require].
    + split; reflexivity.
    + split; [|discriminate].
      (* past the guard, no later step raises [DoubleDeal] *)
      intros H. exfalso. revert H.
      match goal with |- ?X = _ -> False => change (X <> Revert DoubleDeal) end.
      not_DoubleDeal.
  - intros s' H. unfold deal in H. inv_bind H. destruct v as [signals s1].
    apply deal_before_verifier_Ok_inv in Hv as (_ & _ & Hr1 & Hc1 & Hidx).
    unfold deal_after_verifier in H. cbn [fst snd] in H.
    rewrite !at52_in_range in H by exact Hi. cbn [bind] in H.
    injection H as <-. cbv zeta. rewrite cardDeal_of_set. cbn [record cards].
    rewrite !nth_set52 by (rewrite ?Hc1, ?Hr1, ?Hcards, ?Hrec; lia).
    rewrite Hr1. fold rec.
    rewrite shl_1_pow2 by exact Hj. cbn [Card.X1 Card.Y1].
    split; [reflexivity|]. split.
    + rewrite Z.lor_spec, Z.pow2_bits_true by lia. apply orb_true_r.
    + split; [reflexivity|]. split; [reflexivity|]. exact Hidx.
Qed.

(** ** C9: no call moves a game to [GameError] *)

(** How the map of game states can change in one successful call: not at all,
    or at one game id to a state that is not [GameError]. *)
Definition states_step (s s' : Storage) : Prop :=
  states s' = states s \/
  exists gameId v, v <> GameError /\ states s' = <[gameId := v]> (states s).

Lemma register_states (s s' : Storage) (msg_sender permanentAccount : address)
    (pk : Z * Z) (gameId : Z) :
  register s msg_sender permanentAccount pk gameId = Ok s' -> states_step s s'.
Proof.
  unfold register. intros H. inv_bind H.
  destruct (_ =? _) in H.
  - inv_bind H. injection H as <-. right. exists gameId, ShufflingDeck.
    split; [discriminate|]. unfold initDeck. destruct (gameId =? 0); reflexivity.
  - injection H as <-. left. reflexivity.
Qed.

Lemma shuffle_states (shuffleEncryptVerifier : list Z -> list Z -> bool)
    (s s' : Storage) (msg_sender permanentAccount : address) (proof : list Z)
    (nonce : Z) (shuffledX0 shuffledX1 : list Z) (selector : Z * Z) (gameId : Z) :
  shuffle shuffleEncryptVerifier s msg_sender permanentAccount proof nonce
    shuffledX0 shuffledX1 selector gameId = Ok s' -> states_step s s'.
Proof.
  intros H. apply shuffle_Ok_inv in H as (_ & _ & _ & _ & ->). cbv zeta.
  destruct (_ =? _).
  - right. exists gameId, DealingCard. split; [discriminate | reflexivity].
  - left. reflexivity.
Qed.

Lemma deal_before_verifier_states (s s1 : Storage) (msg_sender permanentAccount : address)
    (cardIdx curPlayerIdx : Z) (decryptedCard initDelta : Z * Z) (gameId : Z)
    (signals : list Z) :
  deal_before_verifier s msg_sender permanentAccount cardIdx curPlayerIdx
    decryptedCard initDelta gameId = Ok (signals, s1) ->
  states s1 = states s.
Proof.
  unfold deal_before_verifier. intros H. inv_bind H. injection H as _ <-.
  destruct (_ =? 0) in Hv5.
  - inv_bind Hv5. injection Hv5 as <-. reflexivity.
  - injection Hv5 as <-. reflexivity.
Qed.

Lemma deal_states (decryptVerifier : list Z -> list Z -> bool)
    (s s' : Storage) (msg_sender permanentAccount : address)
    (cardIdx curPlayerIdx : Z) (proof : list Z) (decryptedCard initDelta : Z * Z)
    (gameId : Z) :
  deal decryptVerifier s msg_sender permanentAccount cardIdx curPlayerIdx proof
    decryptedCard initDelta gameId = Ok s' -> states_step s s'.
Proof.
  unfold deal. intros H. inv_bind H. destruct v as [signals s1].
  apply deal_before_verifier_states in Hv.
  unfold deal_after_verifier in H. inv_bind H. injection H as <-.
  left. exact Hv.
Qed.

Lemma exec_states (shuffleEncryptVerifier decryptVerifier : list Z -> list Z -> bool)
    (msg_sender : address) (c : Call) (s s' : Storage) :
  exec shuffleEncryptVerifier decryptVerifier msg_sender c s = Ok s' ->
  states_step s s'.
Proof.
  destruct c; simpl; intros H.
  - unfold setGameSettings in H. inv_bind H. injection H as <-.
    right. exists gameId, Registration. split; [discriminate | reflexivity].
  - unfold setGameContract in H. inv_bind H. injection H as <-. left. reflexivity.
  - unfold transferOwnership in H. inv_bind H. injection H as <-. left. reflexivity.
  - unfold renounceOwnership in H. inv_bind H. injection H as <-. left. reflexivity.
  - eapply register_states, H.
  - eapply shuffle_states, H.
  - eapply deal_states, H.
Qed.

Lemma states_step_no_GameError (s s' : Storage) :
  states_step s s' ->
  (forall gameId, state_of s gameId <> GameError) ->
  forall gameId, state_of s' gameId <> GameError.
Proof.
  intros [Hsame | (g & v & Hv & Hins)] Hinv gameId; unfold state_of in *.
  - rewrite Hsame. apply Hinv.
  - rewrite Hins. destruct (decide (g = gameId)) as [->|Hne].
    + rewrite lookup_insert_eq. exact Hv.
    + rewrite lookup_insert_ne by exact Hne. apply Hinv.
Qed.

(** C9, as the code has it. In every reachable storage no game is in state
    [GameError], and a call that fails, with [ProofFailed], [InvalidPublicKey]
    or any other error, leaves the storage, hence the state of every game, as
    it was before the call. *)
Theorem failed_call_keeps_state_and_GameError_is_never_entered
    (shuffleEncryptVerifier decryptVerifier : list Z -> list Z -> bool)
    (deployer : address) (s : Storage) :
  reachable shuffleEncryptVerifier decryptVerifier deployer s ->
  (forall gameId, state_of s gameId <> GameError) /\
  (forall msg_sender c e,
      (step shuffleEncryptVerifier decryptVerifier msg_sender c s).2 = Some e ->
      (step shuffleEncryptVerifier decryptVerifier msg_sender c s).1 = s).
Proof.
  intros Hreach. split.
  - induction Hreach as [|s msg_sender c Hreach IH].
    + intros gameId. unfold state_of, deployed. simpl.
      rewrite lookup_empty. discriminate.
    + unfold step, transact.
      destruct (exec _ _ msg_sender c s) as [s'|e] eqn:Hexec; simpl; [|exact IH].
      eapply states_step_no_GameError; [|exact IH].
      eapply exec_states, Hexec.
  - intros msg_sender c e. unfold step, transact.
    destruct (exec _ _ msg_sender c s); simpl; [discriminate | reflexivity].
Qed.

(** ** C2: the last registration *)

Lemma keys_nth (i : nat) : forall l : list Z,
  (2 * i + 1 < length l)%nat ->
  nth i (keys l) (0, 0) = (nth (2 * i) l 0, nth (2 * i + 1) l 0).
Proof.
  induction i as [|i IH]; intros l Hl.
  - destruct l as [|x [|y l]]; simpl in *; try lia. reflexivity.
  - destruct l as [|x [|y l]]; simpl in Hl; try lia.
    replace (2 * S i)%nat with (S (S (2 * i))) by lia.
    change (nth (S i) (keys (x :: y :: l)) (0, 0)) with (nth i (keys l) (0, 0)).
    rewrite IH by lia. reflexivity.
Qed.


Lemma keys_length_ge (n : nat) : forall l : list Z,
  (2 * n <= length l)%nat -> (n <= length (keys l))%nat.
Proof.
  induction n as [|n IH]; intros l Hl; [lia|].
  destruct l as [|x [|y l]]; simpl in Hl; try lia.
  simpl. apply le_n_S, IH. lia.
Qed.

Lemma aggregate_step_in_range (playerPk : list Z) (agg : Z * Z) (i : Z) :
  0 <= i -> 2 * i + 1 < Z.of_nat (length playerPk) -> 2 * i + 1 < WORD ->
  aggregate_step playerPk agg i
  = Ok (point_add agg (nth (Z.to_nat i) (keys playerPk) (0, 0))).
Proof.
  intros Hi Hlen Hw. unfold aggregate_step, checked_mul, checked_add.
  destruct (Z.ltb_spec (2 * i) WORD); [|lia]. cbn [bind].
  rewrite at_dyn_in_range by lia. cbn [bind].
  destruct (Z.ltb_spec (2 * i + 1) WORD); [|lia]. cbn [bind].
  rewrite at_dyn_in_range by lia. cbn [bind].
  rewrite keys_nth by lia. unfold point_add. cbn [fst snd].
  replace (Z.to_nat (2 * i)) with (2 * Z.to_nat i)%nat by lia.
  replace (Z.to_nat (2 * i + 1)) with (2 * Z.to_nat i + 1)%nat by lia.
  reflexivity.
Qed.

(** The loop of [register] is a left fold of [point_add] over the keys it
    walks through. *)
Lemma aggregate_loop_fold (playerPk : list Z) (len : nat) :
  forall (a : Z) (acc : Z * Z),
    0 <= a ->
    2 * (a + Z.of_nat len) <= Z.of_nat (length playerPk) ->
    2 * (a + Z.of_nat len) <= WORD ->
    foldM (aggregate_step playerPk) acc (seqZ a (Z.of_nat len))
    = Ok (foldl point_add acc (take len (drop (Z.to_nat a) (keys playerPk)))).
Proof.
  induction len as [|len IH]; intros a acc Ha Hlen Hw.
  - reflexivity.
  - rewrite seqZ_cons by lia. cbn [foldM].
    rewrite aggregate_step_in_range by lia. cbn [bind].
    replace (Z.pred (Z.of_nat (S len))) with (Z.of_nat len) by lia.
    rewrite IH by lia.
    assert (Hk : (Z.to_nat a < length (keys playerPk))%nat).
    { assert (H1 := keys_length_ge (S (Z.to_nat a)) playerPk ltac:(lia)). lia. }
    destruct (lookup_lt_is_Some_2 _ _ Hk) as [x Hx].
    rewrite (drop_S _ _ _ Hx). cbn [take foldl].
    rewrite (nth_lookup_Some _ _ (0, 0) _ Hx).
    replace (Z.to_nat (Z.succ a)) with (S (Z.to_nat a)) by lia.
    reflexivity.
Qed.

Lemma point_add_identity_l (P : Z * Z) : point_add (0, 0) P = P.
Proof. destruct P. reflexivity. Qed.

Lemma playerInfo_of_set (s : Storage) (gameId : Z) (v : PlayerInfo) :
  playerInfo_of (set_playerInfo s gameId v) gameId = v.
Proof. unfold playerInfo_of, set_playerInfo. simpl. rewrite lookup_insert_eq. reflexivity. Qed.

Lemma deck_of_set (s : Storage) (gameId : Z) (v : Deck) :
  deck_of (set_deck s gameId v) gameId = v.
Proof. unfold deck_of, set_deck. simpl. rewrite lookup_insert_eq. reflexivity. Qed.

Lemma initDeck_memory_eq : initDeck_memory = initial_deck.
Proof. vm_compute. reflexivity. Qed.


(** ** C6: scalar multiplication *)

Lemma digits_pos_length (p : positive) : forall n : nat,
  Zpos p < 2 ^ Z.of_nat n -> (length (digits_pos p) <= n)%nat.
Proof.
  induction p as [p IH|p IH|]; intros n Hp.
  - destruct n as [|n]; [simpl in Hp; lia|].
    simpl. apply le_n_S, IH.
    rewrite Nat2Z.inj_succ, Z.pow_succ_r in Hp by lia. lia.
  - destruct n as [|n]; [simpl in Hp; lia|].
    simpl. apply le_n_S, IH.
    rewrite Nat2Z.inj_succ, Z.pow_succ_r in Hp by lia. lia.
  - destruct n as [|n]; [simpl in Hp; lia|]. simpl. lia.
Qed.

Lemma surjective_pairing_let {T : Type} (p : Z * Z) (k : Z -> Z -> T) :
  (let '(a, b) := p in k a b) = k p.1 p.2.
Proof. destruct p. reflexivity. Qed.

(** The loop of [pointMul] walks the digits of [remaining]. *)
Lemma pointMul_loop_digits (p : positive) : forall (fuel : nat) (px py ax ay : Z),
  (length (digits_pos p) <= fuel)%nat ->
  pointMul_loop fuel (Zpos p) px py ax ay
  = Some (double_and_add (digits_pos p) (px, py) (ax, ay)).
Proof.
  induction p as [p IH|p IH|]; intros fuel px py ax ay Hf;
    (destruct fuel as [|fuel]; [simpl in Hf; lia|]);
    cbn [pointMul_loop digits_pos double_and_add];
    change (Z.pos _ =? 0) with false; cbv iota.
  - replace (Z.land (Z.pos p~1) 1) with 1 by (destruct p; reflexivity).
    change (negb (1 =? 0)) with true. cbv iota.
    replace (Z.pos p~1 / 2) with (Z.pos p)
      by (rewrite Pos2Z.inj_xI; apply Z.div_unique with 1; lia).
    rewrite !surjective_pairing_let. rewrite IH by (simpl in Hf; lia).
    unfold point_add. cbn [fst snd]. rewrite <- !surjective_pairing. reflexivity.
  - replace (Z.land (Z.pos p~0) 1) with 0 by (destruct p; reflexivity).
    change (negb (0 =? 0)) with false. cbv iota.
    replace (Z.pos p~0 / 2) with (Z.pos p)
      by (rewrite Pos2Z.inj_xO; apply Z.div_unique with 0; lia).
    rewrite !surjective_pairing_let. rewrite IH by (simpl in Hf; lia).
    unfold point_add. cbn [fst snd]. rewrite <- !surjective_pairing. reflexivity.
  - change (Z.land 1 1) with 1. change (negb (1 =? 0)) with true. cbv iota.
    change (1 / 2) with 0.
    rewrite !surjective_pairing_let.
    destruct fuel; cbn [pointMul_loop]; change (0 =? 0) with true; cbv iota;
      unfold point_add; cbn [fst snd]; rewrite <- !surjective_pairing; reflexivity.
Qed.

(** C6, as the code has it. [pointMul] has no check of the scalar and never
    fails with [InvalidScalar]: for every point and every [uint256] scalar
    [s], those at or above [Q] included, the loop ends within its 256 rounds
    and returns the double-and-add sum over the binary digits of [s] itself,
    from the least significant one; [s] is not reduced. *)
Theorem pointMul_is_double_and_add (x y s : Z) :
  0 <= s < 2 ^ 256 ->
  pointMul x y s = Some (double_and_add (digits s) (x, y) (0, 0)).
Proof.
  intros [Hs0 Hs]. unfold pointMul. destruct s as [|p|p]; [reflexivity| |lia].
  apply pointMul_loop_digits.
  apply (digits_pos_length p 256). exact Hs.
Qed.

Lemma pointMul_is_double_and_add_witness :
  0 <= 5 < 2 ^ 256 /\
  pointMul 0 1 5 = Some (double_and_add (digits 5) (0, 1) (0, 0)).
Proof. split; [lia | apply (pointMul_is_double_and_add 0 1 5); lia]. Defined.

(** C6 fails as stated: with the scalar [Q], which is not below the field
    size, [pointMul] returns a point instead of failing, and the point is not
    the one it returns for [Q mod Q = 0]. *)
Lemma pointMul_accepts_unreduced_scalar :
  pointMul 0 1 Q = Some (0, 1) /\
  pointMul 0 1 (Q mod Q) = Some (0, 0) /\
  pointMul 0 1 Q <> pointMul 0 1 (Q mod Q).
Proof.
  assert (H1 : pointMul 0 1 Q = Some (0, 1)) by (vm_compute; reflexivity).
  assert (H2 : pointMul 0 1 (Q mod Q) = Some (0, 0)) by (vm_compute; reflexivity).
  split; [exact H1|]. split; [exact H2|]. rewrite H1, H2. discriminate.
Qed.

(** ** Primality certificates are sound *)

Lemma fpow_spec (m : positive) (a n : bigN) :
  BigN.to_Z (fpow a m n) = BigN.to_Z a ^ Zpos m mod BigN.to_Z n.
Proof.
  induction m as [m IH|m IH|]; cbn [fpow].
  - rewrite !BigN.spec_modulo, !BigN.spec_mul, !BigN.spec_modulo, !BigN.spec_mul, IH.
    rewrite <- Zmult_mod, Zmult_mod_idemp_l.
    rewrite Pos2Z.inj_xI, Z.pow_add_r, Z.pow_twice_r, Z.pow_1_r by lia.
    reflexivity.
  - rewrite !BigN.spec_modulo, !BigN.spec_mul, IH.
    rewrite <- Zmult_mod. rewrite Pos2Z.inj_xO, Z.pow_twice_r. reflexivity.
  - rewrite BigN.spec_modulo, Z.pow_1_r. reflexivity.
Qed.

Lemma modpow_spec (a e n : Z) :
  0 <= a -> 0 <= n -> 0 <= e -> modpow a e n = a ^ e mod n.
Proof.
  intros Ha Hn He. unfold modpow. destruct e as [|m|m]; [reflexivity| |lia].
  rewrite fpow_spec, !BigN.spec_of_N, !Z2N.id by assumption. reflexivity.
Qed.

Lemma no_divisor_spec (n : Z) (k : nat) : forall d : Z,
  0 < d -> no_divisor n d k = true ->
  forall m : Z, d <= m < d + Z.of_nat k -> ~ (m | n).
Proof.
  induction k as [|k IH]; intros d Hd Hnd m Hm; [lia|].
  cbn [no_divisor] in Hnd. apply andb_true_iff in Hnd as [Hd0 Hrest].
  destruct (Z.eq_dec m d) as [->|Hne].
  - intros Hdiv. apply Z.mod_divide in Hdiv; [|lia].
    rewrite Hdiv in Hd0. discriminate.
  - apply (IH (d + 1)); [lia | exact Hrest | lia].
Qed.

Lemma trial_prime_sound (n : Z) (k : nat) : trial_prime n k = true -> Z.prime n.
Proof.
  unfold trial_prime. rewrite !andb_true_iff.
  intros [[Hn Hsq] Hnd]. apply Z.ltb_lt in Hn, Hsq.
  split; [exact Hn|]. intros m Hm [c Hc].
  assert (Hcpos : 1 < c) by nia.
  destruct (Z_lt_le_dec m (Z.of_nat k + 2)) as [Hsmall|Hbig].
  - apply (no_divisor_spec n k 2 ltac:(lia) Hnd m); [lia | exists c; exact Hc].
  - destruct (Z_lt_le_dec c (Z.of_nat k + 2)) as [Hcs|Hcb]; [|nia].
    apply (no_divisor_spec n k 2 ltac:(lia) Hnd c); [lia | exists m; lia].
Qed.

Lemma exists_prime_divisor (n : Z) : 1 < n -> exists p, Z.prime p /\ (p | n).
Proof.
  intros H1. assert (H0 : 0 <= n) by lia. revert H1.
  pattern n. apply Z_lt_induction; [|exact H0]. clear n H0. intros n IH Hn.
  destruct (prime_dec n) as [Hp|Hnp].
  - exists n. split; [apply prime_alt; exact Hp | apply Z.divide_refl].
  - destruct (not_prime_divide n Hn Hnp) as (m & Hm & Hdiv).
    destruct (IH m ltac:(lia) ltac:(lia)) as (p & Hp & Hpm).
    exists p. split; [exact Hp | eapply Z.divide_trans; eassumption].
Qed.

Lemma composite_has_small_prime_factor (N : Z) :
  1 < N -> ~ Z.prime N -> exists p, Z.prime p /\ (p | N) /\ p * p <= N.
Proof.
  intros HN Hnp. rewrite prime_alt in Hnp.
  destruct (not_prime_divide N HN Hnp) as (m & Hm & [c Hc]).
  assert (Hc1 : 1 < c) by nia.
  destruct (Z_le_gt_dec m c) as [Hle|Hgt].
  - destruct (exists_prime_divisor m ltac:(lia)) as (p & Hp & Hpm).
    exists p. split; [exact Hp|]. split.
    + eapply Z.divide_trans; [exact Hpm|]. exists c. exact Hc.
    + pose proof (Z.prime_ge_2 p Hp). apply Z.divide_pos_le in Hpm; [|lia]. nia.
  - destruct (exists_prime_divisor c Hc1) as (p & Hp & Hpc).
    exists p. split; [exact Hp|]. split.
    + eapply Z.divide_trans; [exact Hpc|]. exists m. lia.
    + pose proof (Z.prime_ge_2 p Hp). apply Z.divide_pos_le in Hpc; [|lia]. nia.
Qed.

(** The exponents that send [b] to 1 modulo [p] are closed under [gcd]. *)
Lemma pow_mod_gcd (b p : Z) : 1 < p -> forall n : Z, 0 <= n -> forall m : Z,
  0 <= m -> b ^ m mod p = 1 -> b ^ n mod p = 1 -> b ^ Z.gcd m n mod p = 1.
Proof.
  intros Hp n Hn. pattern n. apply Z_lt_induction; [|exact Hn]. clear n Hn.
  intros n IH m Hm Hbm Hbn.
  destruct (Z.eq_dec n 0) as [->|Hn0].
  - rewrite Z.gcd_0_r, Z.abs_eq by exact Hm. exact Hbm.
  - assert (Hn : 0 < n).
    { destruct (Z_lt_le_dec 0 n); [assumption|].
      destruct (Z.eq_dec n 0); [contradiction|].
      rewrite Z.pow_neg_r in Hbn by lia. rewrite Z.mod_0_l in Hbn by lia. discriminate. }
    pose proof (Z.mod_pos_bound m n Hn) as Hr.
    assert (Hbr : b ^ (m mod n) mod p = 1).
    { rewrite (Z.div_mod m n) in Hbm at 1 by lia.
      rewrite Z.pow_add_r in Hbm by (try apply Z.mul_nonneg_nonneg; try apply Z.div_pos; lia).
      rewrite Z.pow_mul_r in Hbm by (try apply Z.div_pos; lia).
      rewrite Zmult_mod in Hbm. rewrite (Zpower_mod (b ^ n) (m / n) p) in Hbm by lia.
      rewrite Hbn, Z.pow_1_l in Hbm by (apply Z.div_pos; lia).
      rewrite (Z.mod_small 1 p) in Hbm by lia. rewrite Z.mul_1_l in Hbm.
      rewrite Z.mod_mod in Hbm by lia. exact Hbm. }
    assert (Hg : Z.gcd m n = Z.gcd n (m mod n)).
    { rewrite (Z.gcd_comm n), Z.gcd_mod by lia. apply Z.gcd_comm. }
    rewrite Hg. apply (IH (m mod n)); [lia | lia | exact Hbn | exact Hbr].
Qed.

(** If [g] divides [q * n] but not [n], for a prime [q], then [g] takes the
    full power of [q] that [q * n] has. *)
Lemma prime_power_divides (g q n e : Z) :
  Z.prime q -> 0 < g -> 0 < n -> 1 <= e ->
  (g | q * n) -> ~ (g | n) -> (q ^ (e - 1) | n) -> (q ^ e | g).
Proof.
  intros Hq Hg Hn He Hgqn Hgn Hqn.
  pose proof (Z.prime_ge_2 q Hq) as Hq2.
  set (h := Z.gcd g n).
  assert (Hh : 0 < h).
  { pose proof (Z.gcd_nonneg g n).
    destruct (Z.eq_dec h 0) as [E|]; [|unfold h in *; lia].
    apply Z.gcd_eq_0_l in E. lia. }
  destruct (Z.gcd_divide_l g n) as [g' Hg']. fold h in Hg'.
  destruct (Z.gcd_divide_r g n) as [n' Hn']. fold h in Hn'.
  assert (Hco : Z.gcd g' n' = 1).
  { pose proof (Z.gcd_div_gcd g n h ltac:(lia) eq_refl) as H.
    rewrite Hg', Hn' in H at 1. rewrite !Z.div_mul in H by lia. exact H. }
  assert (Hg'pos : 0 < g') by nia.
  assert (Hg'q : (g' | q)).
  { apply (Z.gauss g' n' q); [|exact Hco].
    apply (Z.mul_divide_cancel_r _ _ h); [lia|].
    rewrite <- Hg'. replace (n' * q * h) with (q * n) by (rewrite Hn'; ring).
    exact Hgqn. }
  apply Z.divide_prime_r in Hg'q; [|exact Hq].
  destruct Hg'q as [E|[E|[E|E]]]; try lia.
  - exfalso. apply Hgn. rewrite Hg', E, Z.mul_1_l. apply Z.gcd_divide_r.
  - subst g'.
    assert (Hqh : (q ^ (e - 1) | h)).
    { apply (Z.gauss _ n' h).
      - rewrite <- Hn'. exact Hqn.
      - apply Z.coprime_pow_l; [lia | exact Hco]. }
    replace e with (Z.succ (e - 1)) by lia.
    rewrite Z.pow_succ_r by lia. rewrite Hg'.
    apply Z.mul_divide_mono_l. exact Hqh.
Qed.

Lemma mod_of_divisor (x N p : Z) :
  0 < p -> 0 < N -> (p | N) -> x mod p = (x mod N) mod p.
Proof. intros Hp HN Hdiv. symmetry; apply Z.mod_mod_divide; assumption. Qed.

(** One prime power of Pocklington's criterion. *)
Lemma pocklington_step (N q e a p : Z) :
  1 < N -> Z.prime q -> 1 <= e -> (q ^ e | N - 1) ->
  a ^ (N - 1) mod N = 1 ->
  Z.gcd (a ^ ((N - 1) / q) mod N - 1) N = 1 ->
  Z.prime p -> (p | N) -> (q ^ e | p - 1).
Proof.
  intros HN Hq He Hqe Ha Hgcd Hp HpN.
  pose proof (Z.prime_ge_2 q Hq) as Hq2.
  pose proof (Z.prime_ge_2 p Hp) as Hp2.
  assert (Hap : a ^ (N - 1) mod p = 1).
  { rewrite (mod_of_divisor _ N p) by (assumption || lia).
    rewrite Ha. apply Z.mod_small. lia. }
  assert (Hanz : a mod p <> 0).
  { intros E. rewrite Zpower_mod, E, Z.pow_0_l, Z.mod_0_l in Hap by lia.
    discriminate. }
  pose proof (Z.fermat_nz p a Hp Hanz) as Hfermat.
  set (g := Z.gcd (N - 1) (p - 1)).
  assert (Hag : a ^ g mod p = 1)
    by (apply pow_mod_gcd; (assumption || lia)).
  assert (Hg : 0 < g).
  { pose proof (Z.gcd_nonneg (N - 1) (p - 1)).
    destruct (Z.eq_dec g 0) as [E|]; [|unfold g in *; lia].
    apply Z.gcd_eq_0_l in E. lia. }
  set (n := (N - 1) / q).
  assert (Hqdiv : (q | N - 1)).
  { eapply Z.divide_trans; [|exact Hqe].
    exists (q ^ (e - 1)). replace e with (Z.succ (e - 1)) at 1 by lia.
    rewrite Z.pow_succ_r by lia. ring. }
  assert (HNn : N - 1 = q * n).
  { unfold n. destruct Hqdiv as [c Hc]. rewrite Hc, Z.div_mul by lia. ring. }
  assert (Hn : 0 < n) by nia.
  apply Z.divide_trans with g; [|apply Z.gcd_divide_r].
  apply (prime_power_divides g q n e); try assumption.
  - rewrite <- HNn. apply Z.gcd_divide_l.
  - intros [c Hc].
    assert (Hc0 : 0 <= c) by nia.
    assert (Han : a ^ n mod p = 1).
    { rewrite Hc, Z.mul_comm, Z.pow_mul_r, Zpower_mod, Hag, Z.pow_1_l by lia.
      apply Z.mod_small. lia. }
    rewrite (mod_of_divisor _ N p) in Han by (assumption || lia).
    assert (Hdiv : (p | a ^ n mod N - 1)).
    { apply Z.mod_divide; [lia|].
      rewrite Zminus_mod, Han, (Z.mod_small 1 p) by lia. reflexivity. }
    pose proof (Z.gcd_greatest _ _ _ Hdiv HpN) as H1.
    fold n in Hgcd. rewrite Hgcd in H1.
    apply Z.divide_1_r in H1. lia.
  - apply (Z.mul_divide_cancel_l _ _ q); [lia|].
    rewrite <- HNn, <- Z.pow_succ_r by lia.
    replace (Z.succ (e - 1)) with e by lia. exact Hqe.
Qed.

Lemma coprime_divide_mul (a b x : Z) :
  Z.gcd a b = 1 -> (a | x) -> (b | x) -> (a * b | x).
Proof.
  intros Hco [c Hc] Hb. subst x.
  assert (Hbc : (b | c)).
  { apply (Z.gauss b a c); [rewrite Z.mul_comm; exact Hb|].
    rewrite Z.gcd_comm. exact Hco. }
  destruct Hbc as [d ->]. exists d. ring.
Qed.

Lemma prod_powers_divides (fs : list (Z * Z)) (x : Z) :
  coprime_powers fs = true ->
  Forall (fun qe => (qe.1 ^ qe.2 | x)) fs ->
  (prod_powers fs | x).
Proof.
  induction fs as [|qe fs IH]; intros Hco Hall; cbn [prod_powers].
  - apply Z.divide_1_l.
  - cbn [coprime_powers] in Hco. apply andb_true_iff in Hco as [Hg Hco].
    apply Z.eqb_eq in Hg. inversion Hall as [|? ? Hqe Hrest]; subst.
    apply coprime_divide_mul; [exact Hg | exact Hqe | apply IH; assumption].
Qed.

(** Pocklington's criterion, as the test computes it. *)
Theorem pock_check_sound (N a : Z) (fs : list (Z * Z)) :
  Forall (fun qe => Z.prime qe.1) fs ->
  pock_check N a fs = true -> Z.prime N.
Proof.
  intros Hprimes Hcheck. unfold pock_check in Hcheck.
  rewrite !andb_true_iff in Hcheck.
  destruct Hcheck as [[[[[[HN Ha0] Ha] Hfs] Hco] HF0] HF].
  apply Z.ltb_lt in HN, HF0, HF. apply Z.leb_le in Ha0. apply Z.eqb_eq in Ha.
  rewrite modpow_spec in Ha by lia.
  destruct (prime_dec N) as [Hp|Hnp]; [apply prime_alt; exact Hp|].
  exfalso. rewrite <- prime_alt in Hnp.
  destruct (composite_has_small_prime_factor N HN Hnp) as (p & Hp & HpN & Hpp).
  pose proof (Z.prime_ge_2 p Hp) as Hp2.
  assert (HFp : (prod_powers fs | p - 1)).
  { apply prod_powers_divides; [exact Hco|].
    rewrite Forall_forall in Hprimes. rewrite forallb_forall in Hfs.
    apply Forall_forall. intros qe Hin.
    specialize (Hfs qe ltac:(apply list_elem_of_In; exact Hin)).
    unfold pock_factor_ok in Hfs. rewrite !andb_true_iff in Hfs.
    destruct Hfs as [[He Hdiv] Hgcd].
    apply Z.ltb_lt in He. apply Z.eqb_eq in Hdiv, Hgcd.
    pose proof (Z.prime_ge_2 _ (Hprimes qe Hin)) as Hq2.
    assert (Hdiv0 : 0 <= (N - 1) / qe.1) by (apply Z.div_pos; lia).
    rewrite modpow_spec in Hgcd by lia.
    apply (pocklington_step N qe.1 qe.2 a p); try assumption; try lia.
    - apply Hprimes. exact Hin.
    - apply Z.mod_divide; [|exact Hdiv].
      apply Z.pow_nonzero; lia. }
  apply Z.divide_pos_le in HFp; [|lia]. nia.
Qed.

(** ** The primes of the certificate of [Q] *)

Ltac by_trial k := apply (trial_prime_sound _ k); vm_compute; reflexivity.

Lemma prime_13 : Z.prime 13. Proof. by_trial 2%nat. Qed.
Lemma prime_29 : Z.prime 29. Proof. by_trial 4%nat. Qed.
Lemma prime_983 : Z.prime 983. Proof. by_trial 30%nat. Qed.
Lemma prime_3691 : Z.prime 3691. Proof. by_trial 59%nat. Qed.
Lemma prime_4999 : Z.prime 4999. Proof. by_trial 69%nat. Qed.
Lemma prime_11003 : Z.prime 11003. Proof. by_trial 103%nat. Qed.
Lemma prime_93001 : Z.prime 93001. Proof. by_trial 303%nat. Qed.
Lemma prime_237073 : Z.prime 237073. Proof. by_trial 485%nat. Qed.

Ltac by_pocklington a fs :=
  apply (pock_check_sound _ a fs);
  [ repeat (apply List.Forall_cons; [cbn [fst]; auto using Z.prime_2, Z.prime_3|]);
    apply List.Forall_nil
  | vm_compute; reflexivity ].

Lemma prime_405928799 : Z.prime 405928799.
Proof.
  assert (H1 := prime_3691). assert (H2 := prime_4999).
  by_pocklington 22 [(3691, 1); (4999, 1)].
Qed.

Lemma prime_12048837557 : Z.prime 12048837557.
Proof.
  assert (H1 := prime_93001).
  by_pocklington 2 [(93001, 1); (2, 2)].
Qed.

Lemma prime_5156902474397 : Z.prime 5156902474397.
Proof.
  assert (H1 := prime_12048837557).
  by_pocklington 2 [(12048837557, 1)].
Qed.

Lemma prime_1670836401704629 : Z.prime 1670836401704629.
Proof.
  assert (H1 := prime_5156902474397).
  by_pocklington 2 [(5156902474397, 1)].
Qed.

(** The modulus of Baby Jubjub is prime: Pocklington's test with the witness
    5 and the factor [2^28 * 3^2 * 13 * 29 * 983 * 11003 * 237073 * 405928799
    * 1670836401704629] of [Q - 1]. *)
Theorem Q_prime : Z.prime Q.
Proof.
  assert (H1 := prime_13). assert (H2 := prime_29). assert (H3 := prime_983).
  assert (H4 := prime_11003). assert (H5 := prime_237073).
  assert (H6 := prime_405928799). assert (H7 := prime_1670836401704629).
  by_pocklington 5
    [(2, 28); (3, 2); (13, 1); (29, 1); (983, 1); (11003, 1); (237073, 1);
     (405928799, 1); (1670836401704629, 1)].
Qed.

(** ** Arithmetic of the library modulo [Q] *)

Lemma Q_pos : 0 < Q.
Proof. reflexivity. Qed.

Lemma mulmod_Q (a b : Z) : mulmod a b Q = (a * b) mod Q.
Proof. reflexivity. Qed.

Lemma addmod_Q (a b : Z) : addmod a b Q = (a + b) mod Q.
Proof. reflexivity. Qed.

Lemma submod_spec (a b m : Z) :
  0 < m -> 0 <= a < m -> 0 <= b < m -> submod a b m = (a - b) mod m.
Proof.
  intros Hm Ha Hb. unfold submod, addmod.
  destruct (Z.eqb_spec m 0) as [|_]; [lia|]. rewrite Z.add_0_r.
  destruct (Z.leb_spec a b).
  - replace (a + m - b) with (a - b + 1 * m) by ring. apply Z_mod_plus_full.
  - reflexivity.
Qed.

(** The checked operations of [submod] stay inside a word on operands below
    a modulus of at most 255 bits. *)
Lemma submod_in_range (a b m : Z) :
  0 <= a < m -> 0 <= b < m -> m < 2 ^ 255 ->
  let aNN := if a <=? b then a + m else a in
  0 <= aNN < WORD /\ 0 <= aNN - b.
Proof.
  intros Ha Hb Hm. cbv zeta. assert (HW : WORD = 2 * 2 ^ 255) by reflexivity.
  destruct (Z.leb_spec a b); lia.
Qed.

Lemma expmod_Q (b e : Z) : expmod b e Q = b ^ e mod Q.
Proof. unfold expmod. change (Q =? 0) with false. cbv iota. apply Zpow_mod_correct. discriminate. Qed.

(** [inverse] inverts every residue that is not 0, by Fermat's theorem. *)
Lemma inverse_spec (a : Z) : a mod Q <> 0 -> mulmod a (inverse a) Q = 1.
Proof.
  intros Ha. unfold inverse. rewrite mulmod_Q, expmod_Q.
  rewrite Z.mul_mod_idemp_r by discriminate.
  rewrite <- (Z.pow_1_r a) at 1. rewrite <- Z.pow_add_r by (unfold Q; lia).
  replace (1 + (Q - 2)) with (Q - 1) by ring.
  apply Z.fermat_nz; [apply Q_prime | exact Ha].
Qed.

Lemma mod_eq_of_multiple (a b k : Z) : a = b + k * Q -> a mod Q = b mod Q.
Proof. intros ->. apply Z_mod_plus_full. Qed.

Lemma mod_range (a : Z) : 0 <= a mod Q < Q.
Proof. apply Z.mod_pos_bound, Q_pos. Qed.

(** [isOnCurve] is the curve equation modulo [Q]. *)
Lemma isOnCurve_spec (x y : Z) :
  isOnCurve x y = true <->
  (A * (x * x) + y * y) mod Q = (1 + D * (x * x) * (y * y)) mod Q.
Proof.
  unfold isOnCurve. rewrite !mulmod_Q, !addmod_Q.
  rewrite submod_spec by (apply Q_pos || apply mod_range).
  rewrite Z.mul_mod_idemp_r, Z.add_mod_idemp_l, Z.add_mod_idemp_r by discriminate.
  rewrite (Z.mul_mod_idemp_r D), Z.mul_mod_idemp_l, Z.mul_mod_idemp_r,
    Z.add_mod_idemp_r by discriminate.
  replace (D * (x * x) * (y * y)) with (D * (x * x) * (y * y)) by ring.
  set (L := (A * (x * x) + y * y) mod Q).
  set (R := (1 + D * (x * x) * (y * y)) mod Q).
  pose proof (mod_range (A * (x * x) + y * y)) as HL. fold L in HL.
  pose proof (mod_range (1 + D * (x * x) * (y * y))) as HR. fold R in HR.
  rewrite Z.eqb_eq. split.
  - intros H. apply Z.mod_divide in H; [|discriminate].
    destruct H as [k Hk]. assert (k = 0) by nia. lia.
  - intros ->. rewrite Z.sub_diag. reflexivity.
Qed.

(** ** C5: the neutral element *)

(** [A * D] is not a square modulo [Q] (Euler's criterion). *)
Lemma AD_euler : (A * D) ^ ((Q - 1) / 2) mod Q = Q - 1.
Proof.
  rewrite <- modpow_spec by (vm_compute; discriminate).
  vm_compute. reflexivity.
Qed.

(** On the curve the denominator [1 + D x^2 y^2] of the addition law is not
    0: otherwise [A D x^4 = 1] would make [A * D] a square. *)
Lemma curve_denominator_nonzero (x y : Z) :
  isOnCurve x y = true -> (1 + D * (x * x) * (y * y)) mod Q <> 0.
Proof.
  intros Hc H0. apply isOnCurve_spec in Hc. rewrite H0 in Hc.
  apply Z.mod_divide in Hc; [|discriminate]. destruct Hc as [k1 Hk1].
  apply Z.mod_divide in H0; [|discriminate]. destruct H0 as [k2 Hk2].
  set (u := x * x) in *. set (c := A * D).
  assert (Hcu : (c * (u * u)) mod Q = 1).
  { rewrite (mod_eq_of_multiple _ 1 (D * u * k1 - k2)); [reflexivity|].
    unfold c. replace (A * D * (u * u)) with (D * u * (A * u)) by ring.
    replace (A * u) with (k1 * Q - y * y) by lia.
    replace (D * u * (k1 * Q - y * y)) with (D * u * k1 * Q - D * u * (y * y)) by ring.
    replace (D * u * (y * y)) with (k2 * Q - 1) by lia. ring. }
  assert (Hu : u mod Q <> 0).
  { intros E. apply Z.mod_divide in E; [|discriminate]. destruct E as [k Hk].
    rewrite (mod_eq_of_multiple _ 0 (c * u * k)) in Hcu by (rewrite Hk at 2; ring).
    discriminate. }
  pose proof (Z.fermat_nz Q u Q_prime Hu) as Hf.
  set (h := (Q - 1) / 2).
  assert (Hh : Q - 1 = 2 * h) by reflexivity.
  assert (Hh0 : 0 <= h) by (vm_compute; discriminate).
  assert (H1 : (c * (u * u)) ^ h mod Q = 1).
  { rewrite Zpower_mod, Hcu, Z.pow_1_l by (reflexivity || exact Hh0). reflexivity. }
  rewrite Z.pow_mul_l in H1.
  replace (u * u) with (u ^ 2) in H1 by ring.
  rewrite <- Z.pow_mul_r, <- Hh in H1 by lia.
  rewrite Zmult_mod, Hf in H1. unfold c, h in H1. rewrite AD_euler in H1.
  vm_compute in H1. discriminate.
Qed.

(** C5, as the code has it. [(0, 0)] is a left identity of [pointAdd]:
    [pointAdd((0, 0), P) = P] for every [P]. For every point [P] on the curve,
    [pointAdd(P, neg(P))] is [(0, 1)], the neutral element of the twisted
    Edwards addition law, and not [(0, 0)]. *)
Theorem pointAdd_identity_and_opposite :
  (forall P : Z * Z, point_add (0, 0) P = P) /\
  (forall P : Z * Z, isOnCurve P.1 P.2 = true -> point_add P (neg P) = (0, 1)).
Proof.
  split; [apply point_add_identity_l|].
  intros [x y] Hc. cbn [fst snd] in Hc. unfold point_add, neg. cbn [fst snd].
  pose proof (curve_denominator_nonzero x y Hc) as Hden.
  pose proof Hc as Heq. apply isOnCurve_spec in Heq.
  unfold pointAdd.
  (* neither early return is taken: [(0, 0)] and [(x, 0)] with [x = 0 mod Q]
     are not on the curve *)
  assert (Hb1 : (x =? 0) && (y =? 0) = false).
  { destruct (Z.eqb_spec x 0) as [->|]; [|reflexivity].
    destruct (Z.eqb_spec y 0) as [->|]; [|reflexivity].
    vm_compute in Hc. discriminate. }
  assert (Hb2 : ((Q - x) mod Q =? 0) && (y =? 0) = false).
  { destruct (Z.eqb_spec ((Q - x) mod Q) 0) as [E|]; [|reflexivity].
    destruct (Z.eqb_spec y 0) as [->|]; [|reflexivity]. exfalso.
    apply Z.mod_divide in E; [|discriminate]. destruct E as [k Hk].
    rewrite (mod_eq_of_multiple _ 0 (A * (1 - k) * x)) in Heq
      by (replace x with ((1 - k) * Q) at 2 by lia; ring).
    rewrite (mod_eq_of_multiple (1 + _) 1 0) in Heq by ring.
    vm_compute in Heq. discriminate. }
  rewrite Hb1, Hb2.
  (* every intermediate value of the addition law, modulo [Q] *)
  assert (E1 : mulmod x ((Q - x) mod Q) Q = (- (x * x)) mod Q).
  { rewrite mulmod_Q, Z.mul_mod_idemp_r by discriminate.
    apply (mod_eq_of_multiple _ _ x). ring. }
  assert (E2 : mulmod y y Q = (y * y) mod Q) by reflexivity.
  assert (E3 : mulmod D (mulmod ((- (x * x)) mod Q) ((y * y) mod Q) Q) Q
               = (- (D * (x * x) * (y * y))) mod Q).
  { rewrite !mulmod_Q, <- Zmult_mod, Z.mul_mod_idemp_r by discriminate.
    f_equal. ring. }
  assert (E4 : addmod (mulmod x y Q) (mulmod y ((Q - x) mod Q) Q) Q = 0).
  { rewrite addmod_Q, !mulmod_Q, Z.mul_mod_idemp_r, <- Zplus_mod by discriminate.
    rewrite (mod_eq_of_multiple _ 0 y) by ring. reflexivity. }
  assert (E5 : submod ((y * y) mod Q) (mulmod A ((- (x * x)) mod Q) Q) Q
               = (A * (x * x) + y * y) mod Q).
  { rewrite submod_spec by (apply Q_pos || apply mod_range).
    rewrite mulmod_Q, Z.mul_mod_idemp_r, <- Zminus_mod by discriminate.
    f_equal. ring. }
  assert (E6 : submod 1 ((- (D * (x * x) * (y * y))) mod Q) Q
               = (1 + D * (x * x) * (y * y)) mod Q).
  { rewrite submod_spec by (apply Q_pos || apply mod_range || (split; reflexivity || discriminate)).
    rewrite Zminus_mod_idemp_r. f_equal. ring. }
  rewrite E1, E2, E3, E4, E5, E6, Heq.
  f_equal.
  apply inverse_spec. rewrite Z.mod_mod by discriminate. exact Hden.
Qed.

(** C5 fails as stated: [(0, 1)] is on the curve and is its own opposite,
    and [pointAdd] sends it and its opposite to [(0, 1)], not to [(0, 0)]. *)
Lemma pointAdd_opposite_is_not_0_0 :
  isOnCurve 0 1 = true /\
  neg (0, 1) = (0, 1) /\
  pointAdd 0 1 0 1 = (0, 1) /\
  point_add (0, 1) (neg (0, 1)) <> (0, 0).
Proof.
  assert (H : point_add (0, 1) (neg (0, 1)) = (0, 1)) by (vm_compute; reflexivity).
  repeat split; try (vm_compute; reflexivity).
  rewrite H. discriminate.
Qed.

(** The second early return of [pointAdd] tests [_x2] and [_y1]: with
    [(0, 0)] on the right and a first point whose [y] is not 0 the law is
    applied, and it yields [(0, 0)]. *)
Example pointAdd_0_0_on_the_right : pointAdd 0 1 0 0 = (0, 0).
Proof. vm_compute. reflexivity. Qed.

(** The generator [Base8] of the spec: the first card of the initial deck is
    its [x]. *)
Example Base8_on_curve :
  isOnCurve
    5299619240641551281634865583518297030282874472190772894086521144482721001553
    16950150798460657717958625567821834550301663161624707787222815936182638968203
  = true.
Proof. vm_compute. reflexivity. Qed.

(** C5 at work, on [(0, 1)] and on [Base8]. *)
Lemma pointAdd_identity_and_opposite_witness :
  point_add (0, 1) (neg (0, 1)) = (0, 1) /\
  point_add
    (5299619240641551281634865583518297030282874472190772894086521144482721001553,
     16950150798460657717958625567821834550301663161624707787222815936182638968203)
    (neg
       (5299619240641551281634865583518297030282874472190772894086521144482721001553,
        16950150798460657717958625567821834550301663161624707787222815936182638968203))
  = (0, 1).
Proof.
  split.
  - apply (proj2 pointAdd_identity_and_opposite (0, 1)). vm_compute. reflexivity.
  - apply (proj2 pointAdd_identity_and_opposite). exact Base8_on_curve.
Defined.

(** ** Well-formed storages *)

(** The contract keeps its storage well formed, so every storage it can
    reach meets what the theorems above assume. *)

Lemma register_Ok_inv (s s' : Storage) (msg_sender permanentAccount : address)
    (pk : Z * Z) (gameId : Z) :
  register s msg_sender permanentAccount pk gameId = Ok s' ->
  let info := playerInfo_of s gameId in
  let info' :=
    mkPlayerInfo (playerAddr info ++ [permanentAccount])
      (playerPk info ++ [pk.1; pk.2]) (aggregatedPk info) in
  let idx := playerIndex_of s gameId + 1 in
  gameContract s = msg_sender /\
  state_of s gameId = Registration /\
  isOnCurve pk.1 pk.2 = true /\
  ((idx <> numPlayers_of s gameId /\
    s' = set_playerIndex (set_playerInfo s gameId info') gameId idx) \/
   (idx = numPlayers_of s gameId /\
    exists agg,
      aggregate_loop (playerPk info') (numPlayers_of s gameId)
        (nth 0 (playerPk info') 0, nth 1 (playerPk info') 0) = Ok agg /\
      s' = initDeck
             (set_playerInfo
                (set_playerIndex
                   (set_state
                      (set_playerIndex (set_playerInfo s gameId info') gameId idx)
                      gameId ShufflingDeck)
                   gameId 0)
                gameId (mkPlayerInfo (playerAddr info') (playerPk info') agg))
             gameId)).
Proof.
  unfold register, onlyGameContract. intros H. inv_bind H.
  apply require_Ok_inv, Z.eqb_eq in Hv.
  apply require_Ok_inv, bool_decide_eq_true_1 in Hv0.
  apply require_Ok_inv in Hv1.
  apply checked_add_Ok in Hv2 as [-> _].
  cbv zeta. split; [exact Hv|]. split; [exact Hv0|]. split; [exact Hv1|].
  change (playerIndex_of (set_playerInfo s gameId ?i) gameId)
    with (playerIndex_of s gameId) in *.
  change (numPlayers_of (set_playerIndex (set_playerInfo s gameId ?i) gameId ?j) gameId)
    with (numPlayers_of s gameId) in *.
  destruct (Z.eqb_spec (playerIndex_of s gameId + 1) (numPlayers_of s gameId)) as [E|NE].
  - right. split; [exact E|]. inv_bind H. injection H as <-.
    cbn [playerPk] in *.
    unfold at_dyn in Hv2, Hv3.
    destruct (_ && _) in Hv2; [|discriminate]. injection Hv2 as <-.
    destruct (_ && _) in Hv3; [|discriminate]. injection Hv3 as <-.
    eexists. split; [|reflexivity].
    change (numPlayers_of (set_playerIndex (set_state _ gameId ShufflingDeck) gameId 0) gameId)
      with (numPlayers_of s gameId) in Hv4.
    exact Hv4.
  - left. split; [exact NE|]. injection H as <-. reflexivity.
Qed.

(** [deal] writes the deal of its game and nothing else, and keeps the
    sizes of its arrays. *)
Lemma deal_Ok_inv (decryptVerifier : list Z -> list Z -> bool)
    (s s' : Storage) (msg_sender permanentAccount : address)
    (cardIdx curPlayerIdx : Z) (proof : list Z) (decryptedCard initDelta : Z * Z)
    (gameId : Z) :
  deal decryptVerifier s msg_sender permanentAccount cardIdx curPlayerIdx proof
    decryptedCard initDelta gameId = Ok s' ->
  exists cd,
    s' = set_cardDeal s gameId cd /\
    length (cards cd) = length (cards (cardDeal_of s gameId)) /\
    length (record cd) = length (record (cardDeal_of s gameId)).
Proof.
  unfold deal. intros H. inv_bind H. destruct v as [signals s1].
  pose proof (deal_before_verifier_Ok_inv _ _ _ _ _ _ _ _ _ _ Hv)
    as (_ & _ & Hrec & Hcards & _).
  assert (Hs1 : s1 = s \/ exists cd, s1 = set_cardDeal s gameId cd).
  { clear -Hv. unfold deal_before_verifier in Hv. inv_bind Hv. injection Hv as _ <-.
    match goal with
    | H : (if ?b then _ else _) = Ok _ |- _ => destruct b; [inv_bind H|]; injection H as <-
    end; [right; eexists; reflexivity | left; reflexivity]. }
  unfold deal_after_verifier in H. cbn [fst snd] in H. inv_bind H.
  injection H as <-. eexists. split; [|split].
  - destruct Hs1 as [->|[cd ->]]; [reflexivity|].
    unfold set_cardDeal. cbn. f_equal. apply insert_insert_eq.
  - cbn [cards]. unfold set52. rewrite length_insert. exact Hcards.
  - cbn [record]. unfold set52. rewrite length_insert, Hrec. reflexivity.
Qed.

Ltac storage_cases gameId gameId' :=
  unfold well_formed_game, deck_of, cardDeal_of, playerInfo_of, playerIndex_of,
    numPlayers_of, state_of in *;
  cbn [decks cardDeals playerInfos playerIndexes numPlayers states
       set_deck set_state set_playerIndex set_numPlayers set_playerInfo
       set_cardDeal];
  destruct (decide (gameId = gameId')) as [<-|?];
  [ rewrite ?lookup_insert_eq
  | rewrite ?lookup_insert_ne by assumption ];
  cbn [default from_option id X0 X1 Selector cards record playerAddr playerPk
       aggregatedPk].

Ltac wf_finish :=
  repeat split; intros;
  try assumption; try reflexivity; try congruence; try lia.

Lemma length_foldl_insert (f : nat -> Z) (l : list nat) (a : list Z) :
  length (foldl (fun a i => <[i := f i]> a) a l) = length a.
Proof.
  revert a. induction l as [|i l IH]; intros a; simpl; [reflexivity|].
  rewrite IH. apply length_insert.
Qed.

Lemma initDeck_deck_lengths (s : Storage) (gameId g : Z) :
  length (X0 (deck_of s g)) = 52%nat -> length (X1 (deck_of s g)) = 52%nat ->
  length (X0 (deck_of (initDeck s gameId) g)) = 52%nat /\
  length (X1 (deck_of (initDeck s gameId) g)) = 52%nat.
Proof.
  intros H0 H1. unfold initDeck. destruct (gameId =? 0); [split; assumption|].
  unfold deck_of, set_deck in *. cbn [decks].
  destruct (decide (gameId = g)) as [<-|Hne].
  - rewrite lookup_insert_eq. cbn [default from_option id].
    rewrite initDeck_memory_eq. split; reflexivity.
  - rewrite lookup_insert_ne by exact Hne. split; assumption.
Qed.

Lemma initDeck_frame (s : Storage) (gameId g : Z) :
  cardDeal_of (initDeck s gameId) g = cardDeal_of s g /\
  playerInfo_of (initDeck s gameId) g = playerInfo_of s g /\
  playerIndex_of (initDeck s gameId) g = playerIndex_of s g /\
  numPlayers_of (initDeck s gameId) g = numPlayers_of s g /\
  state_of (initDeck s gameId) g = state_of s g.
Proof. unfold initDeck. destruct (gameId =? 0); repeat split; reflexivity. Qed.

Lemma well_formed_initDeck (s : Storage) (gameId g : Z) :
  well_formed_game s g -> well_formed_game (initDeck s gameId) g.
Proof.
  intros (H0 & H1 & H2 & H3 & H4 & H5 & H6). unfold well_formed_game.
  destruct (initDeck_frame s gameId g) as (-> & -> & -> & -> & ->).
  destruct (initDeck_deck_lengths s gameId g H0 H1) as [-> ->].
  repeat (split; [assumption || reflexivity|]). assumption.
Qed.

Lemma deck_of_set_ne (s : Storage) (g g' : Z) (v : Deck) :
  g <> g' -> deck_of (set_deck s g v) g' = deck_of s g'.
Proof.
  intros Hne. unfold deck_of, set_deck. simpl.
  rewrite lookup_insert_ne by exact Hne. reflexivity.
Qed.

Lemma X0_mkDeck (a b : list Z) (c : Z * Z) : X0 (mkDeck a b c) = a.
Proof. reflexivity. Qed.

Lemma X1_mkDeck (a b : list Z) (c : Z * Z) : X1 (mkDeck a b c) = b.
Proof. reflexivity. Qed.

Lemma updateDeck_frame (s : Storage) (x0 x1 : list Z) (sel : Z * Z) (gameId g : Z) :
  let s1 := updateDeck s x0 x1 sel gameId in
  cardDeal_of s1 g = cardDeal_of s g /\
  playerInfo_of s1 g = playerInfo_of s g /\
  playerIndex_of s1 g = playerIndex_of s g /\
  numPlayers_of s1 g = numPlayers_of s g /\
  state_of s1 g = state_of s g.
Proof. cbv zeta. repeat split; reflexivity. Qed.

Lemma updateDeck_lengths (s : Storage) (x0 x1 : list Z) (sel : Z * Z) (gameId g : Z) :
  length (X0 (deck_of s g)) = 52%nat -> length (X1 (deck_of s g)) = 52%nat ->
  let s1 := updateDeck s x0 x1 sel gameId in
  length (X0 (deck_of s1 g)) = 52%nat /\
  length (X1 (deck_of s1 g)) = 52%nat.
Proof.
  intros H0 H1. cbv zeta. unfold updateDeck.
  destruct (decide (gameId = g)) as [<-|Hne].
  - rewrite deck_of_set, X0_mkDeck, X1_mkDeck.
    rewrite (foldl_deck_X0 (fun i => nth i x0 0) (fun i => nth i x1 0)).
    rewrite (foldl_deck_X1 (fun i => nth i x0 0) (fun i => nth i x1 0)).
    rewrite !length_foldl_insert. split; assumption.
  - rewrite deck_of_set_ne by exact Hne. split; assumption.
Qed.

Lemma exec_well_formed
    (shuffleEncryptVerifier decryptVerifier : list Z -> list Z -> bool)
    (msg_sender : address) (c : Call) (s s' : Storage) :
  exec shuffleEncryptVerifier decryptVerifier msg_sender c s = Ok s' ->
  (forall gameId, well_formed_game s gameId) ->
  forall gameId, well_formed_game s' gameId.
Proof.
  intros Hexec Hwf g. specialize (Hwf g).
  destruct c; cbn [exec] in Hexec.
  - (* setGameSettings *)
    unfold setGameSettings in Hexec. inv_bind Hexec. injection Hexec as <-.
    storage_cases gameId g; [|exact Hwf].
    destruct Hwf as (H0 & H1 & H2 & H3 & H4 & _ & _).
    wf_finish.
  - unfold setGameContract in Hexec. inv_bind Hexec. injection Hexec as <-. exact Hwf.
  - unfold transferOwnership in Hexec. inv_bind Hexec. injection Hexec as <-. exact Hwf.
  - unfold renounceOwnership in Hexec. inv_bind Hexec. injection Hexec as <-. exact Hwf.
  - (* register *)
    apply register_Ok_inv in Hexec. cbv zeta in Hexec.
    destruct Hexec as (_ & Hst & _ & [(Hne & ->)|(He & agg & _ & ->)]).
    + storage_cases gameId g; [|exact Hwf].
      destruct Hwf as (H0 & H1 & H2 & H3 & H4 & H5 & H6).
      rewrite !length_app. cbn [length]. specialize (H5 Hst).
      wf_finish.
    + apply well_formed_initDeck.
      storage_cases gameId g; [|exact Hwf].
      destruct Hwf as (H0 & H1 & H2 & H3 & H4 & H5 & H6).
      rewrite !length_app. cbn [length]. specialize (H5 Hst).
      wf_finish.
  - (* shuffle *)
    apply shuffle_Ok_inv in Hexec as (_ & Hst & Hturn & _ & ->). cbv zeta.
    destruct Hwf as (H0 & H1 & H2 & H3 & H4 & H5 & H6).
    pose proof (updateDeck_lengths s shuffledX0 shuffledX1 selector gameId g H0 H1)
      as (U0 & U1).
    pose proof (updateDeck_frame s shuffledX0 shuffledX1 selector gameId g)
      as (Ucd & Uinfo & Uidx & Un & Ust).
    cbv zeta in *.
    set (s1 := updateDeck s shuffledX0 shuffledX1 selector gameId) in *.
    clearbody s1.
    destruct (Z.eqb_spec (playerIndex_of s gameId + 1) (numPlayers_of s gameId)) as [E|NE].
    + storage_cases gameId g.
      * rewrite U0, U1, Ucd, Uinfo. wf_finish.
      * rewrite U0, U1, Ucd, Uinfo, Uidx, Un, Ust.
        repeat (split; [assumption || reflexivity|]). assumption.
    + storage_cases gameId g.
      * rewrite U0, U1, Ucd, Uinfo, Un, Ust. specialize (H6 Hst). wf_finish.
      * rewrite U0, U1, Ucd, Uinfo, Uidx, Un, Ust.
        repeat (split; [assumption || reflexivity|]). assumption.
  - (* deal *)
    apply deal_Ok_inv in Hexec as (cd & -> & Hc & Hr).
    storage_cases gameId g; [|exact Hwf].
    destruct Hwf as (H0 & H1 & H2 & H3 & H4 & H5 & H6).
    rewrite Hc, Hr. repeat (split; [assumption|]). assumption.
Qed.

(** X1. Every storage the contract can reach is well formed, for every game
    id: the arrays of the deck and of the deal have their 52 slots, [playerPk]
    holds two words for each address of [playerAddr], and the turn index of a
    game that registers or shuffles names a slot of the players. *)
Theorem reachable_well_formed
    (shuffleEncryptVerifier decryptVerifier : list Z -> list Z -> bool)
    (deployer : address) (s : Storage) :
  reachable shuffleEncryptVerifier decryptVerifier deployer s ->
  forall gameId, well_formed_game s gameId.
Proof.
  induction 1 as [|s msg_sender c Hreach IH].
  - intros g. unfold well_formed_game, deck_of, cardDeal_of, playerInfo_of,
      playerIndex_of, numPlayers_of, state_of, deployed. cbn.
    rewrite !lookup_empty. cbn. wf_finish.
  - unfold step, transact.
    destruct (exec _ _ msg_sender c s) as [s'|e] eqn:Hexec; cbn [fst]; [|exact IH].
    eapply exec_well_formed; eassumption.
Qed.

(** [initialDeck] is written by the registration that closes game 0 and by
    nothing else: in a reachable storage it is the zero deck of the
    deployment or the literal deck of [initDeck]. *)
Lemma exec_initialDeck
    (shuffleEncryptVerifier decryptVerifier : list Z -> list Z -> bool)
    (msg_sender : address) (c : Call) (s s' : Storage) :
  exec shuffleEncryptVerifier decryptVerifier msg_sender c s = Ok s' ->
  initialDeck s' = initialDeck s \/ initialDeck s' = initial_deck.
Proof.
  intros Hexec. destruct c; cbn [exec] in Hexec.
  - unfold setGameSettings in Hexec. inv_bind Hexec. injection Hexec as <-.
    left. reflexivity.
  - unfold setGameContract in Hexec. inv_bind Hexec. injection Hexec as <-.
    left. reflexivity.
  - unfold transferOwnership in Hexec. inv_bind Hexec. injection Hexec as <-.
    left. reflexivity.
  - unfold renounceOwnership in Hexec. inv_bind Hexec. injection Hexec as <-.
    left. reflexivity.
  - apply register_Ok_inv in Hexec. cbv zeta in Hexec.
    destruct Hexec as (_ & _ & _ & [(_ & ->)|(_ & agg & _ & ->)]); [left; reflexivity|].
    unfold initDeck. destruct (gameId =? 0); [right | left; reflexivity].
    cbn [set_initialDeck initialDeck]. apply initDeck_memory_eq.
  - apply shuffle_Ok_inv in Hexec as (_ & _ & _ & _ & ->). cbv zeta.
    left. destruct (_ =? _); reflexivity.
  - apply deal_Ok_inv in Hexec as (cd & -> & _). left. reflexivity.
Qed.

Theorem reachable_initialDeck
    (shuffleEncryptVerifier decryptVerifier : list Z -> list Z -> bool)
    (deployer : address) (s : Storage) :
  reachable shuffleEncryptVerifier decryptVerifier deployer s ->
  initialDeck s = zeroDeck \/ initialDeck s = initial_deck.
Proof.
  induction 1 as [|s msg_sender c Hreach IH]; [left; reflexivity|].
  unfold step, transact.
  destruct (exec _ _ msg_sender c s) as [s'|e] eqn:Hexec; cbn [fst]; [|exact IH].
  apply exec_initialDeck in Hexec as [->| ->]; [exact IH | right; reflexivity].
Qed.

(** ** The theorems at work on a concrete game *)

Import Scenario.

Example in_shuffle_state :
  state_of in_shuffle 1 = ShufflingDeck /\ playerIndex_of in_shuffle 1 = 0 /\
  aggregatedPk (playerInfo_of in_shuffle 1) = (0, 1) /\
  deck_of in_shuffle 1 = initial_deck.
Proof. vm_compute. auto. Qed.

Example in_deal_state :
  state_of in_deal 1 = DealingCard /\ playerIndex_of in_deal 1 = 0.
Proof. vm_compute. auto. Qed.

Example dealt_record :
  nth 0 (record (cardDeal_of dealt 1)) 0 = 3 /\
  nth 0 (cards (cardDeal_of dealt 1)) Card.zero = Card.mk 0 (Q - 1) 7 8.
Proof. vm_compute. auto. Qed.

(** C1 at work: in the shuffling game, the shuffle of account 10 with a proof
    the verifier rejects fails with [ProofFailed] and changes nothing; so does
    a deal of account 10 in the dealing game. *)
Lemma rejected_proof_changes_nothing_witness :
  step reject reject 2 (CallShuffle 10 [] 0 shuffled shuffled (0, 0) 1) in_shuffle
    = (in_shuffle, Some ProofFailed) /\
  step reject reject 2 (CallDeal 10 0 0 [] (5, 6) (1, 1) 1) in_deal
    = (in_deal, Some ProofFailed).
Proof.
  destruct (rejected_proof_changes_nothing reject reject) as [Hshuffle Hdeal].
  split.
  - apply (Hshuffle in_shuffle 10 [] 0 shuffled shuffled (0, 0) 1);
      vm_compute; reflexivity.
  - destruct (deal_before_verifier in_deal 2 10 0 0 (5, 6) (1, 1) 1)
      as [[signals s1]|e] eqn:Hpre; [|vm_compute in Hpre; discriminate].
    apply (Hdeal in_deal 2 10 0 0 [] (5, 6) (1, 1) 1 signals s1 Hpre).
    reflexivity.
Defined.


(** C3 at work: the shuffle of account 10, whose turn it is. *)
Lemma shuffle_spec_witness :
  exists s',
    shuffle accept in_shuffle 2 10 [] 0 shuffled shuffled (0, 0) 1 = Ok s' /\
    deck_of s' 1 = mkDeck shuffled shuffled (0, 0) /\
    playerIndex_of s' 1 = 1 /\ state_of s' 1 = ShufflingDeck.
Proof.
  exists (step accept accept 2 (CallShuffle 10 [] 0 shuffled shuffled (0, 0) 1) in_shuffle).1.
  assert (Hs' : shuffle accept in_shuffle 2 10 [] 0 shuffled shuffled (0, 0) 1
                = Ok (step accept accept 2
                        (CallShuffle 10 [] 0 shuffled shuffled (0, 0) 1) in_shuffle).1)
    by (vm_compute; reflexivity).
  split; [exact Hs'|].
  pose proof (shuffle_spec accept in_shuffle 2 10 [] 0 shuffled shuffled (0, 0) 1
                eq_refl eq_refl eq_refl eq_refl) as H.
  cbv zeta in H. destruct H as (_ & _ & _ & H).
  destruct (H _ Hs') as (Hdeck & Hnext & _).
  split; [exact Hdeck|]. apply Hnext. vm_compute. discriminate.
Defined.

(** C4 at work: account 10, player 0, deals card 0 of the dealing game. *)
Lemma deal_spec_witness :
  exists s',
    deal accept in_deal 2 10 0 0 [] (5, 6) (1, 1) 1 = Ok s' /\
    nth 0 (record (cardDeal_of s' 1)) 0 = Z.lor 0 (2 ^ 0) /\
    playerIndex_of s' 1 = playerIndex_of in_deal 1.
Proof.
  exists (step accept accept 2 (CallDeal 10 0 0 [] (5, 6) (1, 1) 1) in_deal).1.
  assert (Hs' : deal accept in_deal 2 10 0 0 [] (5, 6) (1, 1) 1
                = Ok (step accept accept 2 (CallDeal 10 0 0 [] (5, 6) (1, 1) 1) in_deal).1)
    by (vm_compute; reflexivity).
  split; [exact Hs'|].
  pose proof (deal_spec accept in_deal 10 0 0 [] (5, 6) (1, 1) 1
                eq_refl eq_refl ltac:(lia) ltac:(lia) eq_refl eq_refl) as H.
  cbv zeta in H. destruct H as [_ H].
  destruct (H _ Hs') as (Hrec & _ & _ & _ & Hidx).
  split; [exact Hrec | exact Hidx].
Defined.

(** C4 fails as stated: the deal of account 10 succeeds, sets its bit and
    stores its share, and the turn index is the one before the deal. *)
Lemma deal_does_not_advance_turn :
  exists s',
    deal accept in_deal 2 10 0 0 [] (5, 6) (1, 1) 1 = Ok s' /\
    nth 0 (record (cardDeal_of s' 1)) 0 = 1 /\
    Card.X1 (nth 0 (cards (cardDeal_of s' 1)) Card.zero) = 5 /\
    Card.Y1 (nth 0 (cards (cardDeal_of s' 1)) Card.zero) = 6 /\
    playerIndex_of in_deal 1 = 0 /\
    playerIndex_of s' 1 = 0 /\
    playerIndex_of s' 1 <> playerIndex_of in_deal 1 + 1.
Proof.
  exists (step accept accept 2 (CallDeal 10 0 0 [] (5, 6) (1, 1) 1) in_deal).1.
  vm_compute. repeat split; discriminate.
Qed.

(** [search_spec] at work: card 0 of the dealt game is fully decrypted, and
    its [X1] is in no slot of [initialDeck], which this deployment never
    filled. *)
Lemma search_spec_witness : search dealt 0 1 = Ok 999999.
Proof.
  pose proof (search_spec dealt 0 1 ltac:(lia)
                ltac:(vm_compute; split; [discriminate | reflexivity]))
    as H.
  cbv zeta in H. destruct H as [_ H].
  apply H; [vm_compute; reflexivity|].
  intros i Hi. vm_compute X1. vm_compute Card.X1.
  do 52 (destruct i as [|i]; [discriminate|]). lia.
Defined.

(** C7 fails on the code. The initial deck is the same for all games, and
    [search] of a fully decrypted card is to return the least index of its
    [X1] in the table of the initial deck. The contract keeps that table in
    the storage variable [initialDeck], which [initDeck] writes for game 0
    only. On a deployment where game 0 was never registered, game 1 gets the
    literal deck, its one player deals card 0 with the share [Base8], whose
    [x] is entry 0 of the table, the card is fully decrypted, and [search]
    answers [INVALID_CARD_INDEX]: [initialDeck] is still the zero deck. The
    same calls after a registration of game 0 has closed answer 0. *)
Theorem search_misses_the_initial_deck :
  let card := nth 0 (cards (cardDeal_of game_1_dealt 1)) Card.zero in
  deck_of (run accept (take 2 (one_player_game 1)) fresh) 1 = initial_deck /\
  nth 0 (record (cardDeal_of game_1_dealt 1)) 0
    = Z.shiftl 1 (numPlayers_of game_1_dealt 1) - 1 /\
  Card.X1 card = nth 0 X1_table 0 /\
  initialDeck game_1_dealt = zeroDeck /\
  search game_1_dealt 0 1 = Ok INVALID_CARD_INDEX /\
  initialDeck game_1_after_game_0 = initial_deck /\
  search game_1_after_game_0 0 1 = Ok 0.
Proof. vm_compute. repeat split; reflexivity. Qed.

(** C8 at work: [(0, 1)] decompresses to [1] or to [Q - 1]; [(1, 1)] is not
    on the curve; [Q] is too large a [delta]. *)
Lemma decompressEC_spec_witness :
  decompressEC 0 1 1 = Ok 1 /\ decompressEC 0 1 0 = Ok (Q - 1) /\
  decompressEC 0 1 2 = Revert IllFormedSelector /\
  decompressEC 1 1 1 = Revert NotOnCurve /\
  decompressEC 0 Q 1 = Revert IllFormedDelta.
Proof.
  destruct (decompressEC_spec 0 1 1) as (_ & _ & H1).
  destruct (decompressEC_spec 0 1 0) as (_ & _ & H0).
  destruct (decompressEC_spec 0 1 2) as (_ & _ & H2).
  destruct (decompressEC_spec 1 1 1) as (_ & H3 & _).
  destruct (decompressEC_spec 0 Q 1) as (H4 & _).
  assert (Hd : 0 <= 1 <= (Q - 1) / 2) by (vm_compute; split; discriminate).
  assert (Hc : isOnCurve 0 1 = true) by (vm_compute; reflexivity).
  split; [apply (H1 Hd Hc); reflexivity|].
  split; [apply (H0 Hd Hc); reflexivity|].
  split; [apply (H2 Hd Hc); discriminate|].
  split.
  - apply H3; [vm_compute; reflexivity | vm_compute; discriminate].
  - apply H4. vm_compute. reflexivity.
Defined.

Lemma in_shuffle_reachable : reachable reject reject 1 in_shuffle.
Proof.
  unfold in_shuffle, in_registration, run. cbn [foldl fst snd].
  repeat apply reachable_step. apply reachable_deployed.
Qed.

(** C9 at work, on the shuffling game. *)
Lemma GameError_is_never_entered_witness :
  (forall gameId, state_of in_shuffle gameId <> GameError) /\
  (forall msg_sender c e,
      (step reject reject msg_sender c in_shuffle).2 = Some e ->
      (step reject reject msg_sender c in_shuffle).1 = in_shuffle).
Proof.
  apply (failed_call_keeps_state_and_GameError_is_never_entered reject reject 1).
  apply in_shuffle_reachable.
Defined.

(** C9 fails as stated: in a reachable storage, a shuffle that fails with
    [ProofFailed] leaves game 1 in state [ShufflingDeck], and a registration
    that fails with [InvalidPublicKey] leaves it in state [Registration];
    neither moves it to [GameError]. *)
Lemma failed_call_does_not_enter_GameError :
  reachable reject reject 1 in_shuffle /\
  step reject reject 2 (CallShuffle 10 [] 0 shuffled shuffled (0, 0) 1) in_shuffle
    = (in_shuffle, Some ProofFailed) /\
  state_of in_shuffle 1 = ShufflingDeck /\
  state_of in_shuffle 1 <> GameError /\
  step reject reject 2 (CallRegister 11 (0, 0) 1) in_registration
    = (in_registration, Some InvalidPublicKey) /\
  state_of in_registration 1 = Registration.
Proof.
  split; [apply in_shuffle_reachable|].
  split; [vm_compute; reflexivity|].
  split; [vm_compute; reflexivity|].
  split; [vm_compute; discriminate|].
  split; vm_compute; reflexivity.
Qed.

(** * Further properties *)

Import Games.

(** ** The group law on the curve *)

(** The closure identity of the twisted Edwards addition law, over the
    integers: with [E1] and [E2] the curve equations of the two points, the
    equation of the sum, denominators cleared, is a combination of them. *)
Lemma addition_law_identity (a d x1 y1 x2 y2 : Z) :
  let t := d * x1 * x2 * y1 * y2 in
  let N1 := x1 * y2 + y1 * x2 in
  let N2 := y1 * y2 - a * x1 * x2 in
  let m1 := d * (x1 * x1) * (y1 * y1) in
  let m2 := d * (x2 * x2) * (y2 * y2) in
  let E1 := a * (x1 * x1) + y1 * y1 - (1 + m1) in
  let E2 := a * (x2 * x2) + y2 * y2 - (1 + m2) in
  a * (N1 * N1) * ((1 - t) * (1 - t)) + N2 * N2 * ((1 + t) * (1 + t))
  - ((1 + t) * (1 + t) * ((1 - t) * (1 - t)) + d * (N1 * N1) * (N2 * N2))
  = (1 - m1 * m2) * (E1 - m1 * E2 + E2 - m2 * E1)
    + (E1 - m1 * E2) * (E2 - m2 * E1).
Proof. cbv zeta. ring. Qed.

Local Notation "a == b" := (cong a b) (at level 70, no associativity).

Lemma cong_eqm (a b : Z) : a == b <-> eqm Q a b.
Proof. reflexivity. Qed.

#[local] Instance cong_equiv : Equivalence cong.
Proof. exact (eqm_setoid Q). Qed.

#[local] Instance cong_add : Proper (cong ==> cong ==> cong) Z.add.
Proof. exact (Zplus_eqm Q). Qed.

#[local] Instance cong_sub : Proper (cong ==> cong ==> cong) Z.sub.
Proof. exact (Zminus_eqm Q). Qed.

#[local] Instance cong_mul : Proper (cong ==> cong ==> cong) Z.mul.
Proof. exact (Zmult_eqm Q). Qed.

Lemma cong_mod (a : Z) : a mod Q == a.
Proof. apply Zmod_mod. Qed.

Lemma cong_0_divide (a : Z) : a == 0 <-> (Q | a).
Proof. unfold cong. rewrite Zmod_0_l. apply Z.mod_divide. discriminate. Qed.

Lemma cong_0_mod (a : Z) : a == 0 <-> a mod Q = 0.
Proof. unfold cong. rewrite Zmod_0_l. reflexivity. Qed.

#[local] Opaque cong.

(** [Q] is prime: the integers modulo [Q] have no zero divisors. *)
Lemma cong_integral (a b : Z) : a * b == 0 -> a == 0 \/ b == 0.
Proof.
  rewrite !cong_0_divide. apply Z.divide_prime_mul. exact Q_prime.
Qed.

Lemma cong_sub_0 (a b : Z) : a == b <-> a - b == 0.
Proof.
  split; intros H.
  - rewrite H. replace (b - b) with 0 by ring. reflexivity.
  - replace a with (a - b + b) by ring. rewrite H. reflexivity.
Qed.

Lemma cong_cancel (c a b : Z) : ~ c == 0 -> c * a == c * b -> a == b.
Proof.
  intros Hc H. apply cong_sub_0. apply cong_sub_0 in H.
  replace (c * a - c * b) with (c * (a - b)) in H by ring.
  destruct (cong_integral _ _ H); [contradiction | assumption].
Qed.

Lemma cong_pow (a b n : Z) : 0 <= n -> a == b -> a ^ n == b ^ n.
Proof.
  intros Hn H. apply cong_eqm. apply cong_eqm in H. unfold eqm in *.
  rewrite (Zpower_mod a), (Zpower_mod b) by reflexivity.
  rewrite H. reflexivity.
Qed.

Lemma cong_fermat (u : Z) : ~ u == 0 -> u ^ (Q - 1) == 1.
Proof.
  intros Hu. apply cong_eqm. unfold eqm.
  rewrite (Z.fermat_nz Q u Q_prime); [reflexivity|].
  intros E. apply Hu, cong_0_mod, E.
Qed.

Lemma D_euler : D ^ ((Q - 1) / 2) mod Q = Q - 1.
Proof.
  rewrite <- modpow_spec by (vm_compute; discriminate).
  vm_compute. reflexivity.
Qed.

(** Euler's criterion, one way: a residue whose power [(Q - 1) / 2] is [-1]
    is not a square. *)
Lemma nonsquare_of_euler (d h u v : Z) :
  0 <= h -> (forall w, ~ w == 0 -> w ^ (2 * h) == 1) -> d ^ h == -1 ->
  ~ u == 0 -> ~ d * (u * u) == v * v.
Proof.
  intros Hh Hfermat Hd Hu H.
  apply (cong_pow _ _ h Hh) in H.
  rewrite Z.pow_mul_l in H.
  replace (u * u) with (u ^ 2) in H by ring.
  replace (v * v) with (v ^ 2) in H by ring.
  rewrite <- !Z.pow_mul_r in H by lia.
  rewrite (Hfermat u Hu), Hd in H.
  assert (Hv : v ^ (2 * h) == 0 \/ v ^ (2 * h) == 1).
  { destruct (Z.eq_dec (v mod Q) 0) as [Hv|Hv].
    - apply cong_0_mod in Hv. apply (cong_pow _ _ (2 * h)) in Hv; [|lia].
      destruct (Z.eq_dec h 0) as [->|Hne].
      + right. reflexivity.
      + left. rewrite Hv. rewrite Z.pow_0_l by lia. reflexivity.
    - right. apply Hfermat. intros E. apply Hv, cong_0_mod, E. }
  destruct Hv as [Hv|Hv]; rewrite Hv in H;
    apply cong_eqm in H; vm_compute in H; discriminate.
Qed.

(** [D] is not a square modulo [Q]. *)
Lemma D_nonsquare (u v : Z) : ~ u == 0 -> ~ D * (u * u) == v * v.
Proof.
  apply (nonsquare_of_euler D ((Q - 1) / 2)).
  - vm_compute. discriminate.
  - intros w Hw. replace (2 * ((Q - 1) / 2)) with (Q - 1) by reflexivity.
    apply cong_fermat, Hw.
  - apply cong_eqm. unfold eqm. rewrite D_euler. vm_compute. reflexivity.
Qed.

Lemma sqrtA_spec : sqrtA * sqrtA == A.
Proof. apply cong_eqm. vm_compute. reflexivity. Qed.

Lemma cong_1_0 : ~ 1 == 0.
Proof. intros H. apply cong_eqm in H. vm_compute in H. discriminate. Qed.

Lemma cong_2_0 : ~ 2 == 0.
Proof. intros H. apply cong_eqm in H. vm_compute in H. discriminate. Qed.

Lemma cong_dec (a : Z) : a == 0 \/ ~ a == 0.
Proof.
  destruct (Z.eq_dec (a mod Q) 0) as [H|H].
  - left. apply cong_0_mod, H.
  - right. intros E. apply H, cong_0_mod, E.
Qed.

Lemma isOnCurve_cong (x y : Z) :
  isOnCurve x y = true <->
  A * (x * x) + y * y - (1 + D * (x * x) * (y * y)) == 0.
Proof.
  rewrite isOnCurve_spec, <- cong_sub_0. symmetry. apply cong_eqm.
Qed.

(** With [t = D x1 x2 y1 y2] congruent to [e = 1] or [e = -1], both
    [sqrtA x1 + e y1] and [sqrtA x1 - e y1] have a square that is [D] times a
    square. *)
Lemma completeness_squares (x1 y1 x2 y2 e sg : Z) :
  isOnCurve x1 y1 = true -> isOnCurve x2 y2 = true ->
  e * e - 1 == 0 -> sg * sg - 1 = 0 ->
  e - D * x1 * x2 * y1 * y2 == 0 ->
  let u := x1 * y1 * (sqrtA * x2 + sg * y2) in
  let v := sqrtA * x1 + sg * e * y1 in
  D * (u * u) == v * v.
Proof.
  intros H1 H2 He Hsg Ht u v.
  apply isOnCurve_cong in H1, H2.
  pose proof sqrtA_spec as Hs. apply cong_sub_0 in Hs.
  symmetry. apply cong_sub_0.
  set (m1 := D * (x1 * x1) * (y1 * y1)).
  set (t := D * x1 * x2 * y1 * y2) in *.
  set (E1 := A * (x1 * x1) + y1 * y1 - (1 + D * (x1 * x1) * (y1 * y1))) in *.
  set (E2 := A * (x2 * x2) + y2 * y2 - (1 + D * (x2 * x2) * (y2 * y2))) in *.
  replace (v * v - D * (u * u)) with
    ((sqrtA * sqrtA - A) * (x1 * x1 - m1 * (x2 * x2))
     + (e * e - 1) * (y1 * y1 - 1) + E1 - m1 * E2
     + (e - t) * (e + t + 2 * sg * sqrtA * x1 * y1)
     + (sg * sg - 1) * (e * e * (y1 * y1) - m1 * (y2 * y2))).
  - rewrite Hs, He, H1, H2, Ht, Hsg.
    match goal with |- ?x == 0 => replace x with 0 by ring end. reflexivity.
  - unfold u, v, m1, t, E1, E2. ring.
Qed.

(** The addition law is complete: for two points of the curve the
    denominators [1 + t] and [1 - t], [t = D x1 x2 y1 y2], are not [0]
    modulo [Q]. *)
Lemma completeness_sign (x1 y1 x2 y2 e : Z) :
  isOnCurve x1 y1 = true -> isOnCurve x2 y2 = true ->
  e * e - 1 == 0 -> ~ e - D * x1 * x2 * y1 * y2 == 0.
Proof.
  intros H1 H2 He Ht.
  assert (Hnz : forall sg, sg * sg - 1 = 0 ->
            x1 * y1 * (sqrtA * x2 + sg * y2) == 0).
  { intros sg Hsg.
    destruct (cong_dec (x1 * y1 * (sqrtA * x2 + sg * y2))) as [E|NE]; [exact E|].
    exfalso. apply (D_nonsquare _ (sqrtA * x1 + sg * e * y1) NE).
    apply completeness_squares; assumption. }
  assert (Hx1y1 : ~ x1 * y1 == 0).
  { intros E. apply cong_1_0.
    replace 1 with
      (e * (e - D * x1 * x2 * y1 * y2) + e * D * x2 * y2 * (x1 * y1)
       - (e * e - 1)) at 1 by ring.
    rewrite He, Ht, E.
    match goal with |- ?x == 0 => replace x with 0 by ring end. reflexivity. }
  assert (Hp : sqrtA * x2 + 1 * y2 == 0).
  { destruct (cong_integral _ _ (Hnz 1 eq_refl)); [contradiction | assumption]. }
  assert (Hm : sqrtA * x2 + -1 * y2 == 0).
  { destruct (cong_integral _ _ (Hnz (-1) eq_refl)); [contradiction | assumption]. }
  assert (Hy2 : y2 == 0).
  { assert (H2y : 2 * y2 == 0).
    { replace (2 * y2) with
        ((sqrtA * x2 + 1 * y2) - (sqrtA * x2 + -1 * y2)) by ring.
      rewrite Hp, Hm. reflexivity. }
    destruct (cong_integral _ _ H2y) as [E|E]; [|exact E].
    exfalso. exact (cong_2_0 E). }
  apply cong_1_0.
  replace 1 with
    (e * (e - D * x1 * x2 * y1 * y2) + e * D * x1 * x2 * y1 * y2
     - (e * e - 1)) at 1 by ring.
  rewrite He, Ht, Hy2.
  match goal with |- ?x == 0 => replace x with 0 by ring end. reflexivity.
Qed.

Lemma addition_law_complete (x1 y1 x2 y2 : Z) :
  isOnCurve x1 y1 = true -> isOnCurve x2 y2 = true ->
  ~ 1 + D * x1 * x2 * y1 * y2 == 0 /\ ~ 1 - D * x1 * x2 * y1 * y2 == 0.
Proof.
  intros H1 H2. split; intros H.
  - apply (completeness_sign x1 y1 x2 y2 (-1) H1 H2); [reflexivity|].
    replace (-1 - D * x1 * x2 * y1 * y2)
      with (-1 * (1 + D * x1 * x2 * y1 * y2)) by ring.
    rewrite H. reflexivity.
  - apply (completeness_sign x1 y1 x2 y2 1 H1 H2); [reflexivity|exact H].
Qed.

Lemma mulmod_cong (a b : Z) : mulmod a b Q == a * b.
Proof. rewrite mulmod_Q. apply cong_mod. Qed.

Lemma addmod_cong (a b : Z) : addmod a b Q == a + b.
Proof. rewrite addmod_Q. apply cong_mod. Qed.

Lemma mulmod_range (a b : Z) : 0 <= mulmod a b Q < Q.
Proof. rewrite mulmod_Q. apply mod_range. Qed.

Lemma submod_cong (a b : Z) : 0 <= a < Q -> 0 <= b < Q -> submod a b Q == a - b.
Proof.
  intros Ha Hb. rewrite submod_spec by (apply Q_pos || assumption). apply cong_mod.
Qed.

Lemma inverse_cong (a : Z) : ~ a == 0 -> a * inverse a == 1.
Proof.
  intros Ha. rewrite <- mulmod_cong. rewrite inverse_spec; [reflexivity|].
  intros E. apply Ha, cong_0_mod, E.
Qed.

(** The formulas of [pointAdd], past its two early returns: the sum has
    reduced coordinates, and they are the quotients of the addition law
    wherever the denominators are not [0]. *)
Lemma pointAdd_formula (x1 y1 x2 y2 : Z) :
  (x1 =? 0) && (y1 =? 0) = false -> (x2 =? 0) && (y1 =? 0) = false ->
  let t := D * x1 * x2 * y1 * y2 in
  let P := pointAdd x1 y1 x2 y2 in
  (0 <= P.1 < Q /\ 0 <= P.2 < Q) /\
  (~ 1 + t == 0 -> P.1 * (1 + t) == x1 * y2 + y1 * x2) /\
  (~ 1 - t == 0 -> P.2 * (1 - t) == y1 * y2 - A * x1 * x2).
Proof.
  intros E1 E2 t P. unfold P, pointAdd. rewrite E1, E2. cbv zeta. cbn [fst snd].
  set (dx := mulmod D (mulmod (mulmod x1 x2 Q) (mulmod y1 y2 Q) Q) Q).
  assert (Hdx : dx == t).
  { unfold dx, t. rewrite !mulmod_cong.
    match goal with |- ?a == ?b => replace a with b by ring end. reflexivity. }
  assert (Hdxr : 0 <= dx < Q) by apply mulmod_range.
  clearbody dx.
  assert (H1Q : 0 <= 1 < Q) by (vm_compute; split; [discriminate | reflexivity]).
  split; [split; apply mulmod_range|]. split.
  - intros Hden.
    assert (Hd1 : addmod 1 dx Q == 1 + t) by (rewrite addmod_cong, Hdx; reflexivity).
    rewrite mulmod_cong, addmod_cong, !mulmod_cong.
    rewrite <- Hd1.
    rewrite <- Z.mul_assoc, (Z.mul_comm (inverse _)).
    rewrite inverse_cong by (rewrite Hd1; exact Hden).
    rewrite Z.mul_1_r. reflexivity.
  - intros Hden.
    assert (Hd2 : submod 1 dx Q == 1 - t).
    { rewrite submod_cong by assumption. rewrite Hdx. reflexivity. }
    rewrite mulmod_cong.
    rewrite (submod_cong (mulmod y1 y2 Q)) by apply mulmod_range.
    rewrite !mulmod_cong. rewrite <- Hd2.
    rewrite <- Z.mul_assoc, (Z.mul_comm (inverse _)).
    rewrite inverse_cong by (rewrite Hd2; exact Hden).
    rewrite Z.mul_1_r, Z.mul_assoc. reflexivity.
Qed.

(** The addition law is closed on the curve, the early returns of
    [pointAdd] included. *)
Lemma pointAdd_closed (x1 y1 x2 y2 : Z) :
  isOnCurve x1 y1 = true -> isOnCurve x2 y2 = true ->
  isOnCurve (pointAdd x1 y1 x2 y2).1 (pointAdd x1 y1 x2 y2).2 = true.
Proof.
  intros H1 H2.
  destruct ((x1 =? 0) && (y1 =? 0)) eqn:E1.
  { apply andb_true_iff in E1 as [->%Z.eqb_eq ->%Z.eqb_eq].
    vm_compute in H1. discriminate. }
  destruct ((x2 =? 0) && (y1 =? 0)) eqn:E2.
  { unfold pointAdd. rewrite E1, E2. exact H1. }
  destruct (pointAdd_formula x1 y1 x2 y2 E1 E2) as (_ & HX & HY).
  destruct (addition_law_complete x1 y1 x2 y2 H1 H2) as [Hd1 Hd2].
  specialize (HX Hd1). specialize (HY Hd2).
  set (X := (pointAdd x1 y1 x2 y2).1) in *.
  set (Y := (pointAdd x1 y1 x2 y2).2) in *.
  clearbody X Y.
  set (t := D * x1 * x2 * y1 * y2) in *.
  set (N1 := x1 * y2 + y1 * x2) in *.
  set (N2 := y1 * y2 - A * x1 * x2) in *.
  apply isOnCurve_cong.
  apply (cong_cancel ((1 + t) * (1 + t) * ((1 - t) * (1 - t)))).
  { intros E. destruct (cong_integral _ _ E) as [E'|E'];
      destruct (cong_integral _ _ E'); contradiction. }
  rewrite Z.mul_0_r.
  replace ((1 + t) * (1 + t) * ((1 - t) * (1 - t))
           * (A * (X * X) + Y * Y - (1 + D * (X * X) * (Y * Y))))
    with (A * ((X * (1 + t)) * (X * (1 + t))) * ((1 - t) * (1 - t))
          + (Y * (1 - t)) * (Y * (1 - t)) * ((1 + t) * (1 + t))
          - ((1 + t) * (1 + t) * ((1 - t) * (1 - t))
             + D * ((X * (1 + t)) * (X * (1 + t))) * ((Y * (1 - t)) * (Y * (1 - t)))))
    by ring.
  rewrite HX, HY.
  unfold N1, N2, t.
  rewrite (addition_law_identity A D x1 y1 x2 y2).
  apply isOnCurve_cong in H1, H2. rewrite H1, H2.
  match goal with |- ?x == 0 => replace x with 0 by ring end. reflexivity.
Qed.

(** X2. [pointAdd] is closed on the curve: the sum of two points that
    [isOnCurve] accepts is a point that [isOnCurve] accepts, the early returns
    included; and when the coordinates of both points are below [Q], so are
    those of the sum. *)
Theorem pointAdd_on_curve (x1 y1 x2 y2 : Z) :
  isOnCurve x1 y1 = true -> isOnCurve x2 y2 = true ->
  isOnCurve (pointAdd x1 y1 x2 y2).1 (pointAdd x1 y1 x2 y2).2 = true /\
  (0 <= x1 < Q -> 0 <= y1 < Q -> 0 <= x2 < Q -> 0 <= y2 < Q ->
   0 <= (pointAdd x1 y1 x2 y2).1 < Q /\ 0 <= (pointAdd x1 y1 x2 y2).2 < Q).
Proof.
  intros H1 H2. split; [apply pointAdd_closed; assumption|].
  intros Hx1 Hy1 Hx2 Hy2.
  destruct ((x1 =? 0) && (y1 =? 0)) eqn:E1.
  { unfold pointAdd. rewrite E1. split; assumption. }
  destruct ((x2 =? 0) && (y1 =? 0)) eqn:E2.
  { unfold pointAdd. rewrite E1, E2. split; assumption. }
  apply (pointAdd_formula x1 y1 x2 y2 E1 E2).
Qed.

Lemma double_and_add_on_curve (p : positive) : forall P acc : Z * Z,
  isOnCurve P.1 P.2 = true ->
  acc = (0, 0) \/ isOnCurve acc.1 acc.2 = true ->
  isOnCurve (double_and_add (digits_pos p) P acc).1
            (double_and_add (digits_pos p) P acc).2 = true.
Proof.
  assert (Hadd : forall P acc : Z * Z,
            isOnCurve P.1 P.2 = true ->
            acc = (0, 0) \/ isOnCurve acc.1 acc.2 = true ->
            isOnCurve (point_add acc P).1 (point_add acc P).2 = true).
  { intros P acc HP [->|Hacc].
    - rewrite point_add_identity_l. exact HP.
    - apply pointAdd_closed; assumption. }
  induction p as [p IH|p IH|]; intros P acc HP Hacc;
    cbn [digits_pos double_and_add].
  - apply IH; [apply pointAdd_closed; assumption|].
    right. apply Hadd; assumption.
  - apply IH; [apply pointAdd_closed; assumption | exact Hacc].
  - apply Hadd; assumption.
Qed.

(** X3. [pointMul] stays on the curve: for a point that [isOnCurve] accepts
    and a [uint256] scalar other than 0, the loop ends and returns a point
    that [isOnCurve] accepts. *)
Theorem pointMul_on_curve (x y s : Z) :
  isOnCurve x y = true -> 0 < s < 2 ^ 256 ->
  exists P : Z * Z,
    pointMul x y s = Some P /\ isOnCurve P.1 P.2 = true.
Proof.
  intros Hc [Hs0 Hs]. destruct s as [|p|p]; [lia| |lia].
  unfold pointMul.
  rewrite pointMul_loop_digits by (apply (digits_pos_length p 256); exact Hs).
  eexists. split; [reflexivity|].
  apply double_and_add_on_curve; [exact Hc | left; reflexivity].
Qed.

Lemma inverse_1 : inverse 1 = 1.
Proof. unfold inverse. rewrite expmod_Q, Z.pow_1_l by (vm_compute; discriminate). reflexivity. Qed.

(** X4. [(0, 1)] is the neutral element of [pointAdd]: on the left for every
    point, up to the reduction of its coordinates, and on the right for every
    point other than [(0, 0)]. *)
Theorem pointAdd_neutral (x y : Z) :
  pointAdd 0 1 x y = (x mod Q, y mod Q) /\
  ((x =? 0) && (y =? 0) = false ->
   pointAdd x y 0 1 = if y =? 0 then (x, y) else (x mod Q, y mod Q)).
Proof.
  assert (H1 : addmod 1 0 Q = 1) by reflexivity.
  assert (H2 : submod 1 0 Q = 1) by reflexivity.
  assert (H1Q : 0 <= 0 < Q) by (vm_compute; split; [discriminate | reflexivity]).
  split.
  - unfold pointAdd. cbn [Z.eqb andb]. rewrite andb_false_r.
    rewrite !mulmod_Q.
    repeat (progress (rewrite ?Z.mul_0_l, ?Z.mul_0_r, ?Z.mul_1_l;
                      change (0 mod Q) with 0)).
    rewrite ?H1, ?H2, ?inverse_1, ?Z.mul_1_r.
    rewrite addmod_Q, Z.add_0_l.
    rewrite submod_spec by (apply Q_pos || apply mod_range || exact H1Q).
    rewrite Z.sub_0_r, !Zmod_mod. reflexivity.
  - intros E. unfold pointAdd. rewrite E. cbn [Z.eqb andb].
    destruct (y =? 0); [reflexivity|].
    rewrite !mulmod_Q.
    repeat (progress (rewrite ?Z.mul_0_l, ?Z.mul_0_r, ?Z.mul_1_r;
                      change (0 mod Q) with 0)).
    rewrite ?H1, ?H2, ?inverse_1, ?Z.mul_1_r.
    rewrite addmod_Q, Z.add_0_r.
    rewrite submod_spec by (apply Q_pos || apply mod_range || exact H1Q).
    rewrite Z.sub_0_r, !Zmod_mod. reflexivity.
Qed.

(** X5. [inverse] returns the inverse modulo [Q] of every residue other than
    0, below [Q]; of a multiple of [Q] it returns 0 and does not revert. *)
Theorem inverse_correct (a : Z) :
  0 <= inverse a < Q /\
  (a mod Q <> 0 -> (a * inverse a) mod Q = 1) /\
  (a mod Q = 0 -> inverse a = 0).
Proof.
  split; [|split].
  - unfold inverse. rewrite expmod_Q. apply mod_range.
  - intros Ha. rewrite <- mulmod_Q. apply inverse_spec, Ha.
  - intros Ha. unfold inverse. rewrite expmod_Q.
    rewrite Zpower_mod, Ha by reflexivity.
    rewrite Z.pow_0_l by (vm_compute; reflexivity). reflexivity.
Qed.

(** X6. [submod(a, b, m)] on operands below a modulus of at most 255 bits:
    neither of its checked operations overflows, and the result is
    [(a - b) mod m]. *)
Theorem submod_correct (a b m : Z) :
  0 <= a < m -> 0 <= b < m -> m < 2 ^ 255 ->
  (let aNN := if a <=? b then a + m else a in 0 <= aNN < WORD /\ 0 <= aNN - b) /\
  submod a b m = (a - b) mod m /\
  0 <= submod a b m < m.
Proof.
  intros Ha Hb Hm. split; [apply submod_in_range; assumption|].
  rewrite submod_spec by lia. split; [reflexivity|].
  apply Z.mod_pos_bound. lia.
Qed.

(** X7. [isOnCurve] is the curve equation [A x^2 + y^2 = 1 + D x^2 y^2] modulo
    [Q], and it reads its arguments modulo [Q]: a coordinate and the same
    coordinate plus a multiple of [Q] are accepted alike. *)
Theorem isOnCurve_modulo (x y k l : Z) :
  (isOnCurve x y = true <->
   (A * (x * x) + y * y) mod Q = (1 + D * (x * x) * (y * y)) mod Q) /\
  isOnCurve (x + k * Q) (y + l * Q) = isOnCurve x y.
Proof.
  split; [apply isOnCurve_spec|].
  unfold isOnCurve. rewrite !mulmod_Q.
  replace ((x + k * Q) * (x + k * Q)) with (x * x + (2 * x * k + k * k * Q) * Q) by ring.
  replace ((y + l * Q) * (y + l * Q)) with (y * y + (2 * y * l + l * l * Q) * Q) by ring.
  rewrite !Z_mod_plus_full. reflexivity.
Qed.

(** X8. [pointAdd] is commutative wherever neither order takes an early
    return, in particular on points whose [y] is not 0. *)
Theorem pointAdd_comm (x1 y1 x2 y2 : Z) :
  y1 <> 0 -> y2 <> 0 -> pointAdd x1 y1 x2 y2 = pointAdd x2 y2 x1 y1.
Proof.
  intros H1 H2. unfold pointAdd.
  apply Z.eqb_neq in H1, H2. rewrite H1, H2, !andb_false_r. cbv zeta.
  rewrite !mulmod_Q, !addmod_Q.
  rewrite (Z.mul_comm x2 x1), (Z.mul_comm y2 y1), (Z.mul_comm x2 y1), (Z.mul_comm y2 x1).
  rewrite (Z.add_comm ((y1 * x2) mod Q)). reflexivity.
Qed.

(** ** [Pairing.negate] *)

(** X9. [negate] maps [(0, 0)] to itself; on a point with coordinates below
    the modulus and [Y] other than 0 it returns [(X, q - Y)], again such a
    point, and negating twice gives the point back. A point with [Y = 0]
    and [X] other than 0 it maps to [(X, q)], whose [Y] is not below the
    modulus and which [negate] itself rejects with [InvalidProof]. *)
Theorem negate_spec :
  Pairing.negate (0, 0) = Some (0, 0) /\
  (forall x y : Z,
      0 <= x < Pairing.BASE_MODULUS -> 0 < y < Pairing.BASE_MODULUS ->
      Pairing.negate (x, y) = Some (x, Pairing.BASE_MODULUS - y) /\
      0 < Pairing.BASE_MODULUS - y < Pairing.BASE_MODULUS /\
      Pairing.negate (x, Pairing.BASE_MODULUS - y) = Some (x, y)) /\
  (forall x : Z,
      0 < x < Pairing.BASE_MODULUS ->
      Pairing.negate (x, 0) = Some (x, Pairing.BASE_MODULUS) /\
      Pairing.negate (x, Pairing.BASE_MODULUS) = None) /\
  (forall x y : Z,
      Pairing.BASE_MODULUS <= x \/ Pairing.BASE_MODULUS <= y ->
      Pairing.negate (x, y) = None).
Proof.
  assert (HB : 0 < Pairing.BASE_MODULUS) by reflexivity.
  split; [reflexivity|]. split; [|split].
  - intros x y Hx Hy.
    assert (Hneg : forall y', 0 < y' < Pairing.BASE_MODULUS ->
              Pairing.negate (x, y') = Some (x, Pairing.BASE_MODULUS - y')).
    { intros y' Hy'. unfold Pairing.negate. cbn [fst snd].
      destruct (Z.eqb_spec y' 0); [lia|]. rewrite andb_false_r.
      destruct (Z.leb_spec Pairing.BASE_MODULUS x); [lia|].
      destruct (Z.leb_spec Pairing.BASE_MODULUS y'); [lia|]. reflexivity. }
    split; [apply Hneg, Hy|]. split; [lia|].
    rewrite Hneg by lia. do 2 f_equal. lia.
  - intros x Hx. unfold Pairing.negate. cbn [fst snd].
    destruct (Z.eqb_spec x 0); [lia|]. cbn [andb].
    destruct (Z.leb_spec Pairing.BASE_MODULUS x); [lia|]. cbn [orb].
    change (Pairing.BASE_MODULUS <=? 0) with false.
    rewrite Z.sub_0_r, Z.leb_refl. split; reflexivity.
  - intros x y Hxy. unfold Pairing.negate. cbn [fst snd].
    destruct (Z.eqb_spec x 0); destruct (Z.eqb_spec y 0); cbn [andb]; try lia;
      destruct (Z.leb_spec Pairing.BASE_MODULUS x);
      destruct (Z.leb_spec Pairing.BASE_MODULUS y); cbn [orb]; try reflexivity; lia.
Qed.

(** ** Who may call, and what a call may touch *)

(** X10. The entry points of a game answer to the game contract only: from any
    other sender [setGameSettings], [register] and [shuffle] revert with
    "Caller is not game contract" and change nothing; so does [deal], whose
    modifier [inDealingPhase] comes first and reverts before it in a game
    that is not dealing. *)
Theorem only_the_game_contract
    (shuffleEncryptVerifier decryptVerifier : list Z -> list Z -> bool)
    (s : Storage) (msg_sender : address) (c : Call) (gameId : Z) :
  msg_sender <> gameContract s ->
  game_of c = Some gameId ->
  step shuffleEncryptVerifier decryptVerifier msg_sender c s
  = (s, Some match c with
             | CallDeal _ _ _ _ _ _ _ =>
                 if bool_decide (state_of s gameId = DealingCard)
                 then NotGameContract else InvalidState
             | _ => NotGameContract
             end).
Proof.
  intros Hne Hg. apply transact_revert.
  assert (E : (gameContract s =? msg_sender) = false) by (apply Z.eqb_neq; congruence).
  destruct c; try discriminate; injection Hg as ->; cbn [exec].
  - unfold setGameSettings, onlyGameContract. rewrite E. reflexivity.
  - unfold register, onlyGameContract. rewrite E. reflexivity.
  - unfold shuffle, onlyGameContract. rewrite E. reflexivity.
  - unfold deal, deal_before_verifier, inDealingPhase, onlyGameContract.
    rewrite E. destruct (bool_decide _); reflexivity.
Qed.

(** What the four entry points of a game leave alone. *)
Lemma game_call_admin
    (shuffleEncryptVerifier decryptVerifier : list Z -> list Z -> bool)
    (msg_sender : address) (c : Call) (s s' : Storage) (gameId : Z) :
  exec shuffleEncryptVerifier decryptVerifier msg_sender c s = Ok s' ->
  game_of c = Some gameId ->
  msg_sender = gameContract s /\
  owner s' = owner s /\ gameContract s' = gameContract s.
Proof.
  intros Hexec Hg. destruct c; try discriminate; cbn [exec] in Hexec.
  - unfold setGameSettings, onlyGameContract in Hexec. inv_bind Hexec.
    apply require_Ok_inv, Z.eqb_eq in Hv. injection Hexec as <-. auto.
  - apply register_Ok_inv in Hexec. cbv zeta in Hexec.
    destruct Hexec as (Hs & _ & _ & [(_ & ->)|(_ & agg & _ & ->)]).
    + auto.
    + unfold initDeck. destruct (_ =? 0); auto.
  - apply shuffle_Ok_inv in Hexec as (Hs & _ & _ & _ & ->). cbv zeta.
    destruct (_ =? _); auto.
  - pose proof Hexec as Hd. apply deal_Ok_inv in Hd as (cd & -> & _).
    unfold deal, deal_before_verifier, onlyGameContract in Hexec.
    inv_bind Hexec. inv_bind Hv. apply require_Ok_inv, Z.eqb_eq in Hv2. auto.
Qed.

(** X11. Only the owner changes the owner or the game contract: a call that
    succeeds from any other sender leaves both as they were, and a call of
    the game contract never changes them. *)
Theorem admin_only_by_the_owner
    (shuffleEncryptVerifier decryptVerifier : list Z -> list Z -> bool)
    (msg_sender : address) (c : Call) (s s' : Storage) :
  exec shuffleEncryptVerifier decryptVerifier msg_sender c s = Ok s' ->
  (msg_sender <> owner s \/ game_of c <> None) ->
  owner s' = owner s /\ gameContract s' = gameContract s.
Proof.
  intros Hexec Hwho.
  destruct (game_of c) as [g|] eqn:Hg.
  - eapply game_call_admin in Hexec as (_ & ? & ?); eauto.
  - destruct Hwho as [Hne|?]; [|congruence].
    destruct c; try discriminate; cbn [exec] in Hexec.
    + unfold setGameContract, onlyOwner in Hexec. inv_bind Hexec.
      apply require_Ok_inv, Z.eqb_eq in Hv. congruence.
    + unfold transferOwnership, onlyOwner in Hexec. inv_bind Hexec.
      apply require_Ok_inv, Z.eqb_eq in Hv. congruence.
    + unfold renounceOwnership, onlyOwner in Hexec. inv_bind Hexec.
      apply require_Ok_inv, Z.eqb_eq in Hv. congruence.
Qed.

(** Reading a game after writes: every getter over every setter. *)
Ltac getset :=
  unfold state_of, playerIndex_of, numPlayers_of, deck_of, cardDeal_of,
    playerInfo_of;
  cbn [states playerIndexes numPlayers decks cardDeals playerInfos initialDeck
       owner gameContract set_state set_playerIndex set_numPlayers set_deck
       set_cardDeal set_playerInfo set_initialDeck set_owner set_gameContract];
  rewrite ?lookup_insert_eq;
  rewrite ?lookup_insert_ne by congruence.

Lemma updateDeck_other_game (s : Storage) (x0 x1 : list Z) (sel : Z * Z)
    (gameId g : Z) :
  gameId <> g -> deck_of (updateDeck s x0 x1 sel gameId) g = deck_of s g.
Proof. intros Hne. unfold updateDeck. apply deck_of_set_ne, Hne. Qed.

Lemma initDeck_other_game (s : Storage) (gameId g : Z) :
  gameId <> g -> deck_of (initDeck s gameId) g = deck_of s g.
Proof.
  intros Hne. unfold initDeck. destruct (gameId =? 0); [reflexivity|].
  apply deck_of_set_ne, Hne.
Qed.

(** A call that succeeds leaves the games it is not about as they were. *)
Lemma exec_other_game
    (shuffleEncryptVerifier decryptVerifier : list Z -> list Z -> bool)
    (msg_sender : address) (c : Call) (s s' : Storage) (g : Z) :
  exec shuffleEncryptVerifier decryptVerifier msg_sender c s = Ok s' ->
  game_of c <> Some g ->
  game_view s' g = game_view s g.
Proof.
  intros Hexec Hg. unfold game_view.
  destruct c; cbn [exec game_of] in *.
  - unfold setGameSettings in Hexec. inv_bind Hexec. injection Hexec as <-.
    getset. reflexivity.
  - unfold setGameContract in Hexec. inv_bind Hexec. injection Hexec as <-.
    reflexivity.
  - unfold transferOwnership in Hexec. inv_bind Hexec. injection Hexec as <-.
    reflexivity.
  - unfold renounceOwnership in Hexec. inv_bind Hexec. injection Hexec as <-.
    reflexivity.
  - apply register_Ok_inv in Hexec. cbv zeta in Hexec.
    destruct Hexec as (_ & _ & _ & [(_ & ->)|(_ & agg & _ & ->)]).
    + getset. reflexivity.
    + assert (Hne : gameId <> g) by congruence.
      match goal with
      | |- context [initDeck ?s0 gameId] =>
          destruct (initDeck_frame s0 gameId g) as (E1 & E2 & E3 & E4 & E5);
          rewrite (initDeck_other_game s0 gameId g Hne), E1, E2, E3, E4, E5
      end.
      getset. reflexivity.
  - apply shuffle_Ok_inv in Hexec as (_ & _ & _ & _ & ->). cbv zeta.
    assert (Hne : gameId <> g) by congruence.
    pose proof (updateDeck_other_game s shuffledX0 shuffledX1 selector gameId g Hne)
      as Hdeck.
    pose proof (updateDeck_frame s shuffledX0 shuffledX1 selector gameId g)
      as (Hcd & Hinfo & Hidx & Hn & Hst).
    cbv zeta in *.
    set (s1 := updateDeck s shuffledX0 shuffledX1 selector gameId) in *.
    clearbody s1.
    rewrite <- Hdeck, <- Hcd, <- Hinfo, <- Hidx, <- Hn, <- Hst.
    destruct (_ =? _); getset; reflexivity.
  - apply deal_Ok_inv in Hexec as (cd & -> & _). getset. reflexivity.
Qed.

(** X12. Games are isolated: a transaction about one game, reverted or not,
    leaves the state, turn index, number of players, deck, deal and players
    of every other game as they were; the transactions of the owner leave
    every game as it was. *)
Theorem games_are_isolated
    (shuffleEncryptVerifier decryptVerifier : list Z -> list Z -> bool)
    (msg_sender : address) (c : Call) (s : Storage) (g : Z) :
  game_of c <> Some g ->
  game_view (step shuffleEncryptVerifier decryptVerifier msg_sender c s).1 g
  = game_view s g.
Proof.
  intros Hg. unfold step, transact.
  destruct (exec _ _ msg_sender c s) as [s'|e] eqn:Hexec; cbn [fst];
    [|reflexivity].
  eapply exec_other_game; eassumption.
Qed.

(** ** The states of a game *)

(** The one way each call changes the state of a game. *)
Lemma exec_state_change
    (shuffleEncryptVerifier decryptVerifier : list Z -> list Z -> bool)
    (msg_sender : address) (c : Call) (s s' : Storage) (g : Z) :
  exec shuffleEncryptVerifier decryptVerifier msg_sender c s = Ok s' ->
  state_of s' g <> state_of s g ->
  game_of c = Some g /\
  match c with
  | CallSetGameSettings _ _ => state_of s' g = Registration
  | CallRegister _ _ _ =>
      state_of s g = Registration /\ state_of s' g = ShufflingDeck /\
      playerIndex_of s g + 1 = numPlayers_of s g
  | CallShuffle _ _ _ _ _ _ _ =>
      state_of s g = ShufflingDeck /\ state_of s' g = DealingCard /\
      playerIndex_of s g + 1 = numPlayers_of s g
  | _ => False
  end.
Proof.
  intros Hexec Hch.
  destruct (decide (game_of c = Some g)) as [Hg|Hg].
  2:{ exfalso. apply Hch.
      pose proof (exec_other_game _ _ _ _ _ _ g Hexec Hg) as Hv.
      unfold game_view in Hv. congruence. }
  split; [exact Hg|].
  destruct c; try discriminate; injection Hg as ->; cbn [exec] in Hexec.
  - unfold setGameSettings in Hexec. inv_bind Hexec. injection Hexec as <-.
    apply state_of_set.
  - apply register_Ok_inv in Hexec. cbv zeta in Hexec.
    destruct Hexec as (_ & Hst & _ & [(_ & ->)|(E & agg & _ & ->)]).
    + exfalso. apply Hch. reflexivity.
    + split; [exact Hst|]. split; [|exact E].
      match goal with
      | |- context [initDeck ?s0 g] =>
          destruct (initDeck_frame s0 g g) as (_ & _ & _ & _ & ->)
      end.
      getset. reflexivity.
  - apply shuffle_Ok_inv in Hexec as (_ & Hst & _ & _ & ->). cbv zeta in *.
    destruct (Z.eqb_spec (playerIndex_of s g + 1) (numPlayers_of s g)) as [E|NE].
    + split; [exact Hst|]. split; [|exact E]. getset. reflexivity.
    + exfalso. apply Hch. reflexivity.
  - apply deal_Ok_inv in Hexec as (cd & -> & _). apply Hch. reflexivity.
Qed.

(** X13. The state machine the contract runs. A game is only ever
    [Uncreated], in [Registration], in [ShufflingDeck] or in [DealingCard].
    [setGameSettings] puts it in [Registration] from any state; the
    registration that brings the turn index to the number of players moves it
    to [ShufflingDeck]; the shuffle that does so moves it to [DealingCard];
    nothing else changes the state, and nothing leaves [DealingCard] but
    [setGameSettings]. *)
Theorem state_machine
    (shuffleEncryptVerifier decryptVerifier : list Z -> list Z -> bool)
    (deployer : address) (s : Storage) :
  reachable shuffleEncryptVerifier decryptVerifier deployer s ->
  (forall g, state_of s g = Uncreated \/ state_of s g = Registration \/
             state_of s g = ShufflingDeck \/ state_of s g = DealingCard) /\
  (forall msg_sender c s' g,
      exec shuffleEncryptVerifier decryptVerifier msg_sender c s = Ok s' ->
      state_of s' g <> state_of s g ->
      game_of c = Some g /\
      match c with
      | CallSetGameSettings _ _ => state_of s' g = Registration
      | CallRegister _ _ _ =>
          state_of s g = Registration /\ state_of s' g = ShufflingDeck /\
          playerIndex_of s g + 1 = numPlayers_of s g
      | CallShuffle _ _ _ _ _ _ _ =>
          state_of s g = ShufflingDeck /\ state_of s' g = DealingCard /\
          playerIndex_of s g + 1 = numPlayers_of s g
      | _ => False
      end).
Proof.
  intros Hreach. split; [|intros; eapply exec_state_change; eassumption].
  induction Hreach as [|s msg_sender c Hreach IH]; intros g.
  - left. reflexivity.
  - unfold step, transact.
    destruct (exec _ _ msg_sender c s) as [s'|e] eqn:Hexec; cbn [fst]; [|apply IH].
    destruct (decide (state_of s' g = state_of s g)) as [->|Hch]; [apply IH|].
    destruct (exec_state_change _ _ _ _ _ _ g Hexec Hch) as [_ H].
    destruct c; try contradiction; intuition.
Qed.

(** ** Registration *)

(** X14. A registration closes only when the turn index steps onto the number
    of players, and the index only grows: a game in [Registration] whose
    number of players is at or below its turn index, as one set up for 0
    players is, stays in [Registration] under every call but a new
    [setGameSettings] for it. *)
Theorem registration_past_numPlayers_never_closes
    (shuffleEncryptVerifier decryptVerifier : list Z -> list Z -> bool)
    (msg_sender : address) (c : Call) (s s' : Storage) (g : Z) :
  state_of s g = Registration ->
  numPlayers_of s g <= playerIndex_of s g ->
  exec shuffleEncryptVerifier decryptVerifier msg_sender c s = Ok s' ->
  (forall n, c <> CallSetGameSettings n g) ->
  state_of s' g = Registration /\ numPlayers_of s' g <= playerIndex_of s' g.
Proof.
  intros Hst Hn Hexec Hc.
  destruct (decide (game_of c = Some g)) as [Hg|Hg].
  2:{ pose proof (exec_other_game _ _ _ _ _ _ g Hexec Hg) as Hv.
      unfold game_view in Hv. injection Hv as -> -> -> _ _ _. auto. }
  destruct c; try discriminate; injection Hg as ->; cbn [exec] in Hexec.
  - exfalso. eapply Hc. reflexivity.
  - apply register_Ok_inv in Hexec. cbv zeta in Hexec.
    destruct Hexec as (_ & _ & _ & [(_ & ->)|(E & _)]); [|lia].
    split; [exact Hst|].
    change (numPlayers_of (set_playerIndex (set_playerInfo s g ?i) g ?j) g)
      with (numPlayers_of s g).
    rewrite playerIndex_of_set. lia.
  - apply shuffle_Ok_inv in Hexec as (_ & Hst' & _). congruence.
  - unfold deal, deal_before_verifier, inDealingPhase in Hexec.
    inv_bind Hexec. inv_bind Hv.
    apply require_Ok_inv, bool_decide_eq_true_1 in Hv1. congruence.
Qed.

Lemma at_dyn_Ok_inv {T : Type} (d : T) (a : list T) (i : Z) (v : T) :
  at_dyn d a i = Ok v -> 0 <= i < Z.of_nat (length a) /\ v = nth (Z.to_nat i) a d.
Proof.
  unfold at_dyn. destruct (Z.leb_spec 0 i); [|discriminate].
  destruct (Z.ltb_spec i (Z.of_nat (length a))); [|discriminate]. simpl.
  intros [= <-]. split; [lia | reflexivity].
Qed.

Lemma checked_mul_Ok (a b v : Z) : checked_mul a b = Ok v -> v = a * b /\ a * b < WORD.
Proof.
  unfold checked_mul. destruct (Z.ltb_spec (a * b) WORD); [|discriminate].
  intros [= <-]. split; [reflexivity | assumption].
Qed.

(** One round of the loop of [register] that succeeds read a key that is
    there. *)
Lemma aggregate_step_Ok_inv (playerPk : list Z) (agg r : Z * Z) (i : Z) :
  aggregate_step playerPk agg i = Ok r ->
  0 <= i /\ 2 * i + 1 < Z.of_nat (length playerPk) /\ 2 * i + 1 < WORD /\
  r = pointAdd agg.1 agg.2 (nth (2 * Z.to_nat i) playerPk 0)
        (nth (2 * Z.to_nat i + 1) playerPk 0).
Proof.
  unfold aggregate_step. intros H. inv_bind H. injection H as <-.
  apply checked_mul_Ok in Hv as [-> _].
  apply at_dyn_Ok_inv in Hv0 as [? ->].
  apply checked_add_Ok in Hv1 as [-> ?].
  apply at_dyn_Ok_inv in Hv2 as [? ->].
  replace (Z.to_nat (2 * i)) with (2 * Z.to_nat i)%nat by lia.
  replace (Z.to_nat (2 * i + 1)) with (2 * Z.to_nat i + 1)%nat by lia.
  repeat split; lia.
Qed.

Lemma foldM_invariant {T U : Type} (f : T -> U -> Res T) (P : T -> Prop) (l : list U) :
  forall acc r,
    (forall a x b, In x l -> P a -> f a x = Ok b -> P b) ->
    P acc -> foldM f acc l = Ok r -> P r.
Proof.
  induction l as [|x l IH]; intros acc r Hf Hacc H; cbn [foldM] in H.
  - injection H as <-. exact Hacc.
  - inv_bind H. apply (IH v r); [| |exact H].
    + intros a y b Hy. apply Hf. right. exact Hy.
    + apply (Hf acc x v); [left; reflexivity | exact Hacc | exact Hv].
Qed.

Lemma foldM_Ok_elem {T U : Type} (f : T -> U -> Res T) (l : list U) :
  forall acc r x, foldM f acc l = Ok r -> In x l -> exists a b, f a x = Ok b.
Proof.
  induction l as [|y l IH]; intros acc r x H Hx; [destruct Hx|].
  cbn [foldM] in H. inv_bind H. destruct Hx as [->|Hx].
  - eauto.
  - eapply IH; eassumption.
Qed.

(** ** The keys of a game *)

Lemma keys_app_on_curve (pks : list Z) (k : nat) (x y : Z) :
  length pks = (2 * k)%nat ->
  (forall i : nat, (2 * i + 1 < length pks)%nat ->
     isOnCurve (nth (2 * i) pks 0) (nth (2 * i + 1) pks 0) = true) ->
  isOnCurve x y = true ->
  forall i : nat, (2 * i + 1 < length (pks ++ [x; y]))%nat ->
    isOnCurve (nth (2 * i) (pks ++ [x; y]) 0)
              (nth (2 * i + 1) (pks ++ [x; y]) 0) = true.
Proof.
  intros Hlen Hall Hxy i Hi. rewrite length_app in Hi. cbn [length] in Hi.
  destruct (Nat.lt_ge_cases i k) as [Hlt|Hge].
  - rewrite !app_nth1 by lia. apply Hall. lia.
  - assert (i = k) by lia. subst i.
    rewrite !app_nth2 by lia. rewrite Hlen.
    replace (2 * k - 2 * k)%nat with 0%nat by lia.
    replace (2 * k + 1 - 2 * k)%nat with 1%nat by lia.
    exact Hxy.
Qed.

Lemma aggregate_loop_on_curve (pks : list Z) (n : Z) (acc agg : Z * Z) :
  (forall i : nat, (2 * i + 1 < length pks)%nat ->
     isOnCurve (nth (2 * i) pks 0) (nth (2 * i + 1) pks 0) = true) ->
  isOnCurve acc.1 acc.2 = true ->
  aggregate_loop pks n acc = Ok agg ->
  isOnCurve agg.1 agg.2 = true.
Proof.
  intros Hall Hacc Hloop. unfold aggregate_loop in Hloop.
  apply (foldM_invariant _ (fun a => isOnCurve a.1 a.2 = true) _ _ _)
    with (3 := Hloop); [|exact Hacc].
  intros a i b _ Ha Hstep.
  apply aggregate_step_Ok_inv in Hstep as (Hi & Hlen & _ & ->).
  apply pointAdd_closed; [exact Ha|]. apply Hall. lia.
Qed.

Lemma exec_valid_keys
    (shuffleEncryptVerifier decryptVerifier : list Z -> list Z -> bool)
    (msg_sender : address) (c : Call) (s s' : Storage) (g : Z) :
  well_formed_game s g -> valid_keys s g ->
  exec shuffleEncryptVerifier decryptVerifier msg_sender c s = Ok s' ->
  valid_keys s' g.
Proof.
  intros Hwf [Hkeys Hagg] Hexec.
  destruct (decide (game_of c = Some g)) as [Hg|Hg].
  2:{ pose proof (exec_other_game _ _ _ _ _ _ g Hexec Hg) as Hv.
      unfold game_view in Hv. injection Hv as Hst _ _ _ _ Hinfo.
      unfold valid_keys. rewrite Hst, Hinfo. split; assumption. }
  destruct Hwf as (_ & _ & _ & _ & Hlen & _).
  destruct c; try discriminate; injection Hg as ->; cbn [exec] in Hexec.
  - unfold setGameSettings in Hexec. inv_bind Hexec. injection Hexec as <-.
    unfold valid_keys. rewrite state_of_set.
    change (playerInfo_of (set_state (set_playerIndex (set_numPlayers s g ?n) g 0) g Registration) g)
      with (playerInfo_of s g).
    split; [exact Hkeys|]. intros [?|?]; discriminate.
  - apply register_Ok_inv in Hexec. cbv zeta in Hexec.
    destruct Hexec as (_ & Hst & Hpk & [(_ & ->)|(_ & agg & Hloop & ->)]).
    + unfold valid_keys.
      change (state_of (set_playerIndex (set_playerInfo s g ?i) g ?j) g)
        with (state_of s g).
      change (playerInfo_of (set_playerIndex (set_playerInfo s g ?i) g ?j) g)
        with (playerInfo_of (set_playerInfo s g i) g).
      rewrite playerInfo_of_set. cbn [playerPk]. split.
      * apply (keys_app_on_curve _ _ _ _ Hlen Hkeys Hpk).
      * rewrite Hst. intros [?|?]; discriminate.
    + unfold valid_keys.
      match goal with
      | |- context [initDeck ?s0 g] =>
          destruct (initDeck_frame s0 g g) as (_ & -> & _ & _ & ->)
      end.
      rewrite playerInfo_of_set. cbn [playerPk aggregatedPk] in *.
      pose proof (keys_app_on_curve _ _ _ _ Hlen Hkeys Hpk) as Hkeys'.
      split; [exact Hkeys'|]. intros _.
      apply (aggregate_loop_on_curve _ _ _ _ Hkeys') with (2 := Hloop).
      apply (Hkeys' 0%nat). rewrite length_app. cbn [length]. lia.
  - apply shuffle_Ok_inv in Hexec as (_ & Hst & _ & _ & ->). cbv zeta.
    pose proof (updateDeck_frame s shuffledX0 shuffledX1 selector g g)
      as (_ & Hinfo & _).
    cbv zeta in Hinfo. unfold valid_keys.
    set (s1 := updateDeck s shuffledX0 shuffledX1 selector g) in *.
    assert (Hinfo' : playerInfo_of
                       (if playerIndex_of s g + 1 =? numPlayers_of s g
                        then set_playerIndex
                               (set_state (set_playerIndex s1 g (playerIndex_of s g + 1))
                                  g DealingCard) g 0
                        else set_playerIndex s1 g (playerIndex_of s g + 1)) g
                     = playerInfo_of s g).
    { rewrite <- Hinfo. destruct (_ =? _); reflexivity. }
    rewrite Hinfo'. split; [exact Hkeys|]. intros _. apply Hagg. left. exact Hst.
  - apply deal_Ok_inv in Hexec as (cd & -> & _). exact (conj Hkeys Hagg).
Qed.

(** X15. In every reachable storage, every registered key of every game is a
    point of the curve, and the aggregated key of a game that is shuffling or
    dealing is a point of the curve. *)
Theorem reachable_valid_keys
    (shuffleEncryptVerifier decryptVerifier : list Z -> list Z -> bool)
    (deployer : address) (s : Storage) :
  reachable shuffleEncryptVerifier decryptVerifier deployer s ->
  forall gameId, valid_keys s gameId.
Proof.
  intros Hreach.
  enough (H : forall g, well_formed_game s g /\ valid_keys s g)
    by (intros g; apply H).
  induction Hreach as [|s msg_sender c Hreach IH]; intros g.
  - split.
    + unfold well_formed_game, deck_of, cardDeal_of, playerInfo_of,
        playerIndex_of, numPlayers_of, state_of, deployed. cbn.
      rewrite !lookup_empty. cbn. wf_finish.
    + unfold valid_keys, playerInfo_of, state_of, deployed. cbn.
      rewrite !lookup_empty. cbn. split.
      * intros i Hi. lia.
      * intros [H|H]; discriminate H.
  - unfold step, transact.
    destruct (exec _ _ msg_sender c s) as [s'|e] eqn:Hexec; cbn [fst]; [|apply IH].
    split.
    + eapply exec_well_formed; [exact Hexec|]. intros g'. apply IH.
    + eapply exec_valid_keys; [apply IH|apply IH|exact Hexec].
Qed.

(** ** Dealing *)

Lemma set52_set52 {T : Type} (a : list T) (i : Z) (v w : T) :
  set52 (set52 a i v) i w = set52 a i w.
Proof. unfold set52. apply list_insert_insert_eq. Qed.

(** What a successful [deal] went through and what it wrote. *)
Lemma deal_Ok_full (decryptVerifier : list Z -> list Z -> bool)
    (s s' : Storage) (msg_sender permanentAccount : address)
    (cardIdx curPlayerIdx : Z) (proof : list Z) (decryptedCard initDelta : Z * Z)
    (gameId : Z) :
  length (cards (cardDeal_of s gameId)) = 52%nat ->
  deal decryptVerifier s msg_sender permanentAccount cardIdx curPlayerIdx proof
    decryptedCard initDelta gameId = Ok s' ->
  let cd := cardDeal_of s gameId in
  let rec := nth (Z.to_nat cardIdx) (record cd) 0 in
  let deck := deck_of s gameId in
  state_of s gameId = DealingCard /\ gameContract s = msg_sender /\
  0 <= cardIdx < 52 /\
  exists card0,
    (if rec =? 0
     then exists Y, decompressCard s cardIdx initDelta gameId = Ok Y /\
            card0 = Card.mk (nth (Z.to_nat cardIdx) (X0 deck) 0) Y.1
                      (nth (Z.to_nat cardIdx) (X1 deck) 0) Y.2
     else card0 = nth (Z.to_nat cardIdx) (cards cd) Card.zero) /\
    s' = set_cardDeal s gameId
           (mkCardDeal
              (set52 (cards cd) cardIdx
                 (Card.mk (Card.X0 card0) (Card.Y0 card0)
                    decryptedCard.1 decryptedCard.2))
              (set52 (record cd) cardIdx (Z.lor rec (shl 1 curPlayerIdx)))).
Proof.
  intros Hcards H. cbv zeta. unfold deal in H. inv_bind H.
  destruct v as [signals s1]. cbn [fst snd] in *.
  match goal with H : require _ ProofFailed = Ok _ |- _ => clear H end.
  unfold deal_before_verifier, inDealingPhase, onlyGameContract in Hv.
  inv_bind Hv. injection Hv as _ <-.
  unfold deal_after_verifier in H. inv_bind H. injection H as <-.
  repeat match goal with
    | H : require (bool_decide _) _ = Ok _ |- _ =>
        apply require_Ok_inv, bool_decide_eq_true_1 in H
    | H : require (gameContract _ =? _) _ = Ok _ |- _ =>
        apply require_Ok_inv, Z.eqb_eq in H
    | H : at52 _ (record (cardDeal_of s gameId)) _ = Ok _ |- _ =>
        apply at52_Ok_inv in H as [? ->]
    end.
  split; [assumption|]. split; [assumption|]. split; [assumption|].
  match goal with
  | H : (if ?b then _ else _) = Ok _ |- _ => destruct b; [inv_bind H|]; injection H as <-
  end.
  - repeat match goal with
      | H : at52 _ _ _ = Ok _ |- _ => apply at52_Ok_inv in H as [? ->]
      end.
    eexists. split; [eexists; split; [eassumption|reflexivity]|].
    rewrite cardDeal_of_set. cbn [cards record].
    rewrite nth_set52 by lia. cbn [Card.X0 Card.Y0].
    rewrite set52_set52.
    unfold set_cardDeal. cbn. f_equal. apply insert_insert_eq.
  - repeat match goal with
      | H : at52 _ _ _ = Ok _ |- _ => apply at52_Ok_inv in H as [? ->]
      end.
    eexists. split; [reflexivity|]. reflexivity.
Qed.

(** The flag [decompressCard] reads from a selector is the bit of the card. *)
Lemma selector_flag (sel i : Z) :
  0 <= i < 256 ->
  shr (Z.land sel (shl 1 i)) i = Z.b2z (Z.testbit sel i).
Proof.
  intros Hi. rewrite shl_1_pow2 by exact Hi. unfold shr.
  destruct (Z.leb_spec 256 i); [lia|].
  apply Z.bits_inj'. intros n Hn.
  rewrite Z.shiftr_spec, Z.land_spec by lia.
  destruct (Z.eq_dec n 0) as [->|Hne].
  - rewrite Z.add_0_l, Z.pow2_bits_true, andb_true_r by lia.
    destruct (Z.testbit sel i); reflexivity.
  - rewrite Z.pow2_bits_false, andb_false_r by lia.
    destruct (Z.testbit sel i); cbn [Z.b2z].
    + symmetry. change 1 with (2 ^ 0). apply Z.pow2_bits_false. lia.
    + symmetry. apply Z.bits_0.
Qed.

Lemma isOnCurve_opp (x y : Z) : isOnCurve x (Q - y) = isOnCurve x y.
Proof.
  unfold isOnCurve. rewrite !mulmod_Q.
  replace ((Q - y) * (Q - y)) with (y * y + (Q - 2 * y) * Q) by ring.
  rewrite Z_mod_plus_full. reflexivity.
Qed.

(** What [decompressEC] returns is one of the two square roots, and a point
    of the curve with [x]. *)
Lemma decompressEC_Ok_inv (x delta sel y : Z) :
  decompressEC x delta sel = Ok y ->
  delta <= (Q - 1) / 2 /\ isOnCurve x delta = true /\
  (sel = 1 /\ y = delta \/ sel = 0 /\ y = Q - delta) /\
  isOnCurve x y = true.
Proof.
  unfold decompressEC. intros H. inv_bind H.
  apply require_Ok_inv in Hv, Hv0, Hv1. apply Z.leb_le in Hv.
  split; [exact Hv|]. split; [exact Hv0|].
  destruct (Z.eqb_spec sel 1) as [->|Hne1].
  - injection H as <-. auto.
  - destruct (Z.eqb_spec sel 0) as [->|Hne0]; [|discriminate].
    unfold checked_sub in H. destruct (delta <=? Q); [|discriminate].
    injection H as <-. split; [auto|]. rewrite isOnCurve_opp. exact Hv0.
Qed.

(** X16. The first deal of a card, the one that finds [record[i] == 0],
    decompresses the card of the deck into the deal: [X0] is the [X0] of the
    deck, [Y0] is [initDelta[0]] or [Q - initDelta[0]] as bit [i] of the
    first selector says, and [(X0, Y0)] is a point of the curve; [initDelta]
    is at most [(Q - 1) / 2] and on the curve with the [X0] and the [X1] of
    the deck. *)
Theorem first_deal_decompresses_the_card
    (decryptVerifier : list Z -> list Z -> bool)
    (s s' : Storage) (msg_sender permanentAccount : address)
    (cardIdx curPlayerIdx : Z) (proof : list Z) (decryptedCard initDelta : Z * Z)
    (gameId : Z) :
  length (cards (cardDeal_of s gameId)) = 52%nat ->
  nth (Z.to_nat cardIdx) (record (cardDeal_of s gameId)) 0 = 0 ->
  deal decryptVerifier s msg_sender permanentAccount cardIdx curPlayerIdx proof
    decryptedCard initDelta gameId = Ok s' ->
  let deck := deck_of s gameId in
  let x0 := nth (Z.to_nat cardIdx) (X0 deck) 0 in
  let x1 := nth (Z.to_nat cardIdx) (X1 deck) 0 in
  let card' := nth (Z.to_nat cardIdx) (cards (cardDeal_of s' gameId)) Card.zero in
  Card.X0 card' = x0 /\
  Card.Y0 card' = (if Z.testbit (Selector deck).1 cardIdx
                   then initDelta.1 else Q - initDelta.1) /\
  isOnCurve (Card.X0 card') (Card.Y0 card') = true /\
  initDelta.1 <= (Q - 1) / 2 /\ initDelta.2 <= (Q - 1) / 2 /\
  isOnCurve x0 initDelta.1 = true /\ isOnCurve x1 initDelta.2 = true.
Proof.
  intros Hcards Hrec Hdeal. cbv zeta.
  apply deal_Ok_full in Hdeal; [|exact Hcards]. cbv zeta in Hdeal.
  destruct Hdeal as (_ & _ & Hi & card0 & Hcard0 & ->).
  rewrite Hrec in Hcard0. cbn [Z.eqb] in Hcard0.
  destruct Hcard0 as (Y & HY & ->).
  rewrite cardDeal_of_set. cbn [cards]. rewrite nth_set52 by lia.
  cbn [Card.X0 Card.Y0].
  unfold decompressCard in HY. inv_bind HY. injection HY as <-.
  repeat match goal with
    | H : at52 _ _ _ = Ok _ |- _ => apply at52_Ok_inv in H as [? ->]
    end.
  rewrite !selector_flag in * by lia.
  repeat match goal with
    | H : decompressEC _ _ _ = Ok _ |- _ =>
        apply decompressEC_Ok_inv in H as (? & ? & ? & ?)
    end.
  cbn [fst snd].
  split; [reflexivity|]. split.
  - destruct (Z.testbit (Selector (deck_of s gameId)).1 cardIdx);
      cbn [Z.b2z] in *; intuition congruence.
  - auto.
Qed.

(** X17. A later deal of a card, one that finds [record[i] != 0], does not
    read [initDelta]: the call does the same for every [initDelta], and it
    keeps the [X0] and [Y0] the first deal stored. *)
Theorem later_deal_ignores_initDelta
    (decryptVerifier : list Z -> list Z -> bool)
    (s : Storage) (msg_sender permanentAccount : address)
    (cardIdx curPlayerIdx : Z) (proof : list Z) (decryptedCard initDelta : Z * Z)
    (gameId : Z) :
  length (cards (cardDeal_of s gameId)) = 52%nat ->
  nth (Z.to_nat cardIdx) (record (cardDeal_of s gameId)) 0 <> 0 ->
  (forall initDelta' : Z * Z,
      deal decryptVerifier s msg_sender permanentAccount cardIdx curPlayerIdx
        proof decryptedCard initDelta' gameId
      = deal decryptVerifier s msg_sender permanentAccount cardIdx curPlayerIdx
          proof decryptedCard initDelta gameId) /\
  (forall s',
      deal decryptVerifier s msg_sender permanentAccount cardIdx curPlayerIdx
        proof decryptedCard initDelta gameId = Ok s' ->
      let card := nth (Z.to_nat cardIdx) (cards (cardDeal_of s gameId)) Card.zero in
      let card' := nth (Z.to_nat cardIdx) (cards (cardDeal_of s' gameId)) Card.zero in
      Card.X0 card' = Card.X0 card /\ Card.Y0 card' = Card.Y0 card).
Proof.
  intros Hcards Hrec. split.
  - intros initDelta'. unfold deal. f_equal.
    unfold deal_before_verifier.
    destruct (inDealingPhase s gameId); cbn [bind]; [|reflexivity].
    destruct (onlyGameContract s msg_sender); cbn [bind]; [|reflexivity].
    destruct (at_dyn 0 _ curPlayerIdx); cbn [bind]; [|reflexivity].
    destruct (require (_ =? permanentAccount) _); cbn [bind]; [|reflexivity].
    destruct (at52 0 (record (cardDeal_of s gameId)) cardIdx) as [rec|e] eqn:Hr;
      [|reflexivity].
    apply at52_Ok_inv in Hr as [_ ->]. cbn [bind].
    apply Z.eqb_neq in Hrec. rewrite Hrec. reflexivity.
  - intros s' Hdeal. cbv zeta.
    apply deal_Ok_full in Hdeal; [|exact Hcards]. cbv zeta in Hdeal.
    destruct Hdeal as (_ & _ & Hi & card0 & Hcard0 & ->).
    apply Z.eqb_neq in Hrec. rewrite Hrec in Hcard0. subst card0.
    rewrite cardDeal_of_set. cbn [cards]. rewrite nth_set52 by lia.
    split; reflexivity.
Qed.

Lemma nth_set52_ne {T : Type} (d : T) (a : list T) (i : Z) (v : T) (k : nat) :
  k <> Z.to_nat i -> nth k (set52 a i v) d = nth k a d.
Proof.
  intros Hne. unfold set52. rewrite !nth_lookup.
  rewrite list_lookup_insert_ne by congruence. reflexivity.
Qed.

(** X18. A deal writes one card: of the storage it changes the card
    [cardIdx] of its game and the record of that card, and nothing else, not
    the other cards, the deck, the players, the turn index or the state. *)
Theorem deal_writes_one_card
    (decryptVerifier : list Z -> list Z -> bool)
    (s s' : Storage) (msg_sender permanentAccount : address)
    (cardIdx curPlayerIdx : Z) (proof : list Z) (decryptedCard initDelta : Z * Z)
    (gameId : Z) :
  length (cards (cardDeal_of s gameId)) = 52%nat ->
  deal decryptVerifier s msg_sender permanentAccount cardIdx curPlayerIdx proof
    decryptedCard initDelta gameId = Ok s' ->
  (forall g, state_of s' g = state_of s g /\
             playerIndex_of s' g = playerIndex_of s g /\
             numPlayers_of s' g = numPlayers_of s g /\
             deck_of s' g = deck_of s g /\
             playerInfo_of s' g = playerInfo_of s g) /\
  initialDeck s' = initialDeck s /\
  (forall g, g <> gameId -> cardDeal_of s' g = cardDeal_of s g) /\
  (forall k : nat, k <> Z.to_nat cardIdx ->
     nth k (cards (cardDeal_of s' gameId)) Card.zero
       = nth k (cards (cardDeal_of s gameId)) Card.zero /\
     nth k (record (cardDeal_of s' gameId)) 0
       = nth k (record (cardDeal_of s gameId)) 0).
Proof.
  intros Hcards Hdeal.
  apply deal_Ok_full in Hdeal; [|exact Hcards]. cbv zeta in Hdeal.
  destruct Hdeal as (_ & _ & Hi & card0 & _ & ->).
  split; [intros g; repeat split; reflexivity|].
  split; [reflexivity|]. split.
  - intros g Hne. getset. reflexivity.
  - intros k Hk. rewrite cardDeal_of_set. cbn [cards record].
    rewrite !nth_set52_ne by exact Hk. split; reflexivity.
Qed.

(** Every call but [deal] leaves the deals of every game as they were. *)
Lemma exec_cardDeal
    (shuffleEncryptVerifier decryptVerifier : list Z -> list Z -> bool)
    (msg_sender : address) (c : Call) (s s' : Storage) :
  exec shuffleEncryptVerifier decryptVerifier msg_sender c s = Ok s' ->
  match c with
  | CallDeal _ _ _ _ _ _ _ => True
  | _ => forall g, cardDeal_of s' g = cardDeal_of s g
  end.
Proof.
  intros Hexec. destruct c; cbn [exec] in Hexec; [| | | | | |exact I]; intros g.
  - unfold setGameSettings in Hexec. inv_bind Hexec. injection Hexec as <-.
    reflexivity.
  - unfold setGameContract in Hexec. inv_bind Hexec. injection Hexec as <-.
    reflexivity.
  - unfold transferOwnership in Hexec. inv_bind Hexec. injection Hexec as <-.
    reflexivity.
  - unfold renounceOwnership in Hexec. inv_bind Hexec. injection Hexec as <-.
    reflexivity.
  - apply register_Ok_inv in Hexec. cbv zeta in Hexec.
    destruct Hexec as (_ & _ & _ & [(_ & ->)|(_ & agg & _ & ->)]); [reflexivity|].
    match goal with
    | |- context [initDeck ?s0 gameId] =>
        destruct (initDeck_frame s0 gameId g) as (-> & _)
    end.
    reflexivity.
  - apply shuffle_Ok_inv in Hexec as (_ & _ & _ & _ & ->). cbv zeta.
    pose proof (updateDeck_frame s shuffledX0 shuffledX1 selector gameId g)
      as (Hcd & _).
    cbv zeta in Hcd. rewrite <- Hcd. destruct (_ =? _); reflexivity.
Qed.

(** X19. The record of a card only gains bits: no call clears a bit that is
    set, in any game. [setGameSettings] included: opening a game again under
    the same id keeps the records of the deals of the game before. *)
Theorem deal_records_only_gain_bits
    (shuffleEncryptVerifier decryptVerifier : list Z -> list Z -> bool)
    (msg_sender : address) (c : Call) (s s' : Storage) :
  (forall g, length (cards (cardDeal_of s g)) = 52%nat) ->
  exec shuffleEncryptVerifier decryptVerifier msg_sender c s = Ok s' ->
  forall (g : Z) (i : nat) (j : Z),
    Z.testbit (nth i (record (cardDeal_of s g)) 0) j = true ->
    Z.testbit (nth i (record (cardDeal_of s' g)) 0) j = true.
Proof.
  intros Hcards Hexec g i j Hbit.
  pose proof (exec_cardDeal _ _ _ _ _ _ Hexec) as Hcd.
  destruct c; try (rewrite Hcd; exact Hbit). clear Hcd. cbn [exec] in Hexec.
  apply deal_Ok_full in Hexec; [|apply Hcards]. cbv zeta in Hexec.
  destruct Hexec as (_ & _ & Hi & card0 & _ & ->).
  destruct (decide (g = gameId)) as [->|Hne].
  2:{ revert Hbit. getset. auto. }
  rewrite cardDeal_of_set. cbn [record].
  destruct (decide (i = Z.to_nat cardIdx)) as [->|Hk].
  - unfold set52. rewrite nth_lookup.
    destruct (decide (Z.to_nat cardIdx < length (record (cardDeal_of s gameId)))%nat)
      as [Hlt|Hge].
    + rewrite list_lookup_insert_eq by exact Hlt. cbn [default from_option id].
      rewrite Z.lor_spec, Hbit. reflexivity.
    + rewrite list_insert_ge by lia. rewrite <- nth_lookup. exact Hbit.
  - rewrite nth_set52_ne by exact Hk. exact Hbit.
Qed.

(** X20. Once the bit of a deal completes the record of a card, [search] of
    that card succeeds, and what it looks up in [initialDeck] is the [X] of
    the share that deal submitted. *)
Theorem completing_deal_then_search
    (decryptVerifier : list Z -> list Z -> bool)
    (s s' : Storage) (msg_sender permanentAccount : address)
    (cardIdx curPlayerIdx : Z) (proof : list Z) (decryptedCard initDelta : Z * Z)
    (gameId : Z) :
  length (cards (cardDeal_of s gameId)) = 52%nat ->
  length (record (cardDeal_of s gameId)) = 52%nat ->
  0 <= curPlayerIdx < 256 ->
  0 <= numPlayers_of s gameId < 256 ->
  Z.lor (nth (Z.to_nat cardIdx) (record (cardDeal_of s gameId)) 0)
    (2 ^ curPlayerIdx) = 2 ^ numPlayers_of s gameId - 1 ->
  deal decryptVerifier s msg_sender permanentAccount cardIdx curPlayerIdx proof
    decryptedCard initDelta gameId = Ok s' ->
  search s' cardIdx gameId
  = Ok (search_loop (X1 (initialDeck s)) decryptedCard.1 0 52).
Proof.
  intros Hcards Hrecs Hj Hn Hfull Hdeal.
  apply deal_Ok_full in Hdeal; [|exact Hcards]. cbv zeta in Hdeal.
  destruct Hdeal as (_ & _ & Hi & card0 & _ & ->).
  unfold search. rewrite cardDeal_of_set. cbn [cards record].
  change (numPlayers_of (set_cardDeal s gameId ?cd) gameId)
    with (numPlayers_of s gameId).
  change (initialDeck (set_cardDeal s gameId ?cd)) with (initialDeck s).
  rewrite !at52_in_range by exact Hi. cbn [bind].
  rewrite !nth_set52 by lia.
  rewrite !shl_1_pow2 by assumption. rewrite Hfull.
  unfold checked_sub.
  assert (Hpow : 0 < 2 ^ numPlayers_of s gameId) by (apply Z.pow_pos_nonneg; lia).
  destruct (Z.leb_spec 1 (2 ^ numPlayers_of s gameId)); [|lia].
  cbn [bind]. rewrite Z.eqb_refl. reflexivity.
Qed.

(** ** The errors of each call *)

Lemma bind_Revert {T U : Type} (m : Res T) (k : T -> Res U) (e : Error) :
  bind m k = Revert e -> m = Revert e \/ exists v, m = Ok v /\ k v = Revert e.
Proof. destruct m as [v|e']; simpl; intros H; [right; eauto | left; congruence]. Qed.

Lemma require_Revert (b : bool) (E e : Error) : require b E = Revert e -> e = E.
Proof. destruct b; simpl; congruence. Qed.

Lemma at52_Revert {T : Type} (d : T) (a : list T) (i : Z) (e : Error) :
  at52 d a i = Revert e -> e = Panic.
Proof. unfold at52. destruct (_ && _); congruence. Qed.

Lemma at_dyn_Revert {T : Type} (d : T) (a : list T) (i : Z) (e : Error) :
  at_dyn d a i = Revert e -> e = Panic.
Proof. unfold at_dyn. destruct (_ && _); congruence. Qed.

Lemma checked_add_Revert (a b : Z) (e : Error) : checked_add a b = Revert e -> e = Panic.
Proof. unfold checked_add. destruct (_ <? _); congruence. Qed.

Lemma checked_mul_Revert (a b : Z) (e : Error) : checked_mul a b = Revert e -> e = Panic.
Proof. unfold checked_mul. destruct (_ <? _); congruence. Qed.

Lemma checked_sub_Revert (a b : Z) (e : Error) : checked_sub a b = Revert e -> e = Panic.
Proof. unfold checked_sub. destruct (_ <=? _); congruence. Qed.

(** Splits a sequence of binds that reverted at every step it can have
    reverted at, and names the error of each guard. *)
Ltac inv_revert H :=
  repeat first
    [ apply bind_Revert in H; destruct H as [H|(? & ? & H)]
    | apply require_Revert in H
    | apply at52_Revert in H
    | apply at_dyn_Revert in H
    | apply checked_add_Revert in H
    | apply checked_mul_Revert in H
    | apply checked_sub_Revert in H ].

Lemma foldM_Revert {T U : Type} (f : T -> U -> Res T) (P : Error -> Prop) (l : list U) :
  (forall a x e, f a x = Revert e -> P e) ->
  forall acc e, foldM f acc l = Revert e -> P e.
Proof.
  intros Hf. induction l as [|x l IH]; intros acc e H; cbn [foldM] in H.
  - discriminate.
  - apply bind_Revert in H as [H|(v & _ & H)]; eauto.
Qed.

Lemma aggregate_loop_Revert (playerPk : list Z) (n : Z) (acc : Z * Z) (e : Error) :
  aggregate_loop playerPk n acc = Revert e -> e = Panic.
Proof.
  unfold aggregate_loop. intros Hf.
  apply (foldM_Revert _ (fun e => e = Panic) _) with (2 := Hf). clear.
  intros a i e H. unfold aggregate_step in H. inv_revert H; congruence.
Qed.

Lemma decompressEC_Revert (x delta sel : Z) (e : Error) :
  sel = 0 \/ sel = 1 ->
  decompressEC x delta sel = Revert e ->
  e = IllFormedDelta \/ e = NotOnCurve \/ e = Panic.
Proof.
  intros Hsel H. unfold decompressEC in H.
  apply bind_Revert in H as [H|(_ & _ & H)]; [apply require_Revert in H; auto|].
  apply bind_Revert in H as [H|(_ & _ & H)]; [apply require_Revert in H; auto|].
  apply bind_Revert in H as [H|(_ & _ & H)].
  - exfalso. destruct Hsel as [->| ->]; discriminate H.
  - destruct (sel =? 1); [discriminate|]. apply checked_sub_Revert in H. auto.
Qed.

Lemma b2z_bit (b : bool) : Z.b2z b = 0 \/ Z.b2z b = 1.
Proof. destruct b; auto. Qed.

Lemma decompressCard_Revert (s : Storage) (cardIdx : Z) (delta : Z * Z)
    (gameId : Z) (e : Error) :
  decompressCard s cardIdx delta gameId = Revert e ->
  e = IllFormedDelta \/ e = NotOnCurve \/ e = Panic.
Proof.
  unfold decompressCard. intros H.
  apply bind_Revert in H as [H|(x0 & Hx0 & H)]; [apply at52_Revert in H; auto|].
  apply at52_Ok_inv in Hx0 as [Hi _].
  rewrite !selector_flag in H by lia.
  apply bind_Revert in H as [H|(y0 & _ & H)];
    [apply decompressEC_Revert in H; [exact H | apply b2z_bit]|].
  apply bind_Revert in H as [H|(x1 & _ & H)]; [apply at52_Revert in H; auto|].
  apply bind_Revert in H as [H|(y1 & _ & H)];
    [apply decompressEC_Revert in H; [exact H | apply b2z_bit]|].
  discriminate.
Qed.

(** X21. The errors of each call, all of them. In particular no call reverts
    with "Ill-formated selector": the selector [decompressCard] hands to
    [decompressEC] is one bit of the stored word, so the third [require] of
    [decompressEC] never fails; and no call reverts with "Card has not been
    fully decrypted", which is left to the view [search]. The inherited
    [transferOwnership] reverts for a caller other than the owner and for the
    zero address, [renounceOwnership] for a caller other than the owner. *)
Theorem errors_of_each_call
    (shuffleEncryptVerifier decryptVerifier : list Z -> list Z -> bool)
    (msg_sender : address) (c : Call) (s : Storage) (e : Error) :
  exec shuffleEncryptVerifier decryptVerifier msg_sender c s = Revert e ->
  In e (errors_of c).
Proof.
  intros H. destruct c; cbn [exec errors_of] in *.
  - unfold setGameSettings, onlyGameContract in H. inv_revert H; subst; simpl; auto.
    discriminate.
  - unfold setGameContract, onlyOwner in H. inv_revert H; subst; simpl; auto.
    discriminate.
  - unfold transferOwnership, onlyOwner in H. inv_revert H; subst; simpl; auto.
    discriminate.
  - unfold renounceOwnership, onlyOwner in H. inv_revert H; subst; simpl; auto.
    discriminate.
  - unfold register, onlyGameContract in H.
    inv_revert H; subst; simpl; auto.
    match goal with
    | H : (if ?b then _ else _) = Revert _ |- _ => destruct b; [|discriminate]
    end.
    inv_revert H; subst; simpl; auto; [|discriminate].
    apply aggregate_loop_Revert in H. subst. simpl. auto.
  - unfold shuffle, onlyGameContract in H.
    inv_revert H; subst; simpl; auto 6.
    match goal with
    | H : (if ?b then _ else _) = Revert _ |- _ => destruct b; discriminate
    end.
  - unfold deal in H.
    apply bind_Revert in H as [H|(r & _ & H)].
    + unfold deal_before_verifier, inDealingPhase, onlyGameContract in H.
      inv_revert H; subst; simpl; auto 9; [|discriminate].
      match goal with
      | H : (if ?b then _ else _) = Revert _ |- _ => destruct b; [|discriminate]
      end.
      apply bind_Revert in H as [H|(Y & _ & H)].
      * apply decompressCard_Revert in H. simpl. intuition.
      * inv_revert H; subst; simpl; auto 9. discriminate.
    + apply bind_Revert in H as [H|(_ & _ & H)].
      * apply require_Revert in H. subst. simpl. auto 9.
      * unfold deal_after_verifier in H. inv_revert H; subst; simpl; auto 9.
        discriminate.
Qed.

(** ** The public signals of a shuffle *)

Ltac destruct_list52 l H :=
  do 52 (destruct l as [|? l]; [discriminate H|]);
  destruct l; [|discriminate H]; clear H.

Lemma prepareShuffleData_signals (s : Storage) (nonce : Z)
    (shuffledX0 shuffledX1 : list Z) (selector : Z * Z) (gameId : Z) :
  length (X0 (deck_of s gameId)) = 52%nat ->
  length (X1 (deck_of s gameId)) = 52%nat ->
  length shuffledX0 = 52%nat -> length shuffledX1 = 52%nat ->
  let info := playerInfo_of s gameId in
  let deck := deck_of s gameId in
  prepareShuffleData s nonce shuffledX0 shuffledX1 selector gameId
  = shuffle_signals nonce (aggregatedPk info) deck shuffledX0 shuffledX1 selector.
Proof.
  intros H0 H1 H2 H3. cbv zeta. unfold prepareShuffleData, shuffle_signals.
  generalize dependent (X0 (deck_of s gameId)). intros a Ha.
  generalize dependent (X1 (deck_of s gameId)). intros b Hb.
  destruct_list52 a Ha. destruct_list52 b Hb.
  destruct_list52 shuffledX0 H2. destruct_list52 shuffledX1 H3.
  reflexivity.
Qed.

(** X22. The 215 public signals [prepareShuffleData] hands to the verifier:
    the nonce, the aggregated key, the [X0] and the [X1] of the deck in
    storage, the submitted [X0] and [X1], the two selectors in storage and
    the two submitted ones, in this order. *)
Theorem prepareShuffleData_layout (s : Storage) (nonce : Z)
    (shuffledX0 shuffledX1 : list Z) (selector : Z * Z) (gameId : Z) :
  length (X0 (deck_of s gameId)) = 52%nat ->
  length (X1 (deck_of s gameId)) = 52%nat ->
  length shuffledX0 = 52%nat -> length shuffledX1 = 52%nat ->
  let info := playerInfo_of s gameId in
  let deck := deck_of s gameId in
  prepareShuffleData s nonce shuffledX0 shuffledX1 selector gameId
  = [nonce; (aggregatedPk info).1; (aggregatedPk info).2]
    ++ X0 deck ++ X1 deck ++ shuffledX0 ++ shuffledX1
    ++ [(Selector deck).1; (Selector deck).2; selector.1; selector.2] /\
  length (prepareShuffleData s nonce shuffledX0 shuffledX1 selector gameId)
  = 215%nat.
Proof.
  intros H0 H1 H2 H3. cbv zeta.
  rewrite prepareShuffleData_signals by assumption. split; [reflexivity|].
  unfold shuffle_signals. rewrite !length_app, H0, H1, H2, H3. reflexivity.
Qed.

(** ** The views *)

Lemma nth_replicate_lt {T : Type} (d x : T) (n k : nat) :
  (k < n)%nat -> nth k (replicate n x) d = x.
Proof. intros Hk. rewrite nth_lookup, lookup_replicate_2 by exact Hk. reflexivity. Qed.

(** A game id that was never set up holds nothing. *)
Lemma uncreated_game_is_empty
    (shuffleEncryptVerifier decryptVerifier : list Z -> list Z -> bool)
    (deployer : address) (s : Storage) :
  reachable shuffleEncryptVerifier decryptVerifier deployer s ->
  forall g, state_of s g = Uncreated ->
    game_view s g = (Uncreated, 0, 0, zeroDeck, zeroCardDeal, zeroPlayerInfo).
Proof.
  intros Hreach.
  induction Hreach as [|s msg_sender c Hreach IH]; intros g Hst.
  - unfold game_view, state_of, playerIndex_of, numPlayers_of, deck_of,
      cardDeal_of, playerInfo_of, deployed. cbn. rewrite !lookup_empty. reflexivity.
  - revert Hst. unfold step, transact.
    destruct (exec _ _ msg_sender c s) as [s'|e] eqn:Hexec; cbn [fst]; [|apply IH].
    intros Hst.
    destruct (decide (state_of s' g = state_of s g)) as [Hsame|Hch].
    2:{ exfalso. destruct (exec_state_change _ _ _ _ _ _ g Hexec Hch) as [_ H].
        destruct c; try contradiction; intuition congruence. }
    rewrite Hst in Hsame. symmetry in Hsame.
    rewrite <- (IH g Hsame).
    destruct (decide (game_of c = Some g)) as [Hg|Hg];
      [|eapply exec_other_game; eassumption].
    exfalso. destruct c; try discriminate; injection Hg as ->; cbn [exec] in Hexec.
    + unfold setGameSettings in Hexec. inv_bind Hexec. injection Hexec as <-.
      rewrite state_of_set in Hst. discriminate.
    + apply register_Ok_inv in Hexec as (_ & H & _). congruence.
    + apply shuffle_Ok_inv in Hexec as (_ & H & _). congruence.
    + unfold deal, deal_before_verifier, inDealingPhase in Hexec.
      inv_bind Hexec. inv_bind Hv.
      match goal with
      | H : require (bool_decide _) _ = Ok _ |- _ =>
          apply require_Ok_inv, bool_decide_eq_true_1 in H; congruence
      end.
Qed.

(** X23. The views of a game id that was never set up do not all revert:
    [queryDeck] returns the zero deck and [queryAggregatedPk] the pair
    [(0, 0)]; the two card queries revert, the game not being in its dealing
    phase; and [search], whose [require] compares the zero record with
    [(1 << 0) - 1], passes it and answers 0 while [initialDeck] is unset and
    999999 once it holds the literal deck. *)
Theorem views_of_a_game_never_set_up
    (shuffleEncryptVerifier decryptVerifier : list Z -> list Z -> bool)
    (deployer : address) (s : Storage) (gameId index : Z) :
  reachable shuffleEncryptVerifier decryptVerifier deployer s ->
  state_of s gameId = Uncreated ->
  0 <= index < 52 ->
  queryDeck s gameId = Some zeroDeck /\
  queryAggregatedPk s gameId = Some (0, 0) /\
  queryCardFromDeck s index gameId = Revert InvalidState /\
  queryCardInDeal s index gameId = Revert InvalidState /\
  (initialDeck s = zeroDeck /\ search s index gameId = Ok 0 \/
   initialDeck s = initial_deck /\
   search s index gameId = Ok INVALID_CARD_INDEX).
Proof.
  intros Hreach Hst Hi.
  pose proof (uncreated_game_is_empty _ _ _ _ Hreach gameId Hst) as Hv.
  unfold game_view in Hv. injection Hv as _ Hidx Hn Hdeck Hcd Hinfo.
  unfold queryDeck, queryAggregatedPk, queryCardFromDeck, queryCardInDeal,
    inDealingPhase, search.
  rewrite Hst, Hdeck, Hinfo, Hcd, Hn. cbn [bool_decide decide_rel].
  repeat (split; [reflexivity|]).
  rewrite !at52_in_range by exact Hi. cbn [bind zeroCardDeal record cards].
  assert (Hk : (Z.to_nat index < 52)%nat) by lia.
  rewrite !nth_replicate_lt by exact Hk.
  change (checked_sub (shl 1 0) 1) with (@Ok Z 0). cbn [bind require Z.eqb Card.X1 Card.zero].
  destruct (reachable_initialDeck _ _ _ _ Hreach) as [E|E]; rewrite E.
  - left. split; reflexivity.
  - right. split; [reflexivity|]. vm_compute. reflexivity.
Qed.

(** X24. What a shuffle stores is what the views give back: after a shuffle
    that succeeds [queryDeck] returns the submitted [X0], [X1] and
    selectors, and once the last player has shuffled [queryCardFromDeck]
    returns the submitted words of each card. *)
Theorem shuffle_then_query (shuffleEncryptVerifier : list Z -> list Z -> bool)
    (s s' : Storage) (msg_sender permanentAccount : address) (proof : list Z)
    (nonce : Z) (shuffledX0 shuffledX1 : list Z) (selector : Z * Z) (gameId : Z) :
  length shuffledX0 = 52%nat -> length shuffledX1 = 52%nat ->
  length (X0 (deck_of s gameId)) = 52%nat ->
  length (X1 (deck_of s gameId)) = 52%nat ->
  shuffle shuffleEncryptVerifier s msg_sender permanentAccount proof nonce
    shuffledX0 shuffledX1 selector gameId = Ok s' ->
  queryDeck s' gameId = Some (mkDeck shuffledX0 shuffledX1 selector) /\
  (playerIndex_of s gameId + 1 = numPlayers_of s gameId ->
   forall index, 0 <= index < 52 ->
     queryCardFromDeck s' index gameId
     = Ok [nth (Z.to_nat index) shuffledX0 0; nth (Z.to_nat index) shuffledX1 0;
           selector.1; selector.2]).
Proof.
  intros H0 H1 Hd0 Hd1 Hsh.
  apply shuffle_Ok_inv in Hsh as (_ & Hst & _ & _ & ->). cbv zeta.
  pose proof (updateDeck_deck s shuffledX0 shuffledX1 selector gameId H0 H1 Hd0 Hd1)
    as Hdeck.
  pose proof (updateDeck_frame s shuffledX0 shuffledX1 selector gameId gameId)
    as (_ & _ & _ & _ & Hst1).
  cbv zeta in Hst1. rewrite Hst in Hst1.
  set (s1 := updateDeck s shuffledX0 shuffledX1 selector gameId) in *.
  clearbody s1.
  unfold queryDeck, queryCardFromDeck, inDealingPhase.
  destruct (Z.eqb_spec (playerIndex_of s gameId + 1) (numPlayers_of s gameId)) as [E|NE].
  - change (state_of (set_playerIndex ?x gameId ?j) gameId) with (state_of x gameId).
    rewrite state_of_set.
    change (deck_of (set_playerIndex (set_state (set_playerIndex s1 gameId ?i) gameId ?v) gameId ?j) gameId)
      with (deck_of s1 gameId).
    rewrite Hdeck. cbn [bool_decide decide_rel]. split; [reflexivity|].
    intros _ index Hi. cbn [require bind X0 X1 Selector].
    rewrite !at52_in_range by exact Hi. reflexivity.
  - change (state_of (set_playerIndex s1 gameId ?i) gameId) with (state_of s1 gameId).
    change (deck_of (set_playerIndex s1 gameId ?i) gameId) with (deck_of s1 gameId).
    rewrite Hdeck, Hst1. cbn [bool_decide decide_rel]. split; [reflexivity|].
    intros E. contradiction.
Qed.

(** X25. What a deal stores is what [queryCardInDeal] gives back: the [X0]
    and [Y0] of the card, those of the first deal, and the share the deal
    submitted as [X1] and [Y1]. *)
Theorem deal_then_query (decryptVerifier : list Z -> list Z -> bool)
    (s s' : Storage) (msg_sender permanentAccount : address)
    (cardIdx curPlayerIdx : Z) (proof : list Z) (decryptedCard initDelta : Z * Z)
    (gameId : Z) :
  length (cards (cardDeal_of s gameId)) = 52%nat ->
  deal decryptVerifier s msg_sender permanentAccount cardIdx curPlayerIdx proof
    decryptedCard initDelta gameId = Ok s' ->
  exists x0 y0,
    queryCardInDeal s' cardIdx gameId
    = Ok [x0; y0; decryptedCard.1; decryptedCard.2] /\
    (nth (Z.to_nat cardIdx) (record (cardDeal_of s gameId)) 0 <> 0 ->
     queryCardInDeal s cardIdx gameId
     = Ok [x0; y0;
           Card.X1 (nth (Z.to_nat cardIdx) (cards (cardDeal_of s gameId)) Card.zero);
           Card.Y1 (nth (Z.to_nat cardIdx) (cards (cardDeal_of s gameId)) Card.zero)]).
Proof.
  intros Hcards Hdeal.
  apply deal_Ok_full in Hdeal; [|exact Hcards]. cbv zeta in Hdeal.
  destruct Hdeal as (Hst & _ & Hi & card0 & Hcard0 & ->).
  exists (Card.X0 card0), (Card.Y0 card0).
  unfold queryCardInDeal, inDealingPhase.
  change (state_of (set_cardDeal s gameId ?cd) gameId) with (state_of s gameId).
  rewrite Hst, cardDeal_of_set. cbn [bool_decide decide_rel require bind cards].
  rewrite !at52_in_range by exact Hi. cbn [bind].
  rewrite nth_set52 by lia. split; [reflexivity|].
  intros Hrec. apply Z.eqb_neq in Hrec. rewrite Hrec in Hcard0. subst card0.
  reflexivity.
Qed.

(** ** The table of [search] *)

Lemma search_loop_found (deckX1 : list Z) (v : Z) (n : nat) : forall (i k : nat),
  search_loop deckX1 v i n = Z.of_nat k -> Z.of_nat k < 999999 ->
  (i <= k < i + n)%nat /\ nth k deckX1 0 = v.
Proof.
  induction n as [|n IH]; intros i k H Hk.
  - change (search_loop deckX1 v i 0) with 999999 in H. lia.
  - change (search_loop deckX1 v i (S n))
      with (if nth i deckX1 0 =? v then Z.of_nat i
            else search_loop deckX1 v (S i) n) in H.
    destruct (Z.eqb_spec (nth i deckX1 0) v) as [E|NE].
    + apply Nat2Z.inj in H. subst k. split; [lia | exact E].
    + apply IH in H; [|exact Hk]. destruct H as [Hr Hv]. split; [lia | exact Hv].
Qed.

(** X26. The 52 entries of the literal [X1] table are distinct. So once
    [initialDeck] holds the literal deck, the index [search] returns for a
    card is the only slot of the table that holds the [X1] of the card. *)
Theorem search_finds_the_only_slot (s : Storage) (cardIndex gameId : Z) (k : nat) :
  initialDeck s = initial_deck ->
  search s cardIndex gameId = Ok (Z.of_nat k) ->
  (k < 52)%nat ->
  NoDup X1_table /\
  forall k' : nat,
    (k' < 52)%nat ->
    (nth k' X1_table 0
     = Card.X1 (nth (Z.to_nat cardIndex) (cards (cardDeal_of s gameId)) Card.zero)
     <-> k' = k).
Proof.
  intros Hinit Hsearch Hk.
  assert (Hnd : NoDup X1_table).
  { refine (bool_decide_eq_true_1 (NoDup X1_table) _). vm_compute. reflexivity. }
  split; [exact Hnd|].
  unfold search in Hsearch. inv_bind Hsearch. injection Hsearch as Hloop.
  rewrite Hinit in Hloop. cbn [X1 initial_deck] in Hloop.
  apply search_loop_found in Hloop as [_ Hfound]; [|lia].
  match goal with
  | H : at52 Card.zero _ _ = Ok _ |- _ => apply at52_Ok_inv in H as [_ ->]
  end.
  intros k' Hk'. split.
  - intros E. rewrite <- Hfound in E.
    apply (NoDup_nth X1_table 0) in E; [exact E|apply NoDup_ListNoDup, Hnd| |];
      change (length X1_table) with 52%nat; assumption.
  - intros ->. exact Hfound.
Qed.

(** ** A round of registrations *)

(** What a registration that succeeds does to its game. *)
Lemma register_effect
    (s s' : Storage) (msg_sender permanentAccount : address) (pk : Z * Z)
    (gameId : Z) :
  register s msg_sender permanentAccount pk gameId = Ok s' ->
  0 <= playerIndex_of s gameId ->
  let info := playerInfo_of s gameId in
  let info' := playerInfo_of s' gameId in
  gameContract s' = gameContract s /\
  numPlayers_of s' gameId = numPlayers_of s gameId /\
  playerAddr info' = playerAddr info ++ [permanentAccount] /\
  playerPk info' = playerPk info ++ [pk.1; pk.2] /\
  if playerIndex_of s gameId + 1 =? numPlayers_of s gameId
  then
    state_of s' gameId = ShufflingDeck /\
    playerIndex_of s' gameId = 0 /\
    aggregatedPk info'
    = sum_keys (take (Z.to_nat (numPlayers_of s gameId)) (keys (playerPk info'))) /\
    if gameId =? 0
    then initialDeck s' = initial_deck /\ deck_of s' gameId = deck_of s gameId
    else deck_of s' gameId = initial_deck /\ initialDeck s' = initialDeck s
  else
    state_of s' gameId = Registration /\
    playerIndex_of s' gameId = playerIndex_of s gameId + 1 /\
    aggregatedPk info' = aggregatedPk info /\
    deck_of s' gameId = deck_of s gameId /\
    initialDeck s' = initialDeck s.
Proof.
  intros Hreg Hidx. apply register_Ok_inv in Hreg. cbv zeta in *.
  destruct Hreg as (_ & Hst & _ & [(NE & ->)|(E & agg & Hagg & ->)]).
  - apply Z.eqb_neq in NE. rewrite NE.
    change (playerInfo_of (set_playerIndex (set_playerInfo s gameId ?i) gameId ?j) gameId)
      with (playerInfo_of (set_playerInfo s gameId i) gameId).
    rewrite playerInfo_of_set, playerIndex_of_set.
    repeat split; try reflexivity. exact Hst.
  - rewrite E, Z.eqb_refl.
    match goal with
    | |- context [initDeck ?s0 gameId] =>
        destruct (initDeck_frame s0 gameId gameId) as (_ & -> & -> & -> & ->);
        set (s1 := s0)
    end.
    assert (Hinfo : playerInfo_of s1 gameId
              = mkPlayerInfo (playerAddr (playerInfo_of s gameId) ++ [permanentAccount])
                  (playerPk (playerInfo_of s gameId) ++ [pk.1; pk.2]) agg)
      by apply playerInfo_of_set.
    rewrite Hinfo. cbn [playerAddr playerPk aggregatedPk].
    assert (Hdecks : (if gameId =? 0
                      then initialDeck (initDeck s1 gameId) = initial_deck /\
                           deck_of (initDeck s1 gameId) gameId = deck_of s gameId
                      else deck_of (initDeck s1 gameId) gameId = initial_deck /\
                           initialDeck (initDeck s1 gameId) = initialDeck s)).
    { unfold initDeck. destruct (gameId =? 0).
      - split; [apply initDeck_memory_eq | reflexivity].
      - split; [|reflexivity]. rewrite deck_of_set. apply initDeck_memory_eq. }
    split; [unfold initDeck; destruct (gameId =? 0); reflexivity|].
    split; [reflexivity|]. split; [reflexivity|]. split; [reflexivity|].
    split; [unfold s1; getset; reflexivity|].
    split; [unfold s1; getset; reflexivity|].
    split; [|exact Hdecks].
    clear Hdecks Hinfo s1.
    cbn [playerPk] in Hagg.
    set (pks := playerPk (playerInfo_of s gameId) ++ [pk.1; pk.2]) in *.
    rewrite <- E in *.
    set (n := playerIndex_of s gameId + 1) in *.
    assert (Hlen2 : (2 <= length pks)%nat).
    { unfold pks. rewrite length_app. cbn [length]. lia. }
    unfold aggregate_loop in Hagg.
    set (len := Z.to_nat (n - 1)).
    assert (Hn : n - 1 = Z.of_nat len) by lia.
    assert (Hrange : 2 * (1 + Z.of_nat len) <= Z.of_nat (length pks) /\
                     2 * (1 + Z.of_nat len) <= WORD).
    { destruct (decide (len = 0%nat)) as [->|Hpos].
      - split; [lia|]. vm_compute. discriminate.
      - destruct (foldM_Ok_elem _ _ _ _ (n - 1) Hagg) as (a & b & Hstep).
        { apply list_elem_of_In, elem_of_seqZ. lia. }
        apply aggregate_step_Ok_inv in Hstep as (_ & H1 & H2 & _). lia. }
    rewrite Hn in Hagg.
    rewrite aggregate_loop_fold in Hagg by lia.
    injection Hagg as <-.
    replace (Z.to_nat n) with (S len) by lia.
    change (Z.to_nat 1) with 1%nat.
    pose proof (keys_nth 0 pks ltac:(lia)) as Hk0.
    destruct (keys pks) as [|k0 ks] eqn:Hks.
    { pose proof (keys_length_ge 1 pks ltac:(lia)) as Hge. rewrite Hks in Hge.
      simpl in Hge. lia. }
    cbn [nth] in Hk0.
    change (2 * 0)%nat with 0%nat in Hk0. change (0 + 1)%nat with 1%nat in Hk0.
    rewrite <- Hk0.
    unfold sum_keys. cbn [take drop foldl]. rewrite point_add_identity_l.
    rewrite drop_0. reflexivity.
Qed.

(** A registration by the game contract goes through in a game in
    [Registration], with a key of the curve, as long as the keys the closing
    loop reads are there. *)
Lemma register_succeeds
    (s : Storage) (permanentAccount : address) (pk : Z * Z) (gameId : Z) :
  state_of s gameId = Registration ->
  isOnCurve pk.1 pk.2 = true ->
  0 <= playerIndex_of s gameId < 2 ^ 255 ->
  (playerIndex_of s gameId + 1 = numPlayers_of s gameId ->
   2 * numPlayers_of s gameId
   <= Z.of_nat (length (playerPk (playerInfo_of s gameId))) + 2) ->
  exists s', register s (gameContract s) permanentAccount pk gameId = Ok s'.
Proof.
  intros Hst Hpk Hidx Hkeys.
  assert (HW : WORD = 2 * 2 ^ 255) by reflexivity.
  unfold register, onlyGameContract. rewrite Z.eqb_refl. cbn [bind require].
  rewrite bool_decide_eq_true_2 by exact Hst. rewrite Hpk. cbn [bind require].
  change (playerIndex_of (set_playerInfo s gameId ?i) gameId)
    with (playerIndex_of s gameId).
  unfold checked_add.
  destruct (Z.ltb_spec (playerIndex_of s gameId + 1) WORD); [|lia]. cbn [bind].
  change (numPlayers_of (set_playerIndex (set_playerInfo s gameId ?i) gameId ?j) gameId)
    with (numPlayers_of s gameId).
  destruct (Z.eqb_spec (playerIndex_of s gameId + 1) (numPlayers_of s gameId)) as [E|NE];
    [|eexists; reflexivity].
  specialize (Hkeys E). cbn [playerPk].
  set (pks := playerPk (playerInfo_of s gameId) ++ [pk.1; pk.2]).
  assert (Hlen : Z.of_nat (length pks)
                 = Z.of_nat (length (playerPk (playerInfo_of s gameId))) + 2).
  { unfold pks. rewrite length_app. cbn [length]. lia. }
  rewrite !at_dyn_in_range by lia. cbn [bind].
  change (numPlayers_of (set_playerIndex (set_state ?x gameId ShufflingDeck) gameId 0) gameId)
    with (numPlayers_of x gameId).
  change (numPlayers_of (set_playerIndex (set_playerInfo s gameId ?i) gameId ?j) gameId)
    with (numPlayers_of s gameId).
  unfold aggregate_loop.
  replace (numPlayers_of s gameId - 1)
    with (Z.of_nat (Z.to_nat (numPlayers_of s gameId - 1))) by lia.
  rewrite aggregate_loop_fold by lia.
  cbn [bind]. eexists. reflexivity.
Qed.

Lemma keys_app_even (l1 l2 : list Z) (k : nat) :
  length l1 = (2 * k)%nat -> keys (l1 ++ l2) = keys l1 ++ keys l2.
Proof.
  revert l1. induction k as [|k IH]; intros l1 Hl.
  - destruct l1; [reflexivity | discriminate].
  - destruct l1 as [|x [|y l1]]; simpl in Hl; try lia.
    cbn [app keys]. f_equal. apply IH. lia.
Qed.

Lemma keys_flat_keys (regs : list (address * (Z * Z))) :
  keys (flat_keys regs) = regs.*2.
Proof.
  induction regs as [|[a [x y]] regs IH]; [reflexivity|].
  cbn [flat_keys flat_map app keys fmap list_fmap snd]. f_equal. exact IH.
Qed.

Lemma length_flat_keys (regs : list (address * (Z * Z))) :
  length (flat_keys regs) = (2 * length regs)%nat.
Proof.
  induction regs as [|r regs IH]; [reflexivity|].
  cbn [flat_keys flat_map app length] in *. unfold flat_keys in IH. lia.
Qed.

Lemma registration_round_from
    (shuffleEncryptVerifier decryptVerifier : list Z -> list Z -> bool)
    (gameId : Z) (regs : list (address * (Z * Z))) :
  forall (s : Storage) (k : nat),
    gameId <> 0 ->
    state_of s gameId = Registration ->
    playerIndex_of s gameId = Z.of_nat k ->
    length (playerPk (playerInfo_of s gameId)) = (2 * k)%nat ->
    numPlayers_of s gameId = Z.of_nat (k + length regs) ->
    regs <> [] ->
    Z.of_nat (k + length regs) < 2 ^ 255 ->
    Forall (fun r => isOnCurve r.2.1 r.2.2 = true) regs ->
    exists s',
      run_calls shuffleEncryptVerifier decryptVerifier (gameContract s)
        (map (fun r => CallRegister r.1 r.2 gameId) regs) s = Ok s' /\
      state_of s' gameId = ShufflingDeck /\
      playerIndex_of s' gameId = 0 /\
      playerAddr (playerInfo_of s' gameId)
        = playerAddr (playerInfo_of s gameId) ++ regs.*1 /\
      playerPk (playerInfo_of s' gameId)
        = playerPk (playerInfo_of s gameId) ++ flat_keys regs /\
      aggregatedPk (playerInfo_of s' gameId)
        = sum_keys (take (k + length regs)
                      (keys (playerPk (playerInfo_of s' gameId)))) /\
      numPlayers_of s' gameId = numPlayers_of s gameId /\
      deck_of s' gameId = initial_deck.
Proof.
  induction regs as [|r regs IH]; intros s k Hg Hst Hidx Hlen Hn Hne Hsmall Hvalid;
    [contradiction|].
  apply Forall_cons in Hvalid as [Hr Hvalid].
  cbn [length] in Hn, Hsmall.
  destruct (register_succeeds s r.1 r.2 gameId Hst Hr) as [s1 Hreg].
  { lia. }
  { intros E. rewrite Hlen. lia. }
  pose proof (register_effect _ _ _ _ _ _ Hreg ltac:(lia)) as Heff.
  cbv zeta in Heff. destruct Heff as (Hgc & Hn1 & Haddr & Hpks & Heff).
  unfold run_calls. cbn [map foldM exec]. rewrite Hreg. cbn [bind].
  destruct regs as [|r' regs].
  - (* the registration that closes *)
    cbn [map foldM].
    replace (playerIndex_of s gameId + 1 =? numPlayers_of s gameId) with true in Heff
      by (symmetry; apply Z.eqb_eq; rewrite Hidx, Hn; cbn [length]; lia).
    destruct Heff as (Hst1 & Hidx1 & Hagg & Hdecks).
    destruct (Z.eqb_spec gameId 0) as [|_]; [contradiction|].
    exists s1. split; [reflexivity|].
    split; [exact Hst1|]. split; [exact Hidx1|].
    split; [rewrite Haddr; reflexivity|].
    split; [rewrite Hpks; reflexivity|].
    split; [|split; [exact Hn1 | apply Hdecks]].
    rewrite Hagg, Hn. cbn [length]. do 2 f_equal. lia.
  - replace (playerIndex_of s gameId + 1 =? numPlayers_of s gameId) with false in Heff
      by (symmetry; apply Z.eqb_neq; rewrite Hidx, Hn; cbn [length]; lia).
    destruct Heff as (Hst1 & Hidx1 & _).
    destruct (IH s1 (S k)) as (s' & Hrun & Hst' & Hidx' & Haddr' & Hpks' & Hagg' & Hn' & Hdeck');
      try assumption.
    + lia.
    + rewrite Hpks, length_app, Hlen. cbn [length]. lia.
    + rewrite Hn1, Hn. cbn [length]. lia.
    + discriminate.
    + cbn [length] in *. lia.
    + exists s'. rewrite <- Hgc. unfold run_calls in Hrun.
      split; [exact Hrun|]. split; [exact Hst'|]. split; [exact Hidx'|].
      split; [rewrite Haddr', Haddr, <- app_assoc; reflexivity|].
      split; [rewrite Hpks', Hpks, <- app_assoc; reflexivity|].
      split; [|split; [congruence | exact Hdeck']].
      rewrite Hagg'. do 2 f_equal. cbn [length]. lia.
Qed.

(** X27. A whole round of registrations. Opened by [setGameSettings] for as
    many players as register, a game that holds no player yet, under an id
    other than 0, takes the registrations one after the other, every key a
    point of the curve, and ends in [ShufflingDeck] with the turn index 0,
    the players in the order they registered, their keys summed by
    [pointAdd] from the left into the aggregated key, and the literal deck. *)
Theorem registration_round
    (shuffleEncryptVerifier decryptVerifier : list Z -> list Z -> bool)
    (s : Storage) (gameId : Z) (regs : list (address * (Z * Z))) :
  gameId <> 0 ->
  playerAddr (playerInfo_of s gameId) = [] ->
  playerPk (playerInfo_of s gameId) = [] ->
  regs <> [] ->
  Z.of_nat (length regs) < 2 ^ 255 ->
  Forall (fun r => isOnCurve r.2.1 r.2.2 = true) regs ->
  exists s',
    run_calls shuffleEncryptVerifier decryptVerifier (gameContract s)
      (CallSetGameSettings (Z.of_nat (length regs)) gameId
       :: map (fun r => CallRegister r.1 r.2 gameId) regs) s = Ok s' /\
    state_of s' gameId = ShufflingDeck /\
    playerIndex_of s' gameId = 0 /\
    numPlayers_of s' gameId = Z.of_nat (length regs) /\
    playerAddr (playerInfo_of s' gameId) = regs.*1 /\
    aggregatedPk (playerInfo_of s' gameId) = sum_keys regs.*2 /\
    deck_of s' gameId = initial_deck.
Proof.
  intros Hg Haddr Hpks Hne Hsmall Hvalid.
  unfold run_calls. cbn [foldM exec].
  unfold setGameSettings, onlyGameContract. rewrite Z.eqb_refl. cbn [bind require].
  set (s0 := set_state _ gameId Registration).
  assert (Hinfo : playerInfo_of s0 gameId = playerInfo_of s gameId) by reflexivity.
  destruct (registration_round_from shuffleEncryptVerifier decryptVerifier
              gameId regs s0 0%nat)
    as (s' & Hrun & Hst' & Hidx' & Haddr' & Hpks' & Hagg' & Hn' & Hdeck');
    try assumption.
  - apply state_of_set.
  - unfold s0. getset. reflexivity.
  - rewrite Hinfo, Hpks. reflexivity.
  - unfold s0. getset. reflexivity.
  - exists s'. split; [exact Hrun|].
    split; [exact Hst'|]. split; [exact Hidx'|].
    split; [rewrite Hn'; unfold s0; getset; reflexivity|].
    split; [rewrite Haddr', Hinfo, Haddr; reflexivity|].
    split; [|exact Hdeck'].
    rewrite Hagg', Hpks', Hinfo, Hpks. cbn [app Nat.add].
    rewrite keys_flat_keys. rewrite take_ge; [reflexivity|].
    rewrite length_fmap. lia.
Qed.

(** ** A round of shuffles *)

(** What a shuffle that succeeds does to its game. *)
Lemma shuffle_effect (shuffleEncryptVerifier : list Z -> list Z -> bool)
    (s s' : Storage) (msg_sender permanentAccount : address) (proof : list Z)
    (nonce : Z) (shuffledX0 shuffledX1 : list Z) (selector : Z * Z) (gameId : Z) :
  length shuffledX0 = 52%nat -> length shuffledX1 = 52%nat ->
  length (X0 (deck_of s gameId)) = 52%nat ->
  length (X1 (deck_of s gameId)) = 52%nat ->
  shuffle shuffleEncryptVerifier s msg_sender permanentAccount proof nonce
    shuffledX0 shuffledX1 selector gameId = Ok s' ->
  gameContract s' = gameContract s /\
  numPlayers_of s' gameId = numPlayers_of s gameId /\
  playerInfo_of s' gameId = playerInfo_of s gameId /\
  cardDeal_of s' gameId = cardDeal_of s gameId /\
  deck_of s' gameId = mkDeck shuffledX0 shuffledX1 selector /\
  if playerIndex_of s gameId + 1 =? numPlayers_of s gameId
  then state_of s' gameId = DealingCard /\ playerIndex_of s' gameId = 0
  else state_of s' gameId = ShufflingDeck /\
       playerIndex_of s' gameId = playerIndex_of s gameId + 1.
Proof.
  intros H0 H1 Hd0 Hd1 Hsh.
  apply shuffle_Ok_inv in Hsh as (_ & Hst & _ & _ & ->). cbv zeta.
  pose proof (updateDeck_deck s shuffledX0 shuffledX1 selector gameId H0 H1 Hd0 Hd1)
    as Hdeck.
  pose proof (updateDeck_frame s shuffledX0 shuffledX1 selector gameId gameId)
    as (Hcd & Hinfo & Hidx & Hn & Hst1).
  cbv zeta in *. rewrite Hst in Hst1.
  assert (Hgc : gameContract (updateDeck s shuffledX0 shuffledX1 selector gameId)
                = gameContract s) by reflexivity.
  set (s1 := updateDeck s shuffledX0 shuffledX1 selector gameId) in *.
  clearbody s1.
  rewrite <- Hgc, <- Hn, <- Hinfo, <- Hcd, <- Hdeck.
  destruct (_ =? _).
  - repeat split; try reflexivity; getset; reflexivity.
  - repeat split; try reflexivity; getset; try reflexivity.
    revert Hst1. getset. auto.
Qed.

Lemma shuffle_succeeds (shuffleEncryptVerifier : list Z -> list Z -> bool)
    (s : Storage) (permanentAccount : address) (proof : list Z)
    (nonce : Z) (shuffledX0 shuffledX1 : list Z) (selector : Z * Z) (gameId : Z) :
  state_of s gameId = ShufflingDeck ->
  at_dyn 0 (playerAddr (playerInfo_of s gameId)) (playerIndex_of s gameId)
    = Ok permanentAccount ->
  shuffleEncryptVerifier proof
    (prepareShuffleData s nonce shuffledX0 shuffledX1 selector gameId) = true ->
  playerIndex_of s gameId + 1 < WORD ->
  exists s',
    shuffle shuffleEncryptVerifier s (gameContract s) permanentAccount proof
      nonce shuffledX0 shuffledX1 selector gameId = Ok s'.
Proof.
  intros Hst Hturn Hproof Hw.
  unfold shuffle, onlyGameContract. rewrite Z.eqb_refl. cbn [bind require].
  rewrite bool_decide_eq_true_2 by exact Hst. cbn [bind require].
  rewrite Hturn. cbn [bind]. rewrite Z.eqb_refl, Hproof. cbn [bind require].
  change (playerIndex_of (updateDeck s shuffledX0 shuffledX1 selector gameId) gameId)
    with (playerIndex_of s gameId).
  unfold checked_add. destruct (Z.ltb_spec (playerIndex_of s gameId + 1) WORD); [|lia].
  cbn [bind]. destruct (_ =? _); eexists; reflexivity.
Qed.

Lemma shuffle_round_from
    (shuffleEncryptVerifier decryptVerifier : list Z -> list Z -> bool)
    (gameId : Z) (subs : list Submission) :
  forall (s : Storage) (k : nat),
    state_of s gameId = ShufflingDeck ->
    playerIndex_of s gameId = Z.of_nat k ->
    numPlayers_of s gameId = Z.of_nat (k + length subs) ->
    subs <> [] ->
    Z.of_nat (k + length subs) < WORD ->
    length (X0 (deck_of s gameId)) = 52%nat ->
    length (X1 (deck_of s gameId)) = 52%nat ->
    map sub_account subs
      = take (length subs) (drop k (playerAddr (playerInfo_of s gameId))) ->
    proved_in_chain shuffleEncryptVerifier (aggregatedPk (playerInfo_of s gameId))
      (deck_of s gameId) subs ->
    exists s',
      run_calls shuffleEncryptVerifier decryptVerifier (gameContract s)
        (map (shuffle_call gameId) subs) s = Ok s' /\
      state_of s' gameId = DealingCard /\
      playerIndex_of s' gameId = 0 /\
      deck_of s' gameId = sub_deck (List.last subs (mkSubmission 0 [] 0 [] [] (0, 0))) /\
      numPlayers_of s' gameId = numPlayers_of s gameId /\
      playerInfo_of s' gameId = playerInfo_of s gameId /\
      cardDeal_of s' gameId = cardDeal_of s gameId.
Proof.
  induction subs as [|sub subs IH];
    intros s k Hst Hidx Hn Hne Hsmall Hd0 Hd1 Hturns Hchain; [contradiction|].
  cbn [proved_in_chain] in Hchain. destruct Hchain as (H0 & H1 & Hproof & Hchain).
  cbn [length] in Hn, Hsmall.
  assert (Hturn : at_dyn 0 (playerAddr (playerInfo_of s gameId)) (playerIndex_of s gameId)
                  = Ok (sub_account sub)).
  { cbn [map length] in Hturns.
    destruct (drop k (playerAddr (playerInfo_of s gameId))) as [|a rest] eqn:Hdrop;
      [discriminate|].
    cbn [take] in Hturns. injection Hturns as Ha _.
    assert (Hlk : playerAddr (playerInfo_of s gameId) !! k = Some a).
    { rewrite <- (Nat.add_0_r k), <- lookup_drop, Hdrop. reflexivity. }
    pose proof (lookup_lt_Some _ _ _ Hlk) as Hlt.
    rewrite Hidx, at_dyn_in_range by (unfold address in *; lia).
    rewrite Nat2Z.id, (nth_lookup_Some _ _ _ _ Hlk), Ha. reflexivity. }
  destruct (shuffle_succeeds shuffleEncryptVerifier s (sub_account sub) (sub_proof sub)
              (sub_nonce sub) (sub_X0 sub) (sub_X1 sub) (sub_selector sub) gameId
              Hst Hturn) as [s1 Hsh].
  { rewrite prepareShuffleData_signals by assumption. exact Hproof. }
  { lia. }
  pose proof (shuffle_effect _ _ _ _ _ _ _ _ _ _ _ H0 H1 Hd0 Hd1 Hsh)
    as (Hgc & Hn1 & Hinfo1 & Hcd1 & Hdeck1 & Heff).
  unfold run_calls. cbn [map foldM exec shuffle_call]. rewrite Hsh. cbn [bind].
  destruct subs as [|sub' subs].
  - cbn [map foldM List.last].
    replace (playerIndex_of s gameId + 1 =? numPlayers_of s gameId) with true in Heff
      by (symmetry; apply Z.eqb_eq; rewrite Hidx, Hn; cbn [length]; lia).
    destruct Heff as [Hst1 Hidx1].
    exists s1. repeat split; assumption.
  - replace (playerIndex_of s gameId + 1 =? numPlayers_of s gameId) with false in Heff
      by (symmetry; apply Z.eqb_neq; rewrite Hidx, Hn; cbn [length]; lia).
    destruct Heff as [Hst1 Hidx1].
    destruct (IH s1 (S k))
      as (s' & Hrun & Hst' & Hidx' & Hdeck' & Hn' & Hinfo' & Hcd');
      try (rewrite ?Hdeck1; assumption).
    + lia.
    + rewrite Hn1, Hn. cbn [length]. lia.
    + discriminate.
    + cbn [length] in *. lia.
    + rewrite Hinfo1. cbn [map length] in Hturns.
      destruct (drop k (playerAddr (playerInfo_of s gameId))) as [|a rest] eqn:Hdrop;
        [discriminate|].
      cbn [take] in Hturns. injection Hturns as _ Hrest.
      replace (S k) with (k + 1)%nat by lia.
      rewrite <- (drop_drop _ 1 k), Hdrop. exact Hrest.
    + rewrite Hinfo1, Hdeck1. exact Hchain.
    + exists s'. rewrite <- Hgc. unfold run_calls in Hrun.
      split; [exact Hrun|]. split; [exact Hst'|]. split; [exact Hidx'|].
      split; [exact Hdeck'|]. repeat split; congruence.
Qed.

(** X28. A whole round of shuffles. In a game in [ShufflingDeck] with the
    turn index 0, the players shuffle in the order they registered, each with
    52 slots and a proof the verifier accepts against the deck left by the
    shuffle before; after the last one the game is in [DealingCard] with the
    turn index 0 and the deck of the last submission, its players and its
    deals untouched. *)
Theorem shuffle_round
    (shuffleEncryptVerifier decryptVerifier : list Z -> list Z -> bool)
    (s : Storage) (gameId : Z) (subs : list Submission) :
  state_of s gameId = ShufflingDeck ->
  playerIndex_of s gameId = 0 ->
  numPlayers_of s gameId = Z.of_nat (length subs) ->
  subs <> [] ->
  Z.of_nat (length subs) < WORD ->
  length (X0 (deck_of s gameId)) = 52%nat ->
  length (X1 (deck_of s gameId)) = 52%nat ->
  map sub_account subs
    = take (length subs) (playerAddr (playerInfo_of s gameId)) ->
  proved_in_chain shuffleEncryptVerifier (aggregatedPk (playerInfo_of s gameId))
    (deck_of s gameId) subs ->
  exists s',
    run_calls shuffleEncryptVerifier decryptVerifier (gameContract s)
      (map (shuffle_call gameId) subs) s = Ok s' /\
    state_of s' gameId = DealingCard /\
    playerIndex_of s' gameId = 0 /\
    deck_of s' gameId = sub_deck (List.last subs (mkSubmission 0 [] 0 [] [] (0, 0))) /\
    numPlayers_of s' gameId = numPlayers_of s gameId /\
    playerInfo_of s' gameId = playerInfo_of s gameId /\
    cardDeal_of s' gameId = cardDeal_of s gameId.
Proof.
  intros Hst Hidx Hn Hne Hsmall Hd0 Hd1 Hturns Hchain.
  apply (shuffle_round_from shuffleEncryptVerifier decryptVerifier gameId subs s 0%nat);
    assumption.
Qed.

(** ** A round of deals *)

Lemma lor_ones_pow2 (k : Z) :
  0 <= k -> Z.lor (2 ^ k - 1) (2 ^ k) = 2 ^ (k + 1) - 1.
Proof.
  intros Hk. rewrite !Z.sub_1_r, <- !Z.ones_equiv.
  apply Z.bits_inj'. intros m Hm.
  rewrite Z.lor_spec, !Z.testbit_ones_nonneg by lia.
  destruct (Z.eq_dec m k) as [->|Hne].
  - rewrite Z.pow2_bits_true by lia.
    destruct (Z.ltb_spec k k); destruct (Z.ltb_spec k (k + 1)); try lia; reflexivity.
  - rewrite Z.pow2_bits_false, orb_false_r by lia.
    destruct (Z.ltb_spec m k); destruct (Z.ltb_spec m (k + 1)); try lia; reflexivity.
Qed.

Lemma land_ones_pow2 (k : Z) : 0 <= k -> Z.land (2 ^ k - 1) (2 ^ k) = 0.
Proof.
  intros Hk. rewrite !Z.sub_1_r, <- !Z.ones_equiv.
  apply Z.bits_inj'. intros m Hm.
  rewrite Z.land_spec, Z.bits_0, Z.testbit_ones_nonneg by lia.
  destruct (Z.eq_dec m k) as [->|Hne].
  - destruct (Z.ltb_spec k k); [lia|]. reflexivity.
  - rewrite Z.pow2_bits_false by lia. apply andb_false_r.
Qed.

(** A deal by the game contract goes through once its guards hold and the
    verifier accepts the eight signals read back from storage. *)
Lemma deal_succeeds (decryptVerifier : list Z -> list Z -> bool)
    (s : Storage) (permanentAccount : address) (cardIdx curPlayerIdx : Z)
    (proof : list Z) (decryptedCard initDelta : Z * Z) (gameId : Z) (card : Card.t) :
  let cd := cardDeal_of s gameId in
  let rec := nth (Z.to_nat cardIdx) (record cd) 0 in
  let pks := playerPk (playerInfo_of s gameId) in
  state_of s gameId = DealingCard ->
  at_dyn 0 (playerAddr (playerInfo_of s gameId)) curPlayerIdx = Ok permanentAccount ->
  0 <= cardIdx < 52 ->
  length (cards cd) = 52%nat ->
  Z.land rec (shl 1 curPlayerIdx) = 0 ->
  (if rec =? 0
   then exists Y, decompressCard s cardIdx initDelta gameId = Ok Y /\
          card = Card.mk (nth (Z.to_nat cardIdx) (X0 (deck_of s gameId)) 0) Y.1
                   (nth (Z.to_nat cardIdx) (X1 (deck_of s gameId)) 0) Y.2
   else card = nth (Z.to_nat cardIdx) (cards cd) Card.zero) ->
  0 <= curPlayerIdx -> 2 * curPlayerIdx + 1 < Z.of_nat (length pks) ->
  2 * curPlayerIdx + 1 < WORD ->
  decryptVerifier proof
    [decryptedCard.1; decryptedCard.2; Card.X0 card; Card.Y0 card;
     Card.X1 card; Card.Y1 card;
     nth (Z.to_nat (2 * curPlayerIdx)) pks 0;
     nth (Z.to_nat (2 * curPlayerIdx + 1)) pks 0] = true ->
  exists s',
    deal decryptVerifier s (gameContract s) permanentAccount cardIdx curPlayerIdx
      proof decryptedCard initDelta gameId = Ok s'.
Proof.
  intros cd rec pks Hst Hplayer Hi Hcards Hbit Hcard Hj Hpk Hw Hproof.
  unfold deal, deal_before_verifier, inDealingPhase, onlyGameContract.
  rewrite bool_decide_eq_true_2 by exact Hst. rewrite Z.eqb_refl, Hplayer.
  cbn [bind require]. rewrite Z.eqb_refl, at52_in_range by exact Hi.
  cbn [bind require]. fold cd. fold rec. rewrite Hbit. cbn [Z.eqb bind require].
  assert (Hsig : forall s1 : Storage,
            playerInfo_of s1 gameId = playerInfo_of s gameId ->
            nth (Z.to_nat cardIdx) (cards (cardDeal_of s1 gameId)) Card.zero = card ->
            length (cards (cardDeal_of s1 gameId)) = 52%nat ->
            length (record (cardDeal_of s1 gameId)) = length (record cd) ->
            exists s',
              (do r <- (do card0 <- at52 Card.zero (cards (cardDeal_of s1 gameId)) cardIdx;
                        do j2 <- checked_mul 2 curPlayerIdx;
                        do pkx <- at_dyn 0 (playerPk (playerInfo_of s gameId)) j2;
                        do j21 <- checked_add j2 1;
                        do pky <- at_dyn 0 (playerPk (playerInfo_of s gameId)) j21;
                        Ok ([decryptedCard.1; decryptedCard.2; Card.X0 card0;
                             Card.Y0 card0; Card.X1 card0; Card.Y1 card0; pkx; pky],
                            s1));
               do _ <- require (decryptVerifier proof r.1) ProofFailed;
               deal_after_verifier r.2 cardIdx curPlayerIdx decryptedCard gameId)
              = Ok s').
  { intros s1 _ Hc1 Hlc _. rewrite at52_in_range by exact Hi. cbn [bind].
    unfold checked_mul, checked_add.
    destruct (Z.ltb_spec (2 * curPlayerIdx) WORD); [|lia]. cbn [bind].
    fold pks. rewrite at_dyn_in_range by lia. cbn [bind].
    destruct (Z.ltb_spec (2 * curPlayerIdx + 1) WORD); [|lia]. cbn [bind].
    rewrite at_dyn_in_range by lia. cbn [bind fst snd].
    rewrite Hc1, Hproof. cbn [bind require].
    unfold deal_after_verifier. rewrite !at52_in_range by exact Hi. cbn [bind].
    eexists. reflexivity. }
  destruct (rec =? 0).
  - destruct Hcard as (Y & HY & ->). rewrite HY. cbn [bind].
    rewrite !at52_in_range by exact Hi. cbn [bind].
    match goal with
    | |- context [set_cardDeal s gameId ?c] =>
        destruct (Hsig (set_cardDeal s gameId c)) as [s' Hs']
    end.
    + reflexivity.
    + rewrite cardDeal_of_set. cbn [cards]. apply nth_set52. lia.
    + rewrite cardDeal_of_set. cbn [cards]. unfold set52.
      rewrite length_insert. exact Hcards.
    + rewrite cardDeal_of_set. reflexivity.
    + exists s'. exact Hs'.
  - cbn [bind].
    destruct (Hsig s) as [s' Hs'];
      [reflexivity | symmetry; exact Hcard | exact Hcards | reflexivity |].
    exists s'. exact Hs'.
Qed.

Lemma take_drop_cons {T : Type} (a : T) (rest l : list T) (k n : nat) :
  a :: rest = take (S n) (drop k l) ->
  l !! k = Some a /\ rest = take n (drop (S k) l).
Proof.
  intros H. destruct (drop k l) as [|b more] eqn:Hdrop; [discriminate|].
  cbn [take] in H. injection H as -> ->. split.
  - rewrite <- (Nat.add_0_r k), <- lookup_drop, Hdrop. reflexivity.
  - replace (S k) with (k + 1)%nat by lia.
    rewrite <- (drop_drop _ 1 k), Hdrop. reflexivity.
Qed.

Lemma last_cons_default {T : Type} (l : list T) : forall (x d1 d2 : T),
  List.last (x :: l) d1 = List.last (x :: l) d2.
Proof.
  induction l as [|y l IH]; intros x d1 d2; [reflexivity|].
  change (List.last (y :: l) d1 = List.last (y :: l) d2). apply IH.
Qed.

Lemma deal_round_from
    (shuffleEncryptVerifier decryptVerifier : list Z -> list Z -> bool)
    (gameId cardIdx : Z) (ds : list DealSubmission) :
  forall (s : Storage) (k : nat) (c : Card.t),
    (1 <= k)%nat ->
    state_of s gameId = DealingCard ->
    0 <= cardIdx < 52 ->
    length (cards (cardDeal_of s gameId)) = 52%nat ->
    length (record (cardDeal_of s gameId)) = 52%nat ->
    nth (Z.to_nat cardIdx) (record (cardDeal_of s gameId)) 0 = 2 ^ Z.of_nat k - 1 ->
    nth (Z.to_nat cardIdx) (cards (cardDeal_of s gameId)) Card.zero = c ->
    Z.of_nat (k + length ds) < 256 ->
    map deal_account ds
      = take (length ds) (drop k (playerAddr (playerInfo_of s gameId))) ->
    (2 * (k + length ds) <= length (playerPk (playerInfo_of s gameId)))%nat ->
    deals_proved decryptVerifier (Card.X0 c) (Card.Y0 c) (Card.X1 c, Card.Y1 c)
      (playerPk (playerInfo_of s gameId)) k ds ->
    exists s',
      run_calls shuffleEncryptVerifier decryptVerifier (gameContract s)
        (deal_calls gameId cardIdx k ds) s = Ok s' /\
      nth (Z.to_nat cardIdx) (record (cardDeal_of s' gameId)) 0
        = 2 ^ Z.of_nat (k + length ds) - 1 /\
      nth (Z.to_nat cardIdx) (cards (cardDeal_of s' gameId)) Card.zero
        = (let share := List.last (map deal_share ds) (Card.X1 c, Card.Y1 c) in
           Card.mk (Card.X0 c) (Card.Y0 c) share.1 share.2) /\
      length (cards (cardDeal_of s' gameId)) = 52%nat /\
      length (record (cardDeal_of s' gameId)) = 52%nat /\
      state_of s' gameId = DealingCard /\
      numPlayers_of s' gameId = numPlayers_of s gameId /\
      deck_of s' gameId = deck_of s gameId /\
      initialDeck s' = initialDeck s.
Proof.
  induction ds as [|d ds IH];
    intros s k c Hk Hst Hi Hcards Hrecs Hrec Hcard Hsmall Hturns Hpks Hproved.
  - exists s. unfold run_calls. cbn [deal_calls foldM map List.last length].
    rewrite Nat.add_0_r. destruct c. cbn. repeat split; assumption.
  - cbn [deals_proved] in Hproved. destruct Hproved as [Hproof Hproved].
    cbn [length map] in *.
    apply take_drop_cons in Hturns as [Hlk Hturns].
    pose proof (lookup_lt_Some _ _ _ Hlk) as Hlt.
    assert (Hpow : 0 < 2 ^ Z.of_nat k) by (apply Z.pow_pos_nonneg; lia).
    assert (Hpow1 : 2 ^ 1 <= 2 ^ Z.of_nat k) by (apply Z.pow_le_mono_r; lia).
    assert (Hrec0 : (nth (Z.to_nat cardIdx) (record (cardDeal_of s gameId)) 0 =? 0) = false)
      by (apply Z.eqb_neq; rewrite Hrec; change (2 ^ 1) with 2 in Hpow1; lia).
    destruct (deal_succeeds decryptVerifier s (deal_account d) cardIdx (Z.of_nat k)
                (deal_proof d) (deal_share d) (deal_delta d) gameId c)
      as [s1 Hdeal]; try assumption.
    + rewrite at_dyn_in_range by (unfold address in *; lia).
      rewrite Nat2Z.id, (nth_lookup_Some _ _ _ _ Hlk). reflexivity.
    + rewrite Hrec, shl_1_pow2 by lia. apply land_ones_pow2. lia.
    + rewrite Hrec0. symmetry. exact Hcard.
    + lia.
    + lia.
    + assert (HW : WORD = 2 ^ 256) by reflexivity. rewrite HW.
      assert (2 ^ 10 <= 2 ^ 256) by (apply Z.pow_le_mono_r; lia).
      change (2 ^ 10) with 1024 in *. lia.
    + replace (Z.to_nat (2 * Z.of_nat k)) with (2 * k)%nat by lia.
      replace (Z.to_nat (2 * Z.of_nat k + 1)) with (2 * k + 1)%nat by lia.
      exact Hproof.
    + pose proof (deal_Ok_full _ _ _ _ _ _ _ _ _ _ _ Hcards Hdeal) as Hfull.
      cbv zeta in Hfull. destruct Hfull as (_ & _ & _ & card0 & Hcard0 & Hs1).
      rewrite Hrec0 in Hcard0. rewrite Hcard in Hcard0. subst card0.
      rewrite Hrec, shl_1_pow2, lor_ones_pow2 in Hs1 by lia.
      set (c1 := Card.mk (Card.X0 c) (Card.Y0 c) (deal_share d).1 (deal_share d).2) in *.
      assert (Hcd1 : cardDeal_of s1 gameId
                = mkCardDeal (set52 (cards (cardDeal_of s gameId)) cardIdx c1)
                    (set52 (record (cardDeal_of s gameId)) cardIdx
                       (2 ^ (Z.of_nat k + 1) - 1)))
        by (subst s1; apply cardDeal_of_set).
      assert (Hinfo1 : playerInfo_of s1 gameId = playerInfo_of s gameId)
        by (subst s1; reflexivity).
      assert (Hst1 : state_of s1 gameId = DealingCard) by (subst s1; exact Hst).
      assert (Hlc1 : length (cards (cardDeal_of s1 gameId)) = 52%nat).
      { rewrite Hcd1. cbn [cards]. unfold set52. rewrite length_insert. exact Hcards. }
      assert (Hlr1 : length (record (cardDeal_of s1 gameId)) = 52%nat).
      { rewrite Hcd1. cbn [record]. unfold set52. rewrite length_insert. exact Hrecs. }
      assert (Hrec1 : nth (Z.to_nat cardIdx) (record (cardDeal_of s1 gameId)) 0
                      = 2 ^ Z.of_nat (S k) - 1).
      { rewrite Hcd1. cbn [record]. rewrite nth_set52 by lia. f_equal. f_equal. lia. }
      assert (Hcard1 : nth (Z.to_nat cardIdx) (cards (cardDeal_of s1 gameId)) Card.zero = c1).
      { rewrite Hcd1. cbn [cards]. apply nth_set52. lia. }
      assert (Hsmall1 : Z.of_nat (S k + length ds) < 256) by lia.
      assert (Hturns1 : map deal_account ds
                = take (length ds) (drop (S k) (playerAddr (playerInfo_of s1 gameId))))
        by (rewrite Hinfo1; exact Hturns).
      assert (Hpks1 : (2 * (S k + length ds) <= length (playerPk (playerInfo_of s1 gameId)))%nat)
        by (rewrite Hinfo1; lia).
      assert (Hproved1 : deals_proved decryptVerifier (Card.X0 c1) (Card.Y0 c1)
                (Card.X1 c1, Card.Y1 c1) (playerPk (playerInfo_of s1 gameId)) (S k) ds).
      { rewrite Hinfo1. unfold c1. cbn [Card.X0 Card.Y0 Card.X1 Card.Y1].
        rewrite <- surjective_pairing. exact Hproved. }
      destruct (IH s1 (S k) c1 ltac:(lia) Hst1 Hi Hlc1 Hlr1 Hrec1 Hcard1 Hsmall1
                  Hturns1 Hpks1 Hproved1)
        as (s' & Hrun & Hrec' & Hcard' & Hlc' & Hlr' & Hst' & Hn' & Hdeck' & Hinit').
      exists s'. unfold run_calls. cbn [deal_calls foldM exec].
      rewrite Hdeal. cbn [bind].
      assert (Hgc : gameContract s1 = gameContract s) by (subst s1; reflexivity).
      rewrite <- Hgc. unfold run_calls in Hrun.
      split; [exact Hrun|].
      split; [rewrite Hrec'; f_equal; f_equal; lia|].
      split.
      { rewrite Hcard'. unfold c1. cbn [Card.X0 Card.Y0 Card.X1 Card.Y1].
        rewrite <- surjective_pairing.
        destruct ds as [|d' ds]; [reflexivity|].
        cbn [map]. cbv zeta.
        rewrite (last_cons_default _ (deal_share d') (deal_share d) (Card.X1 c, Card.Y1 c)).
        reflexivity. }
      split; [exact Hlc'|]. split; [exact Hlr'|]. split; [exact Hst'|].
      subst s1. repeat split; assumption.
Qed.

(** X29. A whole round of deals of one card. In a game in [DealingCard], on
    a card no one has dealt yet, the players deal in turn: the first with an
    [initDelta] that decompresses the card of the deck, each with a proof the
    verifier accepts against the card as the deal before left it. After the
    last one the record of the card is [(1 << numPlayers) - 1], the card
    holds the decompressed [(X0, Y0)] and the share of the last deal, and
    [search] of the card succeeds: it looks the [X] of that share up in
    [initialDeck]. *)
Theorem deal_round
    (shuffleEncryptVerifier decryptVerifier : list Z -> list Z -> bool)
    (s : Storage) (gameId cardIdx : Z) (d : DealSubmission)
    (ds : list DealSubmission) (Y : Z * Z) :
  let x0 := nth (Z.to_nat cardIdx) (X0 (deck_of s gameId)) 0 in
  let x1 := nth (Z.to_nat cardIdx) (X1 (deck_of s gameId)) 0 in
  let last_share := List.last (map deal_share (d :: ds)) (0, 0) in
  state_of s gameId = DealingCard ->
  0 <= cardIdx < 52 ->
  length (cards (cardDeal_of s gameId)) = 52%nat ->
  length (record (cardDeal_of s gameId)) = 52%nat ->
  nth (Z.to_nat cardIdx) (record (cardDeal_of s gameId)) 0 = 0 ->
  numPlayers_of s gameId = Z.of_nat (length (d :: ds)) ->
  Z.of_nat (length (d :: ds)) < 256 ->
  map deal_account (d :: ds)
    = take (length (d :: ds)) (playerAddr (playerInfo_of s gameId)) ->
  (2 * length (d :: ds) <= length (playerPk (playerInfo_of s gameId)))%nat ->
  decompressCard s cardIdx (deal_delta d) gameId = Ok Y ->
  deals_proved decryptVerifier x0 Y.1 (x1, Y.2)
    (playerPk (playerInfo_of s gameId)) 0 (d :: ds) ->
  exists s',
    run_calls shuffleEncryptVerifier decryptVerifier (gameContract s)
      (deal_calls gameId cardIdx 0 (d :: ds)) s = Ok s' /\
    state_of s' gameId = DealingCard /\
    nth (Z.to_nat cardIdx) (record (cardDeal_of s' gameId)) 0
      = 2 ^ numPlayers_of s gameId - 1 /\
    nth (Z.to_nat cardIdx) (cards (cardDeal_of s' gameId)) Card.zero
      = Card.mk x0 Y.1 last_share.1 last_share.2 /\
    search s' cardIdx gameId
      = Ok (search_loop (X1 (initialDeck s)) last_share.1 0 52).
Proof.
  intros x0 x1 last_share Hst Hi Hcards Hrecs Hrec Hn Hsmall Hturns Hpks HY Hproved.
  cbn [deals_proved] in Hproved. destruct Hproved as [Hproof Hproved].
  cbn [length map] in *.
  change (take (S (length ds)) (playerAddr (playerInfo_of s gameId)))
    with (take (S (length ds)) (drop 0 (playerAddr (playerInfo_of s gameId)))) in Hturns.
  apply take_drop_cons in Hturns as [Hlk Hturns].
  pose proof (lookup_lt_Some _ _ _ Hlk) as Hlt.
  set (c0 := Card.mk x0 Y.1 x1 Y.2).
  assert (Hplayer : at_dyn 0 (playerAddr (playerInfo_of s gameId)) 0 = Ok (deal_account d)).
  { rewrite at_dyn_in_range by (unfold address in *; lia).
    change (Z.to_nat 0) with 0%nat.
    rewrite (nth_lookup_Some _ _ _ _ Hlk). reflexivity. }
  assert (Hbit : Z.land (nth (Z.to_nat cardIdx) (record (cardDeal_of s gameId)) 0)
                   (shl 1 0) = 0) by (rewrite Hrec; reflexivity).
  assert (Hc0 : if nth (Z.to_nat cardIdx) (record (cardDeal_of s gameId)) 0 =? 0
                then exists Y0, decompressCard s cardIdx (deal_delta d) gameId = Ok Y0 /\
                       c0 = Card.mk (nth (Z.to_nat cardIdx) (X0 (deck_of s gameId)) 0) Y0.1
                              (nth (Z.to_nat cardIdx) (X1 (deck_of s gameId)) 0) Y0.2
                else c0 = nth (Z.to_nat cardIdx) (cards (cardDeal_of s gameId)) Card.zero).
  { rewrite Hrec. cbn [Z.eqb]. exists Y. split; [exact HY | reflexivity]. }
  assert (Hpk0 : 2 * 0 + 1 < Z.of_nat (length (playerPk (playerInfo_of s gameId)))) by lia.
  assert (Hw0 : 2 * 0 + 1 < WORD) by reflexivity.
  destruct (deal_succeeds decryptVerifier s (deal_account d) cardIdx 0
              (deal_proof d) (deal_share d) (deal_delta d) gameId c0
              Hst Hplayer Hi Hcards Hbit Hc0 ltac:(lia) Hpk0 Hw0 Hproof)
    as [s1 Hdeal].
  pose proof (deal_Ok_full _ _ _ _ _ _ _ _ _ _ _ Hcards Hdeal) as Hfull.
  cbv zeta in Hfull. destruct Hfull as (_ & _ & _ & card0 & Hcard0 & Hs1).
  rewrite Hrec in Hcard0, Hs1. cbn [Z.eqb] in Hcard0.
  destruct Hcard0 as (Y' & HY' & ->). rewrite HY in HY'. injection HY' as <-.
  change (Z.lor 0 (shl 1 0)) with (2 ^ Z.of_nat 1 - 1) in Hs1.
  cbn [Card.X0 Card.Y0] in Hs1. fold x0 in Hs1.
  set (c1 := Card.mk x0 Y.1 (deal_share d).1 (deal_share d).2) in *.
  assert (Hcd1 : cardDeal_of s1 gameId
            = mkCardDeal (set52 (cards (cardDeal_of s gameId)) cardIdx c1)
                (set52 (record (cardDeal_of s gameId)) cardIdx (2 ^ Z.of_nat 1 - 1)))
    by (subst s1; apply cardDeal_of_set).
  assert (Hinfo1 : playerInfo_of s1 gameId = playerInfo_of s gameId)
    by (subst s1; reflexivity).
  assert (Hst1 : state_of s1 gameId = DealingCard) by (subst s1; exact Hst).
  assert (Hlc1 : length (cards (cardDeal_of s1 gameId)) = 52%nat).
  { rewrite Hcd1. cbn [cards]. unfold set52. rewrite length_insert. exact Hcards. }
  assert (Hlr1 : length (record (cardDeal_of s1 gameId)) = 52%nat).
  { rewrite Hcd1. cbn [record]. unfold set52. rewrite length_insert. exact Hrecs. }
  assert (Hrec1 : nth (Z.to_nat cardIdx) (record (cardDeal_of s1 gameId)) 0
                  = 2 ^ Z.of_nat 1 - 1).
  { rewrite Hcd1. cbn [record]. apply nth_set52. lia. }
  assert (Hcard1 : nth (Z.to_nat cardIdx) (cards (cardDeal_of s1 gameId)) Card.zero = c1).
  { rewrite Hcd1. cbn [cards]. apply nth_set52. lia. }
  assert (Hturns1 : map deal_account ds
            = take (length ds) (drop 1 (playerAddr (playerInfo_of s1 gameId))))
    by (rewrite Hinfo1; exact Hturns).
  assert (Hpks1 : (2 * (1 + length ds) <= length (playerPk (playerInfo_of s1 gameId)))%nat)
    by (rewrite Hinfo1; lia).
  assert (Hproved1 : deals_proved decryptVerifier (Card.X0 c1) (Card.Y0 c1)
            (Card.X1 c1, Card.Y1 c1) (playerPk (playerInfo_of s1 gameId)) 1 ds).
  { rewrite Hinfo1. unfold c1. cbn [Card.X0 Card.Y0 Card.X1 Card.Y1].
    rewrite <- surjective_pairing. exact Hproved. }
  destruct (deal_round_from shuffleEncryptVerifier decryptVerifier gameId cardIdx ds
              s1 1%nat c1 ltac:(lia) Hst1 Hi Hlc1 Hlr1 Hrec1 Hcard1 ltac:(lia)
              Hturns1 Hpks1 Hproved1)
    as (s' & Hrun & Hrec' & Hcard' & Hlc' & Hlr' & Hst' & Hn' & Hdeck' & Hinit').
  assert (Hgc : gameContract s1 = gameContract s) by (subst s1; reflexivity).
  assert (Hn1 : numPlayers_of s1 gameId = numPlayers_of s gameId)
    by (subst s1; reflexivity).
  assert (Hinit1 : initialDeck s1 = initialDeck s) by (subst s1; reflexivity).
  assert (Hlast : List.last (map deal_share ds) (Card.X1 c1, Card.Y1 c1) = last_share).
  { unfold last_share, c1. cbn [map Card.X1 Card.Y1]. rewrite <- surjective_pairing.
    destruct ds as [|d' ds]; [reflexivity|]. cbn [map].
    change (List.last (deal_share d :: deal_share d' :: map deal_share ds) (0, 0))
      with (List.last (deal_share d' :: map deal_share ds) (0, 0)).
    apply last_cons_default. }
  cbv zeta in Hcard'. rewrite Hlast in Hcard'.
  exists s'. unfold run_calls. cbn [deal_calls foldM exec].
  change (Z.of_nat 0) with 0. rewrite Hdeal. cbn [bind].
  rewrite <- Hgc. unfold run_calls in Hrun.
  split; [exact Hrun|]. split; [exact Hst'|].
  assert (Hfull : nth (Z.to_nat cardIdx) (record (cardDeal_of s' gameId)) 0
                  = 2 ^ numPlayers_of s gameId - 1).
  { rewrite Hrec', Hn. do 2 f_equal. }
  split; [exact Hfull|].
  split; [rewrite Hcard'; unfold c1; reflexivity|].
  unfold search. rewrite !at52_in_range by exact Hi. cbn [bind].
  rewrite Hfull, Hn', Hn1, Hcard', Hinit', Hinit1. cbn [Card.X1].
  rewrite shl_1_pow2 by lia. unfold checked_sub.
  assert (Hpow : 0 < 2 ^ numPlayers_of s gameId) by (apply Z.pow_pos_nonneg; lia).
  destruct (Z.leb_spec 1 (2 ^ numPlayers_of s gameId)); [|lia].
  cbn [bind]. rewrite Z.eqb_refl. reflexivity.
Qed.

(** ** The further properties at work on the concrete games *)

Lemma deployed_well_formed (deployer : address) (g : Z) :
  well_formed_game (deployed deployer) g.
Proof.
  unfold well_formed_game, deck_of, cardDeal_of, playerInfo_of,
    playerIndex_of, numPlayers_of, state_of, deployed. cbn.
  rewrite !lookup_empty. cbn. wf_finish.
Qed.

Lemma run_well_formed (verifier : list Z -> list Z -> bool)
    (calls : list (address * Call)) : forall s : Storage,
  (forall g, well_formed_game s g) -> forall g, well_formed_game (run verifier calls s) g.
Proof.
  induction calls as [|c calls IH]; intros s Hwf; [exact Hwf|].
  unfold run. cbn [foldl]. apply IH.
  unfold step, transact.
  destruct (exec _ _ c.1 c.2 s) as [s'|e] eqn:Hexec; cbn [fst]; [|exact Hwf].
  eapply exec_well_formed; eassumption.
Qed.

Lemma dealt_once_well_formed (g : Z) : well_formed_game dealt_once g.
Proof.
  unfold dealt_once, in_deal, in_shuffle, in_registration.
  repeat apply run_well_formed. apply deployed_well_formed.
Qed.

(** X1 at work: the shuffling game is well formed. *)
Lemma reachable_well_formed_witness :
  well_formed_game in_shuffle 1 /\ well_formed_game in_shuffle 2.
Proof.
  pose proof (reachable_well_formed reject reject 1 in_shuffle in_shuffle_reachable)
    as H.
  exact (conj (H 1) (H 2)).
Defined.

(** X2 at work: [Base8] doubled is on the curve, with coordinates below [Q]. *)
Lemma pointAdd_on_curve_witness :
  let P := pointAdd Base8.1 Base8.2 Base8.1 Base8.2 in
  isOnCurve P.1 P.2 = true /\ 0 <= P.1 < Q /\ 0 <= P.2 < Q.
Proof.
  assert (Hx : 0 <= Base8.1 < Q) by (vm_compute; split; discriminate || reflexivity).
  assert (Hy : 0 <= Base8.2 < Q) by (vm_compute; split; discriminate || reflexivity).
  destruct (pointAdd_on_curve Base8.1 Base8.2 Base8.1 Base8.2
              Base8_on_curve Base8_on_curve) as [Hc Hr].
  exact (conj Hc (Hr Hx Hy Hx Hy)).
Defined.

(** X3 at work: a multiple of [Base8]. *)
Lemma pointMul_on_curve_witness :
  exists P : Z * Z,
    pointMul Base8.1 Base8.2 1000 = Some P /\ isOnCurve P.1 P.2 = true.
Proof.
  apply (pointMul_on_curve Base8.1 Base8.2 1000 Base8_on_curve). lia.
Defined.

(** X6 at work, on operands that make [submod] add the modulus. *)
Lemma submod_correct_witness : submod 3 5 7 = 5.
Proof.
  destruct (submod_correct 3 5 7 ltac:(lia) ltac:(lia) ltac:(lia)) as (_ & H & _).
  exact H.
Defined.

(** X8 at work: [(0, 1)] and [Base8] in both orders. *)
Lemma pointAdd_comm_witness :
  pointAdd 0 1 Base8.1 Base8.2 = pointAdd Base8.1 Base8.2 0 1.
Proof.
  apply (pointAdd_comm 0 1 Base8.1 Base8.2); discriminate.
Defined.

(** X10 at work: account 3 is not the game contract. *)
Lemma only_the_game_contract_witness :
  step reject reject 3 (CallRegister 12 (0, 1) 1) in_shuffle
  = (in_shuffle, Some NotGameContract).
Proof.
  apply (only_the_game_contract reject reject in_shuffle 3
           (CallRegister 12 (0, 1) 1) 1);
    [vm_compute; discriminate | reflexivity].
Defined.

(** X11 at work: the registration of account 11. *)
Lemma admin_only_by_the_owner_witness :
  owner in_shuffle = owner in_registration /\
  gameContract in_shuffle = gameContract in_registration.
Proof.
  apply (admin_only_by_the_owner reject reject 2 (CallRegister 11 (0, 1) 1)).
  - vm_compute. reflexivity.
  - right. discriminate.
Defined.

(** X12 at work: a registration in game 1 and the view of game 2. *)
Lemma games_are_isolated_witness :
  game_view (step reject reject 2 (CallRegister 11 (0, 1) 1) in_registration).1 2
  = game_view in_registration 2.
Proof. apply games_are_isolated. discriminate. Defined.

(** X13 at work, from the shuffling game. *)
Lemma state_machine_witness :
  (forall g, state_of in_shuffle g = Uncreated \/
             state_of in_shuffle g = Registration \/
             state_of in_shuffle g = ShufflingDeck \/
             state_of in_shuffle g = DealingCard) /\
  (forall msg_sender c s' g,
      exec reject reject msg_sender c in_shuffle = Ok s' ->
      state_of s' g <> state_of in_shuffle g ->
      game_of c = Some g /\
      match c with
      | CallSetGameSettings _ _ => state_of s' g = Registration
      | CallRegister _ _ _ =>
          state_of in_shuffle g = Registration /\ state_of s' g = ShufflingDeck /\
          playerIndex_of in_shuffle g + 1 = numPlayers_of in_shuffle g
      | CallShuffle _ _ _ _ _ _ _ =>
          state_of in_shuffle g = ShufflingDeck /\ state_of s' g = DealingCard /\
          playerIndex_of in_shuffle g + 1 = numPlayers_of in_shuffle g
      | _ => False
      end).
Proof.
  exact (state_machine reject reject 1 in_shuffle in_shuffle_reachable).
Defined.

(** X14 at work: game 3, opened for no player, takes a registration and stays
    in [Registration]. *)
Lemma registration_past_numPlayers_never_closes_witness :
  let s' := (step reject reject 2 (CallRegister 10 (0, 1) 3) no_players).1 in
  state_of s' 3 = Registration /\ numPlayers_of s' 3 <= playerIndex_of s' 3.
Proof.
  apply (registration_past_numPlayers_never_closes reject reject 2
           (CallRegister 10 (0, 1) 3) no_players).
  - vm_compute. reflexivity.
  - vm_compute. discriminate.
  - vm_compute. reflexivity.
  - intros n. discriminate.
Defined.

(** X15 at work, on the shuffling game. *)
Lemma reachable_valid_keys_witness :
  valid_keys in_shuffle 1 /\
  isOnCurve (aggregatedPk (playerInfo_of in_shuffle 1)).1
            (aggregatedPk (playerInfo_of in_shuffle 1)).2 = true.
Proof.
  pose proof (reachable_valid_keys reject reject 1 in_shuffle in_shuffle_reachable 1)
    as H.
  split; [exact H|]. apply H. left. vm_compute. reflexivity.
Defined.

(** X16 at work: the first deal of card 0 of game 1. *)
Lemma first_deal_decompresses_the_card_witness :
  Card.X0 (nth 0 (cards (cardDeal_of dealt_once 1)) Card.zero) = 0 /\
  Card.Y0 (nth 0 (cards (cardDeal_of dealt_once 1)) Card.zero) = Q - 1 /\
  isOnCurve 0 (Q - 1) = true.
Proof.
  assert (Hdeal : deal accept in_deal 2 10 0 0 [] (5, 6) (1, 1) 1 = Ok dealt_once)
    by (vm_compute; reflexivity).
  pose proof (first_deal_decompresses_the_card accept in_deal dealt_once 2 10 0 0
                [] (5, 6) (1, 1) 1 eq_refl eq_refl Hdeal) as H.
  cbv zeta in H. destruct H as (Hx & Hy & Hc & _).
  rewrite Hx, Hy in Hc. split; [exact Hx|]. split; [exact Hy | exact Hc].
Defined.

(** X17 at work: the second deal of card 0 of game 1. *)
Lemma later_deal_ignores_initDelta_witness :
  deal accept dealt_once 2 11 0 1 [] (7, 8) (9, 9) 1
  = deal accept dealt_once 2 11 0 1 [] (7, 8) (0, 0) 1.
Proof.
  apply (later_deal_ignores_initDelta accept dealt_once 2 11 0 1 [] (7, 8) (0, 0) 1).
  - reflexivity.
  - vm_compute. discriminate.
Defined.

(** X18 at work: the first deal of card 0 of game 1. *)
Lemma deal_writes_one_card_witness :
  deck_of dealt_once 1 = deck_of in_deal 1 /\
  nth 1 (cards (cardDeal_of dealt_once 1)) Card.zero
  = nth 1 (cards (cardDeal_of in_deal 1)) Card.zero.
Proof.
  assert (Hdeal : deal accept in_deal 2 10 0 0 [] (5, 6) (1, 1) 1 = Ok dealt_once)
    by (vm_compute; reflexivity).
  destruct (deal_writes_one_card accept in_deal dealt_once 2 10 0 0
              [] (5, 6) (1, 1) 1 eq_refl Hdeal) as (Hg & _ & _ & Hk).
  split; [apply Hg | apply (Hk 1%nat); discriminate].
Defined.

(** X19 at work: [setGameSettings] for game 1 after a deal keeps the bit of
    player 0 on card 0. *)
Lemma deal_records_only_gain_bits_witness :
  Z.testbit
    (nth 0 (record (cardDeal_of
                      (step accept accept 2 (CallSetGameSettings 2 1) dealt_once).1 1)) 0)
    0 = true.
Proof.
  apply (deal_records_only_gain_bits accept accept 2 (CallSetGameSettings 2 1) dealt_once).
  - intros g. destruct (dealt_once_well_formed g) as (_ & _ & H & _). exact H.
  - vm_compute. reflexivity.
  - vm_compute. reflexivity.
Defined.

(** X20 at work: the deal of player 1 completes the record of card 0. *)
Lemma completing_deal_then_search_witness :
  search dealt 0 1 = Ok (search_loop (X1 (initialDeck dealt_once)) 7 0 52).
Proof.
  apply (completing_deal_then_search accept dealt_once dealt 2 11 0 1 [] (7, 8) (0, 0) 1).
  - reflexivity.
  - reflexivity.
  - lia.
  - vm_compute. split; [discriminate | reflexivity].
  - vm_compute. reflexivity.
  - vm_compute. reflexivity.
Defined.

(** X21 at work: a rejected shuffle, and a transfer of the ownership to
    the zero address. *)
Lemma errors_of_each_call_witness :
  In ProofFailed (errors_of (CallShuffle 10 [] 0 shuffled shuffled (0, 0) 1)) /\
  In ZeroAddressOwner (errors_of (CallTransferOwnership 0)).
Proof.
  split.
  - apply (errors_of_each_call reject reject 2 _ in_shuffle). vm_compute. reflexivity.
  - apply (errors_of_each_call reject reject 1 _ in_shuffle). vm_compute. reflexivity.
Defined.

(** X22 at work: the signals of the first shuffle of game 1. *)
Lemma prepareShuffleData_layout_witness :
  length (prepareShuffleData in_shuffle 7 shuffled shuffled (0, 0) 1) = 215%nat.
Proof.
  apply (prepareShuffleData_layout in_shuffle 7 shuffled shuffled (0, 0) 1);
    reflexivity.
Defined.

(** X23 at work: game 2 was never set up. *)
Lemma views_of_a_game_never_set_up_witness :
  queryDeck in_shuffle 2 = Some zeroDeck /\
  queryAggregatedPk in_shuffle 2 = Some (0, 0) /\
  queryCardFromDeck in_shuffle 0 2 = Revert InvalidState /\
  queryCardInDeal in_shuffle 0 2 = Revert InvalidState /\
  (initialDeck in_shuffle = zeroDeck /\ search in_shuffle 0 2 = Ok 0 \/
   initialDeck in_shuffle = initial_deck /\
   search in_shuffle 0 2 = Ok INVALID_CARD_INDEX).
Proof.
  apply (views_of_a_game_never_set_up reject reject 1 in_shuffle 2 0
           in_shuffle_reachable).
  - vm_compute. reflexivity.
  - lia.
Defined.

(** X24 at work: the first shuffle of game 1. *)
Lemma shuffle_then_query_witness :
  queryDeck (step accept accept 2 (CallShuffle 10 [] 0 shuffled shuffled (0, 0) 1)
               in_shuffle).1 1
  = Some (mkDeck shuffled shuffled (0, 0)).
Proof.
  assert (Hs : shuffle accept in_shuffle 2 10 [] 0 shuffled shuffled (0, 0) 1
               = Ok (step accept accept 2
                       (CallShuffle 10 [] 0 shuffled shuffled (0, 0) 1) in_shuffle).1)
    by (vm_compute; reflexivity).
  exact (proj1 (shuffle_then_query accept in_shuffle _ 2 10 [] 0 shuffled shuffled
                  (0, 0) 1 eq_refl eq_refl eq_refl eq_refl Hs)).
Defined.

(** X25 at work: the first deal of card 0 of game 1. *)
Lemma deal_then_query_witness :
  exists x0 y0, queryCardInDeal dealt_once 0 1 = Ok [x0; y0; 5; 6].
Proof.
  assert (Hdeal : deal accept in_deal 2 10 0 0 [] (5, 6) (1, 1) 1 = Ok dealt_once)
    by (vm_compute; reflexivity).
  destruct (deal_then_query accept in_deal dealt_once 2 10 0 0 [] (5, 6) (1, 1) 1
              eq_refl Hdeal) as (x0 & y0 & H & _).
  exists x0, y0. exact H.
Defined.

(** X26 at work: card 0 of game 0 holds entry 3 of the table, and no other
    slot holds it. *)
Lemma search_finds_the_only_slot_witness :
  search game_0_dealt 0 0 = Ok 3 /\
  NoDup X1_table /\
  forall k' : nat,
    (k' < 52)%nat ->
    (nth k' X1_table 0
     = Card.X1 (nth 0 (cards (cardDeal_of game_0_dealt 0)) Card.zero)
     <-> k' = 3%nat).
Proof.
  assert (Hs : search game_0_dealt 0 0 = Ok (Z.of_nat 3)) by (vm_compute; reflexivity).
  split; [exact Hs|].
  apply (search_finds_the_only_slot game_0_dealt 0 0 3).
  - vm_compute. reflexivity.
  - exact Hs.
  - lia.
Defined.

(** X27 at work: accounts 10 and 11 register for game 1. *)
Lemma registration_round_witness :
  exists s',
    run_calls reject reject 2
      [CallSetGameSettings 2 1; CallRegister 10 (0, 1) 1; CallRegister 11 (0, 1) 1]
      fresh = Ok s' /\
    state_of s' 1 = ShufflingDeck /\
    playerAddr (playerInfo_of s' 1) = [10; 11] /\
    aggregatedPk (playerInfo_of s' 1) = sum_keys [(0, 1); (0, 1)] /\
    deck_of s' 1 = initial_deck.
Proof.
  destruct (registration_round reject reject fresh 1 [(10, (0, 1)); (11, (0, 1))])
    as (s' & Hrun & Hst & _ & _ & Haddr & Hagg & Hdeck).
  - discriminate.
  - reflexivity.
  - reflexivity.
  - discriminate.
  - reflexivity.
  - repeat constructor.
  - exists s'. repeat split; assumption.
Defined.

(** X28 at work: accounts 10 and 11 shuffle game 1. *)
Lemma shuffle_round_witness :
  exists s',
    run_calls accept accept 2
      [CallShuffle 10 [] 0 shuffled shuffled (0, 0) 1;
       CallShuffle 11 [] 0 shuffled shuffled (0, 0) 1]
      in_shuffle = Ok s' /\
    state_of s' 1 = DealingCard /\
    deck_of s' 1 = mkDeck shuffled shuffled (0, 0).
Proof.
  destruct (shuffle_round accept accept in_shuffle 1
              [mkSubmission 10 [] 0 shuffled shuffled (0, 0);
               mkSubmission 11 [] 0 shuffled shuffled (0, 0)])
    as (s' & Hrun & Hst & _ & Hdeck & _).
  - vm_compute. reflexivity.
  - vm_compute. reflexivity.
  - vm_compute. reflexivity.
  - discriminate.
  - reflexivity.
  - reflexivity.
  - reflexivity.
  - vm_compute. reflexivity.
  - cbn [proved_in_chain]. repeat split; reflexivity.
  - exists s'. repeat split; assumption.
Defined.

(** X29 at work: accounts 10 and 11 deal card 0 of game 1. *)
Lemma deal_round_witness :
  exists s',
    run_calls accept accept 2
      [CallDeal 10 0 0 [] (5, 6) (1, 1) 1; CallDeal 11 0 1 [] (7, 8) (0, 0) 1]
      in_deal = Ok s' /\
    nth 0 (record (cardDeal_of s' 1)) 0 = 3 /\
    nth 0 (cards (cardDeal_of s' 1)) Card.zero = Card.mk 0 (Q - 1) 7 8 /\
    search s' 0 1 = Ok (search_loop (X1 (initialDeck in_deal)) 7 0 52).
Proof.
  destruct (deal_round accept accept in_deal 1 0 (mkDealSubmission 10 [] (5, 6) (1, 1))
              [mkDealSubmission 11 [] (7, 8) (0, 0)] (Q - 1, Q - 1))
    as (s' & Hrun & _ & Hrec & Hcard & Hsearch).
  - vm_compute. reflexivity.
  - lia.
  - reflexivity.
  - reflexivity.
  - vm_compute. reflexivity.
  - vm_compute. reflexivity.
  - vm_compute. reflexivity.
  - vm_compute. reflexivity.
  - vm_compute. lia.
  - vm_compute. reflexivity.
  - cbn [deals_proved]. repeat split; reflexivity.
  - exists s'. repeat split; assumption.
Defined.
